(** * Dirty-rectangle engine of [game/engine/gfx/_gm.c]

    A shallow embedding of the C extension module [_gm]: the helper
    routines [quicksort], [find] and [set_add], the rectangle-set
    difference [mk_disjoint], and the frame routine [fastdraw].

    Conventions of the embedding.
    - A C [int] is a [Z].  [mk_disjoint] adds and subtracts coordinates:
      the sums [x + w], [y + h] of a rectangle and the differences of two
      edges.  The definitions compute them exactly, which is what C
      defines as long as the result fits an [int].  Where a result does
      not fit, the compiled code wraps around: [mk_disjoint_int] is
      [mk_disjoint] with every such sum and difference reduced by
      [wrap].  [no_overflow] states that every result fits; under it the
      two agree ([mk_disjoint_int_exact]), and the theorems on the region
      that the result covers assume it.
    - A C array of [int] is a [list Z] holding its valid entries; it is
      read with [get] and written with [set], at [Z] indices.
    - A [for] loop over the entries of an array is a fold over the list; a
      [for] loop over the indices [lo <= k < hi] is a fold over
      [range lo hi].
    - A [while] loop is a [Fixpoint] on a fuel argument; the callers pass
      a fuel that is proved sufficient below. *)

From Stdlib Require Import ZArith List Lia Bool Permutation Sorted.
Import ListNotations.
Local Open Scope Z_scope.

(** ** Arrays of [int] *)

Definition len {A} (a : list A) : Z := Z.of_nat (length a).

Fixpoint set_nth (n : nat) (a : list Z) (v : Z) : list Z :=
  match a, n with
  | [], _ => []
  | _ :: t, O => v :: t
  | c :: t, S m => c :: set_nth m t v
  end.

(** [arr[i]]; a read outside the array (undefined in C) gives [0]. *)
Definition get (a : list Z) (i : Z) : Z :=
  if i <? 0 then 0 else nth (Z.to_nat i) a 0.

(** [arr[i] = v]; a write outside the array (undefined in C) is dropped. *)
Definition set (a : list Z) (i : Z) (v : Z) : list Z :=
  if i <? 0 then a else set_nth (Z.to_nat i) a v.

(** The indices [lo, lo + 1, ..., hi - 1] of a [for] loop. *)
Definition range (lo hi : Z) : list Z :=
  map (fun k => lo + Z.of_nat k) (seq 0 (Z.to_nat (hi - lo))).

(** ** [quicksort] *)

Definition MAX_QSORT_LEVELS : Z := 300.

(** [while (arr[R] >= piv && L < R) R--;] *)
Fixpoint scan_down (fuel : nat) (arr : list Z) (piv L R : Z) : Z :=
  match fuel with
  | O => R
  | S f =>
      if (get arr R >=? piv) && (L <? R)
      then scan_down f arr piv L (R - 1)
      else R
  end.

(** [while (arr[L] <= piv && L < R) L++;] *)
Fixpoint scan_up (fuel : nat) (arr : list Z) (piv L R : Z) : Z :=
  match fuel with
  | O => L
  | S f =>
      if (get arr L <=? piv) && (L <? R)
      then scan_up f arr piv (L + 1) R
      else L
  end.

(** The inner [while (L < R) { ... }] of [quicksort]: the result is the
    array and the value of [L] when the loop is left. *)
Fixpoint partition (fuel : nat) (arr : list Z) (piv L R : Z) : list Z * Z :=
  match fuel with
  | O => (arr, L)
  | S f =>
      if L <? R then
        let R1 := scan_down (Z.to_nat (R - L)) arr piv L R in
        (* if (L < R) arr[L++] = arr[R]; *)
        let '(arr1, L1) :=
          if L <? R1 then (set arr L (get arr R1), L + 1) else (arr, L) in
        let L2 := scan_up (Z.to_nat (R1 - L1)) arr1 piv L1 R1 in
        (* if (L < R) arr[R--] = arr[L]; *)
        let '(arr2, R2) :=
          if L2 <? R1 then (set arr1 R1 (get arr1 L2), R1 - 1) else (arr1, R1) in
        partition f arr2 piv L2 R2
      else (arr, L)
  end.

(** The pivot stack [beg[0..i]], [end[0..i]]: the head of the list is slot
    [i], the last element slot [0]; [i < 0] is the empty list.  Slots above
    [i] are always written before they are read, so they are not kept. *)
Definition qs_stack := list (Z * Z).

Definition qs_state : Type := list Z * qs_stack.

(** One iteration of [while (i >= 0) { ... }]; [None] when [i < 0]. *)
Definition qs_step (st : qs_state) : option qs_state :=
  let '(arr, stack) := st in
  match stack with
  | [] => None
  | (b, e) :: rest =>
      let L := b in
      let R := e - 1 in
      if L <? R then
        let piv := get arr L in
        let '(arr1, L1) := partition (Z.to_nat (R - L)) arr piv L R in
        let arr2 := set arr1 L1 piv in
        (* beg[i + 1] = L + 1; end[i + 1] = end[i]; end[i++] = L; *)
        let below := (b, L1) in
        let top := (L1 + 1, e) in
        if snd top - fst top >? snd below - fst below
        then Some (arr2, below :: top :: rest)
        else Some (arr2, top :: below :: rest)
      else Some (arr, rest)
  end.

Fixpoint qs_loop (fuel : nat) (st : qs_state) : list Z :=
  match fuel with
  | O => fst st
  | S f =>
      match qs_step st with
      | None => fst st
      | Some st' => qs_loop f st'
      end
  end.

Definition quicksort (arr : list Z) (elements : Z) : list Z :=
  qs_loop (Z.to_nat (2 * elements + 1)) (arr, [(0, elements)]).

(** ** [find] and [set_add] *)

(** [for (; i < n; i++) if (arr[i] == x) return i;  return -1;] *)
Definition find (arr : list Z) (n x i : Z) : Z :=
  match List.find (fun k => get arr k =? x) (range i n) with
  | Some k => k
  | None => -1
  end.

(** [set_add(arr, n, x)] with [n] the number of valid entries, here the
    length of the list: the new array and the returned [0] or [1]. *)
Definition set_add (arr : list Z) (x : Z) : list Z * Z :=
  if existsb (fun k => get arr k =? x) (range 0 (len arr))
  then (arr, 0)
  else (arr ++ [x], 1).

(** ** Rectangles *)

(** pygame's [GAME_Rect]; the constructor is [PyRect_New4]. *)
Record GAME_Rect : Type := PyRect_New4 { x : Z; y : Z; w : Z; h : Z }.

(** pygame's [Rect.clip] (external to this module, modelled after pygame's
    [rect_clip]): [A] cropped to lie inside [B], or a rectangle of size 0
    at [A]'s position when they do not overlap. *)
Definition clip_axis (a aw b bw : Z) : option (Z * Z) :=
  match
    (if (a >=? b) && (a <? b + bw) then Some a
     else if (b >=? a) && (b <? a + aw) then Some b
     else None)
  with
  | None => None
  | Some lo =>
      if (a + aw >? b) && (a + aw <=? b + bw) then Some (lo, a + aw - lo)
      else if (b + bw >? a) && (b + bw <=? a + aw) then Some (lo, b + bw - lo)
      else None
  end.

Definition clip (A B : GAME_Rect) : GAME_Rect :=
  match clip_axis (x A) (w A) (x B) (w B), clip_axis (y A) (h A) (y B) (h B) with
  | Some (cx, cw), Some (cy, ch) => PyRect_New4 cx cy cw ch
  | _, _ => PyRect_New4 (x A) (y A) 0 0
  end.

(** ** [mk_disjoint] *)

(** The edge arrays [edges[0]] (x) and [edges[1]] (y); [n_edges[k]] is the
    length of the list. *)
Definition edge_arrays : Type := list Z * list Z.

(** The body of the edge loop for one rectangle. *)
Definition add_edges (e : edge_arrays) (r : GAME_Rect) : edge_arrays :=
  let '(e0, e1) := e in
  let e0 := fst (set_add e0 (x r)) in
  let e0 := fst (set_add e0 (x r + w r)) in
  let e1 := fst (set_add e1 (y r)) in
  let e1 := fst (set_add e1 (y r + h r)) in
  (e0, e1).

(** [for (i = 0; i < 2; i++) for (j = 0; j < n_rects[i]; j++) ...] *)
Definition get_edges (add rm : list GAME_Rect) : edge_arrays :=
  fold_left (fun e rects => fold_left add_edges rects e) [add; rm] ([], []).

Definition sort_edges (e : edge_arrays) : edge_arrays :=
  (quicksort (fst e) (len (fst e)), quicksort (snd e) (len (snd e))).

(** [grid[(n_edges[0] - 1) * k + l] |= bit] *)
Definition mark_cell (n0 : Z) (bit : Z) (k : Z) (grid : list Z) (l : Z) : list Z :=
  let c := (n0 - 1) * k + l in
  set grid c (Z.lor (get grid c) bit).

(** The marking of one rectangle; [bit] is [2] for [add], [1] for [rm]. *)
Definition mark_rect (e : edge_arrays) (bit : Z) (grid : list Z) (r : GAME_Rect)
  : list Z :=
  let n0 := len (fst e) in
  let n1 := len (snd e) in
  if (w r >? 0) && (h r >? 0) then
    let row0 := find (snd e) n1 (y r) 0 in
    let row1 := find (snd e) n1 (y r + h r) row0 in
    let col0 := find (fst e) n0 (x r) 0 in
    let col1 := find (fst e) n0 (x r + w r) col0 in
    fold_left
      (fun g k => fold_left (mark_cell n0 bit k) (range col0 col1) g)
      (range row0 row1) grid
  else grid.

Definition mk_grid (e : edge_arrays) (add rm : list GAME_Rect) : list Z :=
  let n := (len (fst e) - 1) * (len (snd e) - 1) in
  let grid := repeat 0 (Z.to_nat n) in
  let grid := fold_left (mark_rect e 2) add grid in
  fold_left (mark_rect e 1) rm grid.

(** The variables of the scan that generates the subrects. *)
Record scan_state : Type := Scan
  { in_rect : bool; r_i : Z; r_left : Z; rs : list GAME_Rect }.

(** A rect ended: append it to [rs]; [right] is its right edge. *)
Definition close_rect (e : edge_arrays) (right : Z) (s : scan_state) : scan_state :=
  let k := get (snd e) (r_i s) in
  Scan false (r_i s) (r_left s)
       (rs s ++ [PyRect_New4 (r_left s) k (right - r_left s)
                             (get (snd e) (r_i s + 1) - k)]).

(** The body of the scan at row [i], column [j]. *)
Definition scan_cell (e : edge_arrays) (grid : list Z) (i : Z)
           (s : scan_state) (j : Z) : scan_state :=
  let n0 := len (fst e) in
  let s :=
    if in_rect s && negb (i =? r_i s)
    then close_rect e (get (fst e) (n0 - 1)) s
    else s in
  if get grid ((n0 - 1) * i + j) =? 2 then
    if negb (in_rect s) then Scan true i (get (fst e) j) (rs s) else s
  else if in_rect s then close_rect e (get (fst e) j) s
  else s.

Definition scan_rows (e : edge_arrays) (grid : list Z) : scan_state :=
  fold_left
    (fun s i => fold_left (scan_cell e grid i) (range 0 (len (fst e) - 1)) s)
    (range 0 (len (snd e) - 1))
    (Scan false 0 0 []).

Definition gen_subrects (e : edge_arrays) (grid : list Z) : list GAME_Rect :=
  let s := scan_rows e grid in
  let s :=
    if in_rect s then close_rect e (get (fst e) (len (fst e) - 1)) s else s in
  rs s.

Definition mk_disjoint (add rm : list GAME_Rect) : list GAME_Rect :=
  let e := sort_edges (get_edges add rm) in
  gen_subrects e (mk_grid e add rm).

(** ** [mk_disjoint] in the arithmetic of a 32-bit [int] *)

Definition INT_MIN : Z := - 2 ^ 31.
Definition INT_MAX : Z := 2 ^ 31 - 1.

(** The [int] that a sum or a difference of two [int]s leaves on a
    machine with 32-bit two's complement arithmetic. *)
Definition wrap (z : Z) : Z := (z + 2 ^ 31) mod 2 ^ 32 - 2 ^ 31.

(** The body of the edge loop: [r.x + r.w] and [r.y + r.h] are [int]
    sums. *)
Definition add_edges_int (e : edge_arrays) (r : GAME_Rect) : edge_arrays :=
  let '(e0, e1) := e in
  let e0 := fst (set_add e0 (x r)) in
  let e0 := fst (set_add e0 (wrap (x r + w r))) in
  let e1 := fst (set_add e1 (y r)) in
  let e1 := fst (set_add e1 (wrap (y r + h r))) in
  (e0, e1).

Definition get_edges_int (add rm : list GAME_Rect) : edge_arrays :=
  fold_left (fun e rects => fold_left add_edges_int rects e) [add; rm] ([], []).

(** The marking of one rectangle: [find] looks for the [int] sums. *)
Definition mark_rect_int (e : edge_arrays) (bit : Z) (grid : list Z) (r : GAME_Rect)
  : list Z :=
  let n0 := len (fst e) in
  let n1 := len (snd e) in
  if (w r >? 0) && (h r >? 0) then
    let row0 := find (snd e) n1 (y r) 0 in
    let row1 := find (snd e) n1 (wrap (y r + h r)) row0 in
    let col0 := find (fst e) n0 (x r) 0 in
    let col1 := find (fst e) n0 (wrap (x r + w r)) col0 in
    fold_left
      (fun g k => fold_left (mark_cell n0 bit k) (range col0 col1) g)
      (range row0 row1) grid
  else grid.

Definition mk_grid_int (e : edge_arrays) (add rm : list GAME_Rect) : list Z :=
  let n := (len (fst e) - 1) * (len (snd e) - 1) in
  let grid := repeat 0 (Z.to_nat n) in
  let grid := fold_left (mark_rect_int e 2) add grid in
  fold_left (mark_rect_int e 1) rm grid.

(** A rect ended: its width and its height are [int] differences. *)
Definition close_rect_int (e : edge_arrays) (right : Z) (s : scan_state)
  : scan_state :=
  let k := get (snd e) (r_i s) in
  Scan false (r_i s) (r_left s)
       (rs s ++ [PyRect_New4 (r_left s) k (wrap (right - r_left s))
                             (wrap (get (snd e) (r_i s + 1) - k))]).

Definition scan_cell_int (e : edge_arrays) (grid : list Z) (i : Z)
           (s : scan_state) (j : Z) : scan_state :=
  let n0 := len (fst e) in
  let s :=
    if in_rect s && negb (i =? r_i s)
    then close_rect_int e (get (fst e) (n0 - 1)) s
    else s in
  if get grid ((n0 - 1) * i + j) =? 2 then
    if negb (in_rect s) then Scan true i (get (fst e) j) (rs s) else s
  else if in_rect s then close_rect_int e (get (fst e) j) s
  else s.

Definition scan_rows_int (e : edge_arrays) (grid : list Z) : scan_state :=
  fold_left
    (fun s i => fold_left (scan_cell_int e grid i) (range 0 (len (fst e) - 1)) s)
    (range 0 (len (snd e) - 1))
    (Scan false 0 0 []).

Definition gen_subrects_int (e : edge_arrays) (grid : list Z) : list GAME_Rect :=
  let s := scan_rows_int e grid in
  let s :=
    if in_rect s then close_rect_int e (get (fst e) (len (fst e) - 1)) s else s in
  rs s.

Definition mk_disjoint_int (add rm : list GAME_Rect) : list GAME_Rect :=
  let e := sort_edges (get_edges_int add rm) in
  gen_subrects_int e (mk_grid_int e add rm).

(** ** [fastdraw] *)

(** The identity of a Graphic object (a Python reference). *)
Definition gid : Type := nat.

(** The attributes of a Graphic that [fastdraw] reads or writes. *)
Record Graphic : Type := mkGraphic
  { was_visible : bool;
    visible : bool;
    _last_postrot_rect : GAME_Rect;
    _postrot_rect : GAME_Rect;
    _dirty : list GAME_Rect }.

Definition set_was_visible (v : bool) (s : Graphic) : Graphic :=
  mkGraphic v (visible s) (_last_postrot_rect s) (_postrot_rect s) (_dirty s).

Definition set_dirty (d : list GAME_Rect) (s : Graphic) : Graphic :=
  mkGraphic (was_visible s) (visible s) (_last_postrot_rect s) (_postrot_rect s) d.

(** The methods of the Graphic objects, which live outside this module.
    A method sees and may change the attributes of its own object; [None]
    is a raised exception.  [_opaque_in] answers with a Python bool.  The
    surface handed to [_draw] is passed through untouched and left out. *)
Record Methods : Type := mkMethods
  { _pre_draw : gid -> Graphic -> option Graphic;
    _opaque_in : gid -> Graphic -> GAME_Rect -> option bool;
    _draw : gid -> Graphic -> list GAME_Rect -> option Graphic }.

(** The method calls [fastdraw] makes, in order. *)
Inductive Call : Type :=
| CallPreDraw (g : gid)
| CallOpaqueIn (g : gid) (r : GAME_Rect)
| CallDraw (g : gid) (rects : list GAME_Rect).

(** What [fastdraw] can reach: the Graphic objects by identity, the
    caller's [dirty] list (appended to in place), and the calls made. *)
Record World : Type := mkWorld
  { heap : gid -> Graphic;
    dirty : list GAME_Rect;
    calls : list Call }.

(** [Raised] is [return NULL] with the exception set. *)
Inductive Result (A : Type) : Type :=
| Done (a : A) (wd : World)
| Raised (wd : World).
Arguments Done {A} a wd.
Arguments Raised {A} wd.

Definition M (A : Type) : Type := World -> Result A.

Definition ret {A} (a : A) : M A := fun wd => Done a wd.

Definition bind {A B} (m : M A) (k : A -> M B) : M B :=
  fun wd =>
    match m wd with
    | Done a wd' => k a wd'
    | Raised wd' => Raised wd'
    end.

Notation "v <- m ;; k" := (bind m (fun v => k))
  (at level 61, m at next level, right associativity).
Notation "m ;;; k" := (bind m (fun _ => k))
  (at level 61, right associativity).

Fixpoint for_each {A} (l : list A) (body : A -> M unit) : M unit :=
  match l with
  | [] => ret tt
  | a :: t => body a ;;; for_each t body
  end.

Definition upd (hp : gid -> Graphic) (g : gid) (s : Graphic) : gid -> Graphic :=
  fun g' => if Nat.eqb g' g then s else hp g'.

Definition getattrs (g : gid) : M Graphic :=
  fun wd => Done (heap wd g) wd.

Definition setattrs (g : gid) (f : Graphic -> Graphic) : M unit :=
  fun wd => Done tt (mkWorld (upd (heap wd) g (f (heap wd g))) (dirty wd) (calls wd)).

Definition get_dirty : M (list GAME_Rect) :=
  fun wd => Done (dirty wd) wd.

(** [PyList_Append(dirty, r_o)], for a run of rectangles. *)
Definition append_dirty (l : list GAME_Rect) : M unit :=
  fun wd => Done tt (mkWorld (heap wd) (dirty wd ++ l) (calls wd)).

Definition log (c : Call) (wd : World) : World :=
  mkWorld (heap wd) (dirty wd) (calls wd ++ [c]).

Definition call_pre_draw (m : Methods) (g : gid) : M unit :=
  fun wd =>
    let wd := log (CallPreDraw g) wd in
    match _pre_draw m g (heap wd g) with
    | Some s => Done tt (mkWorld (upd (heap wd) g s) (dirty wd) (calls wd))
    | None => Raised wd
    end.

Definition call_opaque_in (m : Methods) (g : gid) (r : GAME_Rect) : M bool :=
  fun wd =>
    let wd := log (CallOpaqueIn g r) wd in
    match _opaque_in m g (heap wd g) r with
    | Some b => Done b wd
    | None => Raised wd
    end.

Definition call_draw (m : Methods) (g : gid) (rects : list GAME_Rect) : M unit :=
  fun wd =>
    let wd := log (CallDraw g rects) wd in
    match _draw m g (heap wd g) rects with
    | Some s => Done tt (mkWorld (upd (heap wd) g s) (dirty wd) (calls wd))
    | None => Raised wd
    end.

(** *** Getting the dirty rects from the graphics *)

(** The list the clipping loop runs over: [_dirty], or one whole rect when
    the visibility changed since the last draw. *)
Definition g_dirty_of (s : Graphic) : list GAME_Rect :=
  if xorb (was_visible s) (visible s)
  then [if visible s then _postrot_rect s else _last_postrot_rect s]
  else _dirty s.

(** The body of the collection loop for one graphic. *)
Definition collect_graphic (m : Methods) (g : gid) : M unit :=
  call_pre_draw m g ;;;
  s <- getattrs g ;;
  let g_dirty := g_dirty_of s in
  (if was_visible s
   then append_dirty (map (fun r_o => clip r_o (_last_postrot_rect s)) g_dirty)
   else ret tt) ;;;
  (if visible s
   then append_dirty (map (fun r_o => clip r_o (_postrot_rect s)) g_dirty)
   else ret tt) ;;;
  s' <- getattrs g ;;
  setattrs g (set_was_visible (visible s')).

Definition collect (m : Methods) (graphics : list (list gid)) : M unit :=
  for_each graphics (fun gs => for_each gs (collect_graphic m)).

(** *** Opaque regions of the dirty rects *)

(** The loop over the graphics of a layer for one dirty rect: the final
    [r] and [r_good]. *)
Fixpoint opaque_chain (m : Methods) (gs : list gid) (r : GAME_Rect)
  : M (GAME_Rect * bool) :=
  match gs with
  | [] => ret (r, true)
  | g :: rest =>
      s <- getattrs g ;;
      let r := clip r (_postrot_rect s) in
      tmp <- call_opaque_in m g r ;;
      let r_good := (w r >? 0) && (h r >? 0) && tmp in
      if r_good then opaque_chain m rest r else ret (r, false)
  end.

(** [l_dirty_opaque] of one layer. *)
Fixpoint layer_opaque (m : Methods) (gs : list gid) (rects : list GAME_Rect)
  : M (list GAME_Rect) :=
  match rects with
  | [] => ret []
  | r :: rest =>
      c <- opaque_chain m gs r ;;
      l <- layer_opaque m gs rest ;;
      ret (if snd c then fst c :: l else l)
  end.

(** The loop that fills [dirty_by_layer]; [dirty_opaque] is carried
    along. *)
Fixpoint occlude (m : Methods) (graphics : list (list gid))
         (dirty_opaque : list GAME_Rect) : M (list (list GAME_Rect)) :=
  match graphics with
  | [] => ret []
  | gs :: rest =>
      d <- get_dirty ;;
      l_dirty_opaque <- layer_opaque m gs d ;;
      let here := mk_disjoint d dirty_opaque in
      below <- occlude m rest (dirty_opaque ++ l_dirty_opaque) ;;
      ret (here :: below)
  end.

(** *** Redrawing in the dirty rects *)

Definition nonempty_rect (r : GAME_Rect) : bool := (w r >? 0) && (h r >? 0).

Definition draw_graphic (m : Methods) (rects : list GAME_Rect) (g : gid) : M unit :=
  s <- getattrs g ;;
  (if visible s then
     let draw_in :=
       filter nonempty_rect (map (fun r => clip (_postrot_rect s) r) rects) in
     if 0 <? len draw_in then call_draw m g draw_in else ret tt
   else ret tt) ;;;
  setattrs g (set_dirty []).

(** [for (i = n_layers - 1; i >= 0; i--)] *)
Definition draw_layers (m : Methods) (graphics : list (list gid))
           (dirty_by_layer : list (list GAME_Rect)) : M unit :=
  for_each (rev (combine graphics dirty_by_layer))
           (fun l => for_each (fst l) (draw_graphic m (snd l))).

(** The value [fastdraw] returns. *)
Inductive PyObject : Type :=
| Py_False
| PyList (l : list GAME_Rect).

(** [fastdraw]: [graphics] holds, per layer in the order of [layers], the
    sequence found in [graphics_in]; the [dirty] argument is the [dirty]
    of the world the call starts in. *)
Definition fastdraw (m : Methods) (graphics : list (list gid)) : M PyObject :=
  collect m graphics ;;;
  d <- get_dirty ;;
  if len d =? 0 then ret Py_False
  else
    dirty_by_layer <- occlude m graphics [] ;;
    draw_layers m graphics dirty_by_layer ;;;
    ret (PyList (mk_disjoint (concat dirty_by_layer) [])).

(** * The vocabulary of the properties *)

(** ** The elements of an array, and the invariants of [quicksort] *)

(** The number of entries of [a] equal to [z]. *)
Definition occ (a : list Z) (z : Z) : Z := Z.of_nat (count_occ Z.eq_dec a z).

(** [1] when [v] is [z], else [0]. *)
Definition hit (v z : Z) : Z := if v =? z then 1 else 0.

(** The state of the partition of the segment [b <= k < e] of [orig]
    around [piv]: [hl] is the position of the hole, the entry whose value
    has been saved or copied elsewhere. *)
Record part_inv (orig : list Z) (b e piv : Z) (arr : list Z) (L R hl : Z) : Prop :=
  { pi_bounds : 0 <= b /\ b <= L /\ L <= hl /\ hl <= R /\ R < e /\ e <= len orig;
    pi_len : len arr = len orig;
    pi_out : forall k, k < b \/ e <= k -> get arr k = get orig k;
    pi_low : forall k, b <= k < L -> get arr k <= piv;
    pi_high : forall k, R < k < e -> piv <= get arr k;
    pi_occ : forall z, occ (set arr hl piv) z = occ orig z;
    pi_from : forall k, b <= k < e ->
                        exists k', b <= k' < e /\ get arr k = get orig k' }.

(** The position [k] lies in the pending segment [s = (beg, end)]. *)
Definition in_seg (s : Z * Z) (k : Z) : Prop := fst s <= k < snd s.

(** A pending segment lies inside an array of [n] entries. *)
Definition seg_ok (n : Z) (s : Z * Z) : Prop := 0 <= fst s <= snd s /\ snd s <= n.

(** Two pending segments share no position. *)
Definition seg_disjoint (s t : Z * Z) : Prop := forall k, ~ (in_seg s k /\ in_seg t k).

(** The invariant of the outer loop of [quicksort]: the array holds the
    elements of [orig], the pending segments are disjoint, and two
    positions that no pending segment holds together are in order. *)
Record qs_inv (orig arr : list Z) (stack : qs_stack) : Prop :=
  { qi_len : len arr = len orig;
    qi_occ : forall z, occ arr z = occ orig z;
    qi_segs : Forall (seg_ok (len orig)) stack;
    qi_disj : ForallOrdPairs seg_disjoint stack;
    qi_ord : forall i j,
        0 <= i < j -> j < len orig ->
        (forall s, In s stack -> ~ (in_seg s i /\ in_seg s j)) ->
        get arr i <= get arr j }.

(** What is left to do: it decreases with every iteration of the outer
    loop, and bounds their number. *)
Fixpoint qs_measure (stack : qs_stack) : Z :=
  match stack with
  | [] => 0
  | s :: rest => 2 * (snd s - fst s) + 1 + qs_measure rest
  end.

(** The state after [k] iterations of the outer loop. *)
Fixpoint qs_run (k : nat) (st : qs_state) : option qs_state :=
  match k with
  | O => Some st
  | S k' =>
      match qs_step st with
      | None => None
      | Some st' => qs_run k' st'
      end
  end.

(** The segment of slot [k] has at most [n / 2 ^ k] entries. *)
Fixpoint levels_ok (n : Z) (stack : qs_stack) : Prop :=
  match stack with
  | [] => True
  | s :: rest => (snd s - fst s) * 2 ^ len rest <= n /\ levels_ok n rest
  end.

(** ** Edges and grid *)

(** The x coordinates and the y coordinates a rectangle hands to
    [set_add]. *)
Definition x_edge_of (r : GAME_Rect) (z : Z) : Prop := z = x r \/ z = x r + w r.
Definition y_edge_of (r : GAME_Rect) (z : Z) : Prop := z = y r \/ z = y r + h r.

(** An array in strictly ascending order. *)
Definition ascending (a : list Z) : Prop :=
  forall i j, 0 <= i < j -> j < len a -> get a i < get a j.

(** The edge arrays of [mk_disjoint], after the sort. *)
Definition edges_of (add rm : list GAME_Rect) : edge_arrays :=
  sort_edges (get_edges add rm).

(** The edge arrays are sorted and hold the edges of [r]. *)
Definition edges_hold (e : edge_arrays) (r : GAME_Rect) : Prop :=
  (forall z, x_edge_of r z -> In z (fst e)) /\
  (forall z, y_edge_of r z -> In z (snd e)).

(** The grid of [cols] columns and [rows] rows holds [F k l] at row [k],
    column [l]. *)
Definition grid_is (cols rows : Z) (grid : list Z) (F : Z -> Z -> Z) : Prop :=
  len grid = Z.of_nat (Z.to_nat (cols * rows)) /\
  forall k l, 0 <= k < rows -> 0 <= l < cols -> get grid (cols * k + l) = F k l.

(** The cell at row [k], column [l] lies inside the rectangle [r], which
    is not empty. *)
Definition coversb (e : edge_arrays) (r : GAME_Rect) (k l : Z) : bool :=
  (w r >? 0) && (h r >? 0) &&
  (x r <=? get (fst e) l) && (get (fst e) (l + 1) <=? x r + w r) &&
  (y r <=? get (snd e) k) && (get (snd e) (k + 1) <=? y r + h r).

(** The value of a cell: bit [2] when an [add] rectangle holds it, bit
    [1] when a [rm] rectangle does. *)
Definition flag (a b : bool) : Z := (if a then 2 else 0) + (if b then 1 else 0).

(** The cell at row [i], column [j] is [ADD] only. *)
Definition add_only (e : edge_arrays) (grid : list Z) (i j : Z) : bool :=
  get grid ((len (fst e) - 1) * i + j) =? 2.

(** ** The scan, as the specification words it *)

(** The scan read from the specification: in each grid row, top to
    bottom, every maximal run of horizontally contiguous cells whose flag
    is [ADD] only gives one rectangle, one grid row high; the runs of a
    row are taken left to right.  A run is [(c0, c1)]: the cells of the
    columns [c0 <= l < c1]. *)
Fixpoint runs_from (f : Z -> bool) (cols : list Z) (last : Z) (open : option Z)
  : list (Z * Z) :=
  match cols with
  | [] => match open with Some c0 => [(c0, last)] | None => [] end
  | j :: t =>
      if f j
      then runs_from f t last (Some (match open with Some c0 => c0 | None => j end))
      else match open with
           | Some c0 => (c0, j) :: runs_from f t last None
           | None => runs_from f t last None
           end
  end.

(** The maximal runs of the cells with [f] among the columns
    [0 <= l < ncols], from left to right. *)
Definition row_runs (f : Z -> bool) (ncols : Z) : list (Z * Z) :=
  runs_from f (range 0 ncols) ncols None.

(** The rectangle of a run of row [i]. *)
Definition run_rect (e : edge_arrays) (i : Z) (c : Z * Z) : GAME_Rect :=
  PyRect_New4 (get (fst e) (fst c)) (get (snd e) i)
              (get (fst e) (snd c) - get (fst e) (fst c))
              (get (snd e) (i + 1) - get (snd e) i).

(** The rectangles of row [i]. *)
Definition row_rects (e : edge_arrays) (grid : list Z) (i : Z) : list GAME_Rect :=
  map (run_rect e i) (row_runs (add_only e grid i) (len (fst e) - 1)).

(** The rectangles of all rows, top to bottom. *)
Definition disjoint_difference_rows (e : edge_arrays) (grid : list Z) : list GAME_Rect :=
  flat_map (row_rects e grid) (range 0 (len (snd e) - 1)).

(** [c0 <= l < c1] is a maximal run of cells with [f] among the columns
    [0 <= l < ncols]. *)
Definition maximal_run (f : Z -> bool) (ncols c0 c1 : Z) : Prop :=
  0 <= c0 /\ c0 < c1 /\ c1 <= ncols /\
  (forall l, c0 <= l < c1 -> f l = true) /\
  (c0 = 0 \/ f (c0 - 1) = false) /\
  (c1 = ncols \/ f c1 = false).




(** ** The scan of the code, row by row *)

(** The last statement of the scan: [if (in_rect) { ... }]. *)
Definition flush (e : edge_arrays) (s : scan_state) : scan_state :=
  if in_rect s then close_rect e (get (fst e) (len (fst e) - 1)) s else s.

(** The scan state, inside row [i], agrees with the run that is open. *)
Definition open_is (e : edge_arrays) (i : Z) (s : scan_state) (open : option Z) : Prop :=
  match open with
  | None => in_rect s = false
  | Some c0 => in_rect s = true /\ r_i s = i /\ r_left s = get (fst e) c0
  end.

(** What is known of the columns before [j] when the scan of a row is at
    column [j]. *)
Definition open_ok (f : Z -> bool) (j : Z) (open : option Z) : Prop :=
  match open with
  | None => j = 0 \/ f (j - 1) = false
  | Some c0 =>
      0 <= c0 < j /\ (forall l, c0 <= l < j -> f l = true) /\
      (c0 = 0 \/ f (c0 - 1) = false)
  end.

(** The first column a run that ends at or after column [j] can have. *)
Definition open_start (j : Z) (open : option Z) : Z :=
  match open with Some c0 => c0 | None => j end.

(** The runs of a row lie apart, from left to right. *)
Definition run_before (a b : Z * Z) : Prop := snd a < fst b.

(** While a rect is open in the scan, its left edge is an entry of the x
    edges and its row is a grid row. *)
Definition scan_ok (e : edge_arrays) (s : scan_state) : Prop :=
  in_rect s = true ->
  In (r_left s) (fst e) /\ 0 <= r_i s /\ r_i s + 1 < len (snd e).

(** ** Regions *)

(** The point [(px, py)] lies in the rectangle [r]; an empty rectangle
    holds no point. *)
Definition inside (r : GAME_Rect) (px py : Z) : Prop :=
  x r <= px < x r + w r /\ y r <= py < y r + h r.

(** The union of a list of rectangles. *)
Definition covered (l : list GAME_Rect) (px py : Z) : Prop :=
  exists r, In r l /\ inside r px py.

(** Two rectangles share no point. *)
Definition disjoint_rects (r1 r2 : GAME_Rect) : Prop :=
  forall px py, ~ (inside r1 px py /\ inside r2 px py).

(** The rectangle holds a point. *)
Definition nonempty (r : GAME_Rect) : Prop := 0 < w r /\ 0 < h r.

(** [B] holds the whole of [A]. *)
Definition holds (B A : GAME_Rect) : Prop :=
  x B <= x A /\ x A + w A <= x B + w B /\ y B <= y A /\ y A + h A <= y B + h B.

(** The order in which [mk_disjoint] emits its rectangles: a row above,
    or the same row and to the left with a gap. *)
Definition rect_before (r1 r2 : GAME_Rect) : Prop :=
  y r1 + h r1 <= y r2 \/
  (y r1 = y r2 /\ h r1 = h r2 /\ x r1 + w r1 < x r2).

(** Two rows, as intervals of y: the same, or one above the other. *)
Definition rows_apart (r1 r2 : GAME_Rect) : Prop :=
  (y r1 = y r2 /\ h r1 = h r2) \/ y r1 + h r1 <= y r2 \/ y r2 + h r2 <= y r1.

(** ** The range of [int] *)

(** The value fits an [int]. *)
Definition int_ok (z : Z) : Prop := INT_MIN <= z <= INT_MAX.

(** The corners of the rectangle fit an [int]. *)
Definition rect_int (r : GAME_Rect) : Prop :=
  int_ok (x r) /\ int_ok (y r) /\ int_ok (x r + w r) /\ int_ok (y r + h r).

(** The value lies in the window of [INT_MAX + 1] values that starts at
    [lo]. *)
Definition in_window (lo z : Z) : Prop := lo <= z <= lo + INT_MAX.

(** The edges of the rectangle lie in the windows at [lx] and [ly]. *)
Definition rect_in (lx ly : Z) (r : GAME_Rect) : Prop :=
  in_window lx (x r) /\ in_window lx (x r + w r) /\
  in_window ly (y r) /\ in_window ly (y r + h r).

(** No sum [x + w], [y + h] of a rectangle of the list and no difference
    of two x edges or of two y edges of the list leaves the range of
    [int]: the x edges fit one window inside the range, and so do the y
    edges. *)
Definition no_overflow (l : list GAME_Rect) : Prop :=
  exists lx ly,
    INT_MIN <= lx <= 0 /\ INT_MIN <= ly <= 0 /\ Forall (rect_in lx ly) l.

(** ** The passes of [fastdraw] *)

(** The rectangles one graphic adds to [dirty]. *)
Definition dirty_of (s : Graphic) : list GAME_Rect :=
  (if was_visible s
   then map (fun r_o => clip r_o (_last_postrot_rect s)) (g_dirty_of s) else []) ++
  (if visible s
   then map (fun r_o => clip r_o (_postrot_rect s)) (g_dirty_of s) else []).

(** [_pre_draw] leaves [_dirty] alone, for every graphic. *)
Definition pre_draw_keeps_dirty (m : Methods) : Prop :=
  forall g s s', _pre_draw m g s = Some s' -> _dirty s' = _dirty s.

(** The list [dirty_opaque] when the loop over the layers is through:
    the opaque rects of every layer, appended layer after layer. *)
Fixpoint opaque_after (m : Methods) (graphics : list (list gid))
         (dirty_opaque : list GAME_Rect) : M (list GAME_Rect) :=
  match graphics with
  | [] => ret dirty_opaque
  | gs :: rest =>
      d <- get_dirty ;;
      l_dirty_opaque <- layer_opaque m gs d ;;
      opaque_after m rest (dirty_opaque ++ l_dirty_opaque)
  end.

(** No sum and no difference of coordinates overflows in the occlusion
    pass of the frame: [dirty] fits, and so do the corners of the
    bounding rect of every graphic. *)
Definition frame_fits (graphics : list (list gid)) (wd : World) : Prop :=
  no_overflow (dirty wd) /\
  forall g, In g (concat graphics) -> rect_int (_postrot_rect (heap wd g)).

(** From [wd] to [wd'] nothing happened but calls of [_opaque_in]. *)
Definition asks_only (wd wd' : World) : Prop :=
  heap wd' = heap wd /\ dirty wd' = dirty wd /\
  exists l, calls wd' = calls wd ++ l /\
            Forall (fun c => exists g r, c = CallOpaqueIn g r) l.

(** The last call made from [wd] to [wd'] is a call of [_opaque_in] that
    raised. *)
Definition opaque_in_raised (m : Methods) (wd wd' : World) : Prop :=
  exists g r pre,
    calls wd' = calls wd ++ pre ++ [CallOpaqueIn g r] /\
    _opaque_in m g (heap wd' g) r = None.

(** What holds of a run of the occlusion pass, whether it returned or
    raised. *)
Definition occlusion_post {A} (m : Methods) (wd : World) (res : Result A) : Prop :=
  match res with
  | Done _ wd' => asks_only wd wd'
  | Raised wd' => asks_only wd wd' /\ opaque_in_raised m wd wd'
  end.

(** From [wd] to [wd'] the only calls made are calls of [_draw]. *)
Definition draws_only (wd wd' : World) : Prop :=
  dirty wd' = dirty wd /\
  exists l, calls wd' = calls wd ++ l /\
            Forall (fun c => exists g rects, c = CallDraw g rects) l.

(** The draw loop, flattened: the graphics in the order they are drawn,
    each with the dirty rects of its layer. *)
Definition draw_items (graphics : list (list gid))
           (dirty_by_layer : list (list GAME_Rect))
  : list ((list gid * list GAME_Rect) * gid) :=
  flat_map (fun l => map (pair l) (fst l)) (rev (combine graphics dirty_by_layer)).

(** The call [c], made in the world [wd], raises. *)
Definition call_raises (m : Methods) (wd : World) (c : Call) : Prop :=
  match c with
  | CallPreDraw g => _pre_draw m g (heap wd g) = None
  | CallOpaqueIn g r => _opaque_in m g (heap wd g) r = None
  | CallDraw g rects => _draw m g (heap wd g) rects = None
  end.

(** The world a run ends in. *)
Definition world_of {A} (res : Result A) : World :=
  match res with Done _ wd => wd | Raised wd => wd end.

(** The value a run returns, [d] if it raised. *)
Definition value_of {A} (d : A) (res : Result A) : A :=
  match res with Done a _ => a | Raised _ => d end.

(** ** Statements of the specification that the code does not meet *)

(** A call that raised leaves the dirty state of every graphic as it was
    before the call. *)
Definition raised_restores_dirty_state : Prop :=
  forall m graphics wd wd',
    fastdraw m graphics wd = Raised wd' ->
    forall g, _dirty (heap wd' g) = _dirty (heap wd g) /\
              was_visible (heap wd' g) = was_visible (heap wd g).

(** With an empty [rm], the result is pairwise disjoint, free of empty
    rectangles, and covers the members of [add] that are not empty: for
    every list [add], in the arithmetic of [int]. *)
Definition add_only_holds_of_every_list : Prop :=
  forall add,
    ForallOrdPairs disjoint_rects (mk_disjoint_int add []) /\
    Forall (fun r => 0 < w r /\ 0 < h r) (mk_disjoint_int add []) /\
    forall px py,
      covered (mk_disjoint_int add []) px py <->
      covered (filter nonempty_rect add) px py.

(** A second call, on the result and an empty [rm], gives the result
    again: for every [add] and [rm], in the arithmetic of [int]. *)
Definition idempotent_on_every_list : Prop :=
  forall add rm,
    mk_disjoint_int (mk_disjoint_int add rm) [] = mk_disjoint_int add rm.

(** One opaque graphic of a layer over a dirty rect is enough to keep the
    rect out of the later layers. *)
Definition one_opaque_graphic_hides : Prop :=
  forall m before gs after wd dirty_by_layer wd' r g,
    dirty wd <> [] -> In r (dirty wd) ->
    occlude m (before ++ gs :: after) [] wd = Done dirty_by_layer wd' ->
    In g gs ->
    holds (_postrot_rect (heap wd g)) r ->
    _opaque_in m g (heap wd g) (clip r (_postrot_rect (heap wd g))) = Some true ->
    forall j rects,
      (length before < j)%nat -> nth_error dirty_by_layer j = Some rects ->
      forall px py, inside r px py -> ~ covered rects px py.

(** ** Concrete frames *)

(** Methods that never raise; every graphic is opaque everywhere. *)
Definition ex_all_opaque : Methods :=
  mkMethods (fun _ s => Some s) (fun _ _ _ => Some true) (fun _ s _ => Some s).

(** A graphic that was visible and is hidden now, with a stale [_dirty]. *)
Definition ex_hidden : Graphic :=
  mkGraphic true false (PyRect_New4 1 2 3 4) (PyRect_New4 0 0 9 9)
            [PyRect_New4 50 50 1 1].

(** Two graphics that have just become visible; [_pre_draw] raises on the
    second. *)
Definition ex_shown : Graphic :=
  mkGraphic false true (PyRect_New4 0 0 4 4) (PyRect_New4 0 0 4 4) [].

(** Methods of which [_pre_draw] raises on graphic [1]. *)
Definition ex_second_raises : Methods :=
  mkMethods (fun g s => if Nat.eqb g 1 then None else Some s)
            (fun _ _ _ => Some true)
            (fun _ s _ => Some s).

(** Graphic [1] lies away from the others. *)
Definition ex_heap (g : gid) : Graphic :=
  if Nat.eqb g 1
  then mkGraphic true true (PyRect_New4 20 20 5 5) (PyRect_New4 20 20 5 5) []
  else mkGraphic true true (PyRect_New4 0 0 10 10) (PyRect_New4 0 0 10 10) [].

(** One graphic, visible as before, with nothing dirty. *)
Definition ex_clean : World :=
  mkWorld (fun _ => mkGraphic true true (PyRect_New4 0 0 4 4) (PyRect_New4 0 0 4 4) [])
          [] [].

(** A graphic that was hidden and stays hidden, with a stale [_dirty]. *)
Definition ex_idle : Graphic :=
  mkGraphic false false (PyRect_New4 1 2 3 4) (PyRect_New4 1 2 3 4)
            [PyRect_New4 1 1 2 2].

(** One dirty rect, under graphics [0] and [2] and away from graphic [1]. *)
Definition ex_dirty : World := mkWorld ex_heap [PyRect_New4 0 0 10 10] [].

(** ** The calls of a frame *)

(** A call of [_draw] as the draw loop makes it for the graphic [g] of a
    layer whose dirty rects are [rects]: the graphic, in the state [s] it
    has then, is visible, and is handed the rects clipped to its bounding
    rect, of which one at least is not empty. *)
Definition draw_call_of (rects : list GAME_Rect) (g : gid) (c : Call) : Prop :=
  exists s,
    visible s = true /\
    filter nonempty_rect (map (fun r => clip (_postrot_rect s) r) rects) <> [] /\
    c = CallDraw g (filter nonempty_rect
                           (map (fun r => clip (_postrot_rect s) r) rects)).

(** A call of [_draw] on a graphic of [gs], with a list of rectangles
    that is not empty, whose rectangles are not empty, pairwise disjoint
    and inside [region]. *)
Definition draws_within (region : list GAME_Rect) (gs : list gid) (c : Call) : Prop :=
  exists g rects,
    c = CallDraw g rects /\ In g gs /\ rects <> [] /\
    Forall nonempty rects /\ ForallOrdPairs disjoint_rects rects /\
    forall px py, covered rects px py -> covered region px py.

(** * Properties *)

#[local] Arguments Z.mul : simpl never.
#[local] Arguments Z.add : simpl never.
#[local] Arguments Z.sub : simpl never.
#[local] Arguments Z.of_nat : simpl never.
#[local] Arguments Z.to_nat : simpl never.

(** ** Arrays *)

Lemma len_nonneg {A} (a : list A) : 0 <= len a.
Proof. unfold len. lia. Qed.

Lemma len_app {A} (a b : list A) : len (a ++ b) = len a + len b.
Proof. unfold len. rewrite length_app. lia. Qed.

Lemma set_nth_length n a v : length (set_nth n a v) = length a.
Proof.
  revert n. induction a as [|c t IH]; intros [|n]; simpl; auto.
Qed.

Lemma set_length a i v : length (set a i v) = length a.
Proof.
  unfold set. destruct (i <? 0); auto using set_nth_length.
Qed.

Lemma len_set a i v : len (set a i v) = len a.
Proof. unfold len. now rewrite set_length. Qed.

Lemma nth_set_nth_same n a v :
  (n < length a)%nat -> nth n (set_nth n a v) 0 = v.
Proof.
  revert n. induction a as [|c t IH]; intros [|n] Hn; simpl in *; try lia; auto.
  apply IH. lia.
Qed.

Lemma nth_set_nth_other n k a v :
  n <> k -> nth k (set_nth n a v) 0 = nth k a 0.
Proof.
  revert n k. induction a as [|c t IH]; intros [|n] [|k] Hn; simpl; auto; try lia.
Qed.

Lemma get_set_same a i v : 0 <= i < len a -> get (set a i v) i = v.
Proof.
  unfold get, set, len. intros Hi.
  destruct (Z.ltb_spec i 0); try lia.
  apply nth_set_nth_same. lia.
Qed.

Lemma get_set_other a i j v : i <> j -> get (set a i v) j = get a j.
Proof.
  unfold get, set. intros Hij.
  destruct (Z.ltb_spec j 0); auto.
  destruct (Z.ltb_spec i 0); auto.
  apply nth_set_nth_other. lia.
Qed.

Lemma get_app_l a b i : 0 <= i < len a -> get (a ++ b) i = get a i.
Proof.
  unfold get, len. intros Hi. destruct (Z.ltb_spec i 0); try lia.
  apply app_nth1. lia.
Qed.

Lemma get_app_r a v : get (a ++ [v]) (len a) = v.
Proof.
  unfold get, len. destruct (Z.ltb_spec (Z.of_nat (length a)) 0); try lia.
  rewrite Nat2Z.id, app_nth2, Nat.sub_diag; auto.
Qed.

Lemma get_In a i : 0 <= i < len a -> In (get a i) a.
Proof.
  unfold get, len. intros Hi. destruct (Z.ltb_spec i 0); try lia.
  apply nth_In. lia.
Qed.

Lemma In_get a v : In v a -> exists i, 0 <= i < len a /\ get a i = v.
Proof.
  intros Hin. destruct (In_nth a v 0 Hin) as (n & Hn & Hv).
  exists (Z.of_nat n). unfold get, len.
  destruct (Z.ltb_spec (Z.of_nat n) 0); try lia.
  rewrite Nat2Z.id. split; [lia | auto].
Qed.

(** Two arrays of one length with the same entries are equal. *)
Lemma get_ext a b :
  len a = len b -> (forall i, 0 <= i < len a -> get a i = get b i) -> a = b.
Proof.
  unfold len. intros Hl Hg. apply (nth_ext a b 0 0); [lia|].
  intros n Hn. specialize (Hg (Z.of_nat n)). unfold get in Hg.
  destruct (Z.ltb_spec (Z.of_nat n) 0); try lia.
  rewrite Nat2Z.id in Hg. apply Hg. lia.
Qed.

Lemma In_range lo hi k : In k (range lo hi) <-> lo <= k < hi.
Proof.
  unfold range. rewrite in_map_iff. split.
  - intros (n & <- & Hn). apply in_seq in Hn. lia.
  - intros Hk. exists (Z.to_nat (k - lo)). split; [lia|].
    apply in_seq. lia.
Qed.

Lemma range_nil lo hi : hi <= lo -> range lo hi = [].
Proof.
  intros Hle. unfold range. replace (Z.to_nat (hi - lo)) with O by lia. reflexivity.
Qed.

Lemma range_cons lo hi : lo < hi -> range lo hi = lo :: range (lo + 1) hi.
Proof.
  intros Hlt. unfold range.
  replace (Z.to_nat (hi - lo)) with (S (Z.to_nat (hi - (lo + 1)))) by lia.
  simpl. f_equal; [lia|].
  rewrite <- seq_shift, map_map. apply map_ext. intros k. lia.
Qed.

Lemma range_snoc lo hi : lo < hi -> range lo hi = range lo (hi - 1) ++ [hi - 1].
Proof.
  intros Hlt. unfold range.
  replace (Z.to_nat (hi - lo)) with (Z.to_nat (hi - 1 - lo) + 1)%nat by lia.
  rewrite seq_app, map_app. simpl. do 2 f_equal. lia.
Qed.

Lemma range_app lo mid hi :
  lo <= mid <= hi -> range lo hi = range lo mid ++ range mid hi.
Proof.
  intros Hm. unfold range.
  replace (Z.to_nat (hi - lo)) with (Z.to_nat (mid - lo) + Z.to_nat (hi - mid))%nat by lia.
  rewrite seq_app, map_app. f_equal. simpl.
  rewrite <- (Nat.add_0_r (Z.to_nat (mid - lo))) at 1.
  generalize (Z.to_nat (hi - mid)) as n. generalize 0%nat as s.
  intros s n. revert s. induction n as [|n IH]; intros s; simpl; auto.
  f_equal; [lia|]. rewrite <- IH. f_equal. f_equal. lia.
Qed.

(** ** The elements of an array under writes *)

Lemma occ_set_nth n a v z :
  (n < length a)%nat ->
  occ (set_nth n a v) z + hit (nth n a 0) z = occ a z + hit v z.
Proof.
  unfold occ, hit. revert n.
  induction a as [|c t IH]; intros [|n] Hn; simpl in *; try lia.
  - destruct (Z.eq_dec v z), (Z.eq_dec c z), (Z.eqb_spec c z), (Z.eqb_spec v z); lia.
  - specialize (IH n ltac:(lia)).
    destruct (Z.eq_dec c z); lia.
Qed.

Lemma occ_set a i v z :
  0 <= i < len a -> occ (set a i v) z + hit (get a i) z = occ a z + hit v z.
Proof.
  unfold set, get, len. intros Hi. destruct (Z.ltb_spec i 0); try lia.
  apply occ_set_nth. lia.
Qed.

Lemma occ_perm a b : (forall z, occ a z = occ b z) -> Permutation a b.
Proof.
  intros Hocc. apply (Permutation_count_occ Z.eq_dec). intros z.
  specialize (Hocc z). unfold occ in Hocc. lia.
Qed.

(** Moving the hole of the partition from [i] to [j] keeps the elements. *)
Lemma occ_move a i j v z :
  0 <= i < len a -> 0 <= j < len a -> i <> j ->
  occ (set (set a i (get a j)) j v) z = occ (set a i v) z.
Proof.
  intros Hi Hj Hij.
  pose proof (occ_set (set a i (get a j)) j v z) as H1.
  rewrite len_set, get_set_other in H1 by auto.
  pose proof (occ_set a i (get a j) z Hi) as H2.
  pose proof (occ_set a i v z Hi) as H3.
  specialize (H1 Hj). lia.
Qed.

Lemma occ_set_same a i z :
  0 <= i < len a -> occ (set a i (get a i)) z = occ a z.
Proof.
  intros Hi. pose proof (occ_set a i (get a i) z Hi). lia.
Qed.

(** ** [quicksort] sorts *)

Lemma scan_down_spec fuel arr piv L R :
  L <= R -> R - L <= Z.of_nat fuel ->
  let R1 := scan_down fuel arr piv L R in
  L <= R1 <= R /\
  (forall k, R1 < k <= R -> piv <= get arr k) /\
  (R1 = L \/ get arr R1 < piv).
Proof.
  revert R. induction fuel as [|f IH]; intros R HLR Hf; simpl.
  - repeat split; intros; lia.
  - rewrite Z.geb_leb.
    destruct (Z.leb_spec piv (get arr R)), (Z.ltb_spec L R); simpl;
      try (repeat split; intros; lia).
    destruct (IH (R - 1) ltac:(lia) ltac:(lia)) as (H1 & H2 & H3).
    repeat split; try lia; auto.
    intros k Hk. destruct (Z.eq_dec k R) as [->|Hne]; auto.
    apply H2. lia.
Qed.

Lemma scan_up_spec fuel arr piv L R :
  L <= R -> R - L <= Z.of_nat fuel ->
  let L1 := scan_up fuel arr piv L R in
  L <= L1 <= R /\
  (forall k, L <= k < L1 -> get arr k <= piv) /\
  (L1 = R \/ piv < get arr L1).
Proof.
  revert L. induction fuel as [|f IH]; intros L HLR Hf; simpl.
  - repeat split; intros; lia.
  - destruct (Z.leb_spec (get arr L) piv), (Z.ltb_spec L R); simpl;
      try (repeat split; intros; lia).
    destruct (IH (L + 1) ltac:(lia) ltac:(lia)) as (H1 & H2 & H3).
    repeat split; try lia; auto.
    intros k Hk. destruct (Z.eq_dec k L) as [->|Hne]; auto.
    apply H2. lia.
Qed.

(** The partition of one segment [b <= k < e] of the array [orig] around
    the pivot [piv]. *)
Section Partition.

Variables (orig : list Z) (b e piv : Z).

Lemma part_inv_shrink arr L R hl L' R' :
  part_inv orig b e piv arr L R hl ->
  L <= L' -> L' <= hl -> hl <= R' -> R' <= R ->
  (forall k, L <= k < L' -> get arr k <= piv) ->
  (forall k, R' < k <= R -> piv <= get arr k) ->
  part_inv orig b e piv arr L' R' hl.
Proof.
  intros [Hb Hl Hout Hlow Hhigh Hocc Hfrom] H1 H2 H3 H4 Hlo Hhi.
  constructor; auto; try lia.
  - intros k Hk. destruct (Z.lt_ge_cases k L); [apply Hlow | apply Hlo]; lia.
  - intros k Hk. destruct (Z.lt_ge_cases R k); [apply Hhigh | apply Hhi]; lia.
Qed.

(** [arr[L++] = arr[R]]: the hole moves from [L] to [R]. *)
Lemma part_inv_move_up arr L R :
  part_inv orig b e piv arr L R L -> L < R -> get arr R < piv ->
  part_inv orig b e piv (set arr L (get arr R)) (L + 1) R R.
Proof.
  intros [Hb Hl Hout Hlow Hhigh Hocc Hfrom] HLR Hlt.
  constructor; auto; try lia.
  - now rewrite len_set.
  - intros k Hk. rewrite get_set_other by lia. auto.
  - intros k Hk. destruct (Z.eq_dec k L) as [->|Hne].
    + rewrite get_set_same by lia. lia.
    + rewrite get_set_other by lia. apply Hlow. lia.
  - intros k Hk. rewrite get_set_other by lia. auto.
  - intros z. rewrite occ_move by lia. apply Hocc.
  - intros k Hk. destruct (Z.eq_dec k L) as [->|Hne].
    + rewrite get_set_same by lia. apply Hfrom. lia.
    + rewrite get_set_other by lia. auto.
Qed.

(** [arr[R--] = arr[L]]: the hole moves from [R] to [L]. *)
Lemma part_inv_move_down arr L R :
  part_inv orig b e piv arr L R R -> L < R -> piv < get arr L ->
  part_inv orig b e piv (set arr R (get arr L)) L (R - 1) L.
Proof.
  intros [Hb Hl Hout Hlow Hhigh Hocc Hfrom] HLR Hlt.
  constructor; auto; try lia.
  - now rewrite len_set.
  - intros k Hk. rewrite get_set_other by lia. auto.
  - intros k Hk. rewrite get_set_other by lia. auto.
  - intros k Hk. destruct (Z.eq_dec k R) as [->|Hne].
    + rewrite get_set_same by lia. lia.
    + rewrite get_set_other by lia. apply Hhigh. lia.
  - intros z. rewrite occ_move by lia. apply Hocc.
  - intros k Hk. destruct (Z.eq_dec k R) as [->|Hne].
    + rewrite get_set_same by lia. apply Hfrom. lia.
    + rewrite get_set_other by lia. auto.
Qed.

Lemma partition_spec fuel arr L R :
  part_inv orig b e piv arr L R L -> R - L <= Z.of_nat fuel ->
  forall arr' L', partition fuel arr piv L R = (arr', L') ->
  part_inv orig b e piv arr' L' L' L'.
Proof.
  revert arr L R. induction fuel as [|f IH]; intros arr L R Hinv Hf arr' L' Hp;
    simpl in Hp.
  - inversion Hp; subst. destruct Hinv as [Hb ? ? ? ? ? ?].
    assert (R = L') by lia. now subst.
  - destruct (Z.ltb_spec L R) as [HLR|HLR].
    2:{ inversion Hp; subst. destruct Hinv as [Hb ? ? ? ? ? ?].
        assert (R = L') by lia. now subst. }
    pose proof (pi_bounds _ _ _ _ _ _ _ _ Hinv) as Hb.
    destruct (scan_down_spec (Z.to_nat (R - L)) arr piv L R ltac:(lia) ltac:(lia))
      as (H1 & H2 & H3).
    set (R1 := scan_down (Z.to_nat (R - L)) arr piv L R) in *.
    assert (Hinv1 : part_inv orig b e piv arr L R1 L).
    { apply (part_inv_shrink _ L R L); auto; intros; lia. }
    destruct (Z.ltb_spec L R1) as [HLR1|HLR1].
    + assert (Hlt : get arr R1 < piv) by (destruct H3; [lia | assumption]).
      pose proof (part_inv_move_up _ _ _ Hinv1 HLR1 Hlt) as Hinv2.
      set (arr1 := set arr L (get arr R1)) in *.
      destruct (scan_up_spec (Z.to_nat (R1 - (L + 1))) arr1 piv (L + 1) R1
                             ltac:(lia) ltac:(lia)) as (G1 & G2 & G3).
      set (L2 := scan_up (Z.to_nat (R1 - (L + 1))) arr1 piv (L + 1) R1) in *.
      assert (Hinv3 : part_inv orig b e piv arr1 L2 R1 R1).
      { apply (part_inv_shrink _ (L + 1) R1 R1); auto; intros; lia. }
      destruct (Z.ltb_spec L2 R1) as [HL2|HL2].
      * assert (Hgt : piv < get arr1 L2) by (destruct G3; [lia | assumption]).
        apply (IH _ _ _ (part_inv_move_down _ _ _ Hinv3 HL2 Hgt)); auto.
        lia.
      * assert (E : R1 = L2) by lia.
        apply (IH arr1 L2 R1); auto; try lia.
        rewrite E in Hinv3 |- *. exact Hinv3.
    + assert (R1 = L) by lia.
      replace (Z.to_nat (R1 - L)) with O in Hp by lia. simpl in Hp.
      destruct (Z.ltb_spec L R1); try lia.
      apply (IH arr L R1); auto; lia.
Qed.

End Partition.

Lemma qs_measure_pos n stack :
  Forall (seg_ok n) stack -> stack <> [] -> 0 < qs_measure stack.
Proof.
  induction 1 as [|s rest Hs Hrest IH]; intros Hne; [congruence|].
  cbn [qs_measure]. destruct Hs as [Hs _].
  destruct rest as [|t rest']; [cbn [qs_measure]; lia|].
  assert (0 < qs_measure (t :: rest')) by (apply IH; congruence).
  lia.
Qed.

Lemma qs_inv_init arr : qs_inv arr arr [(0, len arr)].
Proof.
  pose proof (len_nonneg arr).
  constructor; auto.
  - constructor; [|constructor]. unfold seg_ok; simpl. lia.
  - constructor; constructor.
  - intros i j Hij Hj Hs. exfalso. apply (Hs (0, len arr)); [now left|].
    unfold in_seg; simpl. lia.
Qed.

Lemma qs_inv_pop orig arr b e rest :
  qs_inv orig arr ((b, e) :: rest) -> e - 1 <= b -> qs_inv orig arr rest.
Proof.
  intros [Hl Hocc Hsegs Hdisj Hord] Hbe.
  constructor; auto.
  - now inversion Hsegs.
  - now inversion Hdisj.
  - intros i j Hij Hj Hs. apply Hord; auto.
    intros s [<-|Hin]; [unfold in_seg; simpl; lia | auto].
Qed.

Lemma qs_inv_partition orig arr b e rest arr1 L1 s t :
  qs_inv orig arr ((b, e) :: rest) -> b < e - 1 ->
  part_inv arr b e (get arr b) arr1 L1 L1 L1 ->
  (s = (b, L1) /\ t = (L1 + 1, e)) \/ (s = (L1 + 1, e) /\ t = (b, L1)) ->
  qs_inv orig (set arr1 L1 (get arr b)) (s :: t :: rest).
Proof.
  intros [Hl Hocc Hsegs Hdisj Hord] Hbe [Hb Hl1 Hout Hlow Hhigh Hocc1 Hfrom] Hst.
  inversion Hsegs as [|? ? [Hs1 Hs2] Hsegs']; subst. simpl in Hs1, Hs2.
  inversion Hdisj as [|? ? Hd Hdisj']; subst.
  assert (Hsub : forall u, In u rest ->
                 seg_disjoint (b, L1) u /\ seg_disjoint (L1 + 1, e) u).
  { intros u Hu. rewrite Forall_forall in Hd. specialize (Hd u Hu).
    split; intros k [Hk1 Hk2]; apply (Hd k); split; auto;
      unfold in_seg in *; simpl in *; lia. }
  assert (Hmid : seg_disjoint (b, L1) (L1 + 1, e) /\ seg_disjoint (L1 + 1, e) (b, L1)).
  { split; intros k [Hk1 Hk2]; unfold in_seg in *; simpl in *; lia. }
  assert (Hin : In (b, L1) (s :: t :: rest) /\ In (L1 + 1, e) (s :: t :: rest)).
  { destruct Hst as [[-> ->]|[-> ->]]; simpl; auto. }
  constructor.
  - rewrite len_set. congruence.
  - intros z. rewrite Hocc1. apply Hocc.
  - assert (seg_ok (len orig) (b, L1) /\ seg_ok (len orig) (L1 + 1, e)) as [H1 H2]
        by (unfold seg_ok; simpl; lia).
    destruct Hst as [[-> ->]|[-> ->]]; constructor; auto.
  - assert (Forall (seg_disjoint (b, L1)) rest /\
            Forall (seg_disjoint (L1 + 1, e)) rest) as [H1 H2]
        by (split; apply Forall_forall; intros u Hu; apply Hsub; auto).
    destruct Hmid.
    destruct Hst as [[-> ->]|[-> ->]];
      (constructor; [constructor; auto | constructor; auto]).
  - intros i j Hij Hj Hs.
    assert (Hget : forall k, k <> L1 -> get (set arr1 L1 (get arr b)) k = get arr1 k)
      by (intros k Hk; apply get_set_other; lia).
    assert (Hpiv : get (set arr1 L1 (get arr b)) L1 = get arr b)
      by (apply get_set_same; lia).
    assert (Hval : forall k, b <= k < e ->
                   exists k', b <= k' < e /\ get (set arr1 L1 (get arr b)) k = get arr k').
    { intros k Hk. destruct (Z.eq_dec k L1) as [->|Hne].
      - exists b. split; [lia | auto].
      - rewrite Hget by auto. auto. }
    assert (Hrest : forall i' j', 0 <= i' < j' -> j' < len orig ->
                    ~ (b <= i' < e /\ b <= j' < e) ->
                    (b <= i' < e \/ b <= j' < e \/
                     forall u, In u rest -> ~ (in_seg u i' /\ in_seg u j')) ->
                    get arr i' <= get arr j').
    { intros i' j' Hij' Hj' Hnot Hi1. apply Hord; auto.
      intros u [<-|Hu]; [unfold in_seg; simpl; lia|].
      rewrite Forall_forall in Hd. specialize (Hd u Hu).
      intros [Hu1 Hu2].
      destruct Hi1 as [Hi1|[Hi1|Hi1]].
      - apply (Hd i'). split; [unfold in_seg; simpl; lia | exact Hu1].
      - apply (Hd j'). split; [unfold in_seg; simpl; lia | exact Hu2].
      - apply (Hi1 u Hu). tauto. }
    assert (Hkeep : forall u, In u rest -> ~ (in_seg u i /\ in_seg u j))
      by (intros u Hu; apply Hs; simpl; auto).
    destruct (Z.lt_ge_cases i b) as [Hib|Hib];
      [|destruct (Z.lt_ge_cases i e) as [Hie|Hie]];
      (destruct (Z.lt_ge_cases j b) as [Hjb|Hjb];
       [|destruct (Z.lt_ge_cases j e) as [Hje|Hje]]); try lia.
    + (* both below the segment *)
      rewrite !Hget, !Hout by lia. apply Hrest; auto; lia.
    + (* i below, j inside *)
      destruct (Hval j ltac:(lia)) as (j' & Hj' & ->).
      rewrite Hget, Hout by lia. apply Hrest; lia.
    + (* i below, j above *)
      rewrite !Hget, !Hout by lia. apply Hrest; auto; lia.
    + (* both inside *)
      destruct Hin as [Hin1 Hin2].
      pose proof (Hs _ Hin1) as Hn1. pose proof (Hs _ Hin2) as Hn2.
      unfold in_seg in Hn1, Hn2; simpl in Hn1, Hn2.
      destruct (Z.eq_dec i L1) as [->|Hi1]; destruct (Z.eq_dec j L1) as [->|Hj1];
        try lia.
      * rewrite Hpiv, Hget by auto. apply Hhigh. lia.
      * rewrite Hpiv, Hget by auto. apply Hlow. lia.
      * rewrite !Hget by auto.
        assert (i < L1 < j) by lia.
        transitivity (get arr b); [apply Hlow | apply Hhigh]; lia.
    + (* i inside, j above *)
      destruct (Hval i ltac:(lia)) as (i' & Hi' & ->).
      rewrite Hget, Hout by lia. apply Hrest; lia.
    + (* both above *)
      rewrite !Hget, !Hout by lia. apply Hrest; auto; lia.
Qed.

Lemma qs_step_inv orig arr stack st' :
  qs_inv orig arr stack -> qs_step (arr, stack) = Some st' ->
  qs_inv orig (fst st') (snd st') /\ qs_measure (snd st') < qs_measure stack.
Proof.
  intros Hinv Hstep. unfold qs_step in Hstep.
  destruct stack as [|[b e] rest]; [discriminate|].
  destruct (Z.ltb_spec b (e - 1)) as [Hbe|Hbe].
  2:{ inversion Hstep; subst; simpl. split; [eapply qs_inv_pop; eauto | ].
      pose proof (qi_segs _ _ _ Hinv) as Hs. inversion Hs as [|? ? [H1 H2] ?]; subst.
      simpl in *. lia. }
  destruct (partition (Z.to_nat (e - 1 - b)) arr (get arr b) b (e - 1))
    as [arr1 L1] eqn:Hp.
  pose proof (qi_segs _ _ _ Hinv) as Hs. inversion Hs as [|? ? [H1 H2] ?]; subst.
  simpl in H1, H2.
  assert (Hpart : part_inv arr b e (get arr b) arr1 L1 L1 L1).
  { refine (partition_spec arr b e (get arr b) _ arr b (e - 1) _ _ _ _ Hp);
      [|lia].
    pose proof (qi_len _ _ _ Hinv) as Hlen.
    constructor; auto; try lia.
    - intros z. apply occ_set_same. lia.
    - intros k Hk. exists k. auto. }
  pose proof (pi_bounds _ _ _ _ _ _ _ _ Hpart) as Hb.
  simpl in Hstep.
  destruct (Z.gtb_spec (e - (L1 + 1)) (L1 - b)); inversion Hstep; subst; simpl;
    (split; [eapply qs_inv_partition; eauto | lia]).
Qed.

Lemma qs_loop_inv orig fuel arr stack :
  qs_inv orig arr stack -> qs_measure stack <= Z.of_nat fuel ->
  qs_inv orig (qs_loop fuel (arr, stack)) [].
Proof.
  revert arr stack. induction fuel as [|f IH]; intros arr stack Hinv Hm.
  - destruct stack as [|s rest]; [exact Hinv|].
    pose proof (qs_measure_pos _ _ (qi_segs _ _ _ Hinv) ltac:(congruence)). lia.
  - cbn [qs_loop]. destruct (qs_step (arr, stack)) as [[arr' stack']|] eqn:Hstep.
    + destruct (qs_step_inv _ _ _ _ Hinv Hstep) as [Hinv' Hlt]. simpl in *.
      apply IH; auto. lia.
    + destruct stack as [|[b e] rest]; [exact Hinv|].
      unfold qs_step in Hstep.
      destruct (b <? e - 1); [|discriminate].
      destruct (partition (Z.to_nat (e - 1 - b)) arr (get arr b) b (e - 1)).
      destruct (snd (z + 1, e) - fst (z + 1, e) >? snd (b, z) - fst (b, z));
        discriminate.
Qed.

Lemma qs_loop_S f st :
  qs_loop (S f) st =
  match qs_step st with None => fst st | Some st' => qs_loop f st' end.
Proof. reflexivity. Qed.

Lemma qs_run_S k st :
  qs_run (S k) st =
  match qs_step st with None => None | Some st' => qs_run k st' end.
Proof. reflexivity. Qed.

(** The fuel of [quicksort] is enough: the outer loop is left, with
    [i < 0], after at most that many iterations, and the array it has then
    is the result. *)
Lemma qs_loop_exits orig fuel :
  forall arr stack,
  qs_inv orig arr stack -> qs_measure stack <= Z.of_nat fuel ->
  exists k, (k <= fuel)%nat /\
            qs_run k (arr, stack) = Some (qs_loop fuel (arr, stack), []).
Proof.
  induction fuel as [|f IH]; intros arr stack Hinv Hm.
  - destruct stack as [|s rest]; [exists O; auto|].
    pose proof (qs_measure_pos _ _ (qi_segs _ _ _ Hinv) ltac:(congruence)). lia.
  - destruct stack as [|s rest]; [exists O; split; [lia | reflexivity]|].
    destruct (qs_step (arr, s :: rest)) as [[arr' stack']|] eqn:Hstep.
    + destruct (qs_step_inv _ _ _ _ Hinv Hstep) as [Hinv' Hlt].
      cbn [fst snd] in Hinv', Hlt. rewrite qs_loop_S.
      destruct (IH arr' stack' Hinv' ltac:(lia)) as (k & Hk & Hrun).
      exists (S k). split; [lia|]. rewrite qs_run_S.
      assert (Hrun' : match qs_step (arr, s :: rest) with
                      | Some st' => qs_run k st'
                      | None => None
                      end = Some (qs_loop f (arr', stack'), []))
        by (rewrite Hstep; exact Hrun).
      assert (Hloop : match qs_step (arr, s :: rest) with
                      | Some st' => qs_loop f st'
                      | None => fst (arr, s :: rest)
                      end = qs_loop f (arr', stack'))
        by (rewrite Hstep; reflexivity).
      etransitivity; [exact Hrun'|]. f_equal. f_equal. symmetry. exact Hloop.
    + exfalso. destruct s as [b e]. unfold qs_step in Hstep.
      destruct (b <? e - 1); [|discriminate].
      destruct (partition (Z.to_nat (e - 1 - b)) arr (get arr b) b (e - 1)).
      destruct (snd (z + 1, e) - fst (z + 1, e) >? snd (b, z) - fst (b, z));
        discriminate.
Qed.

Lemma quicksort_exits arr :
  exists k, qs_run k (arr, [(0, len arr)]) = Some (quicksort arr (len arr), []).
Proof.
  destruct (qs_loop_exits arr (Z.to_nat (2 * len arr + 1)) arr [(0, len arr)])
    as (k & _ & Hrun).
  - apply qs_inv_init.
  - cbn [qs_measure fst snd]. pose proof (len_nonneg arr). lia.
  - exists k. exact Hrun.
Qed.

(** [quicksort(arr, n)] on an array of [n] entries: the same elements, in
    ascending order. *)
Lemma quicksort_perm arr : Permutation (quicksort arr (len arr)) arr.
Proof.
  apply occ_perm. apply qi_occ with (stack := []).
  apply qs_loop_inv; [apply qs_inv_init|]. simpl. pose proof (len_nonneg arr). lia.
Qed.

Lemma quicksort_len arr : len (quicksort arr (len arr)) = len arr.
Proof.
  unfold len at 1 3. now rewrite (Permutation_length (quicksort_perm arr)).
Qed.

Lemma quicksort_ordered arr i j :
  0 <= i < j -> j < len arr ->
  get (quicksort arr (len arr)) i <= get (quicksort arr (len arr)) j.
Proof.
  intros Hij Hj.
  apply qi_ord with (orig := arr) (stack := []); auto.
  apply qs_loop_inv; [apply qs_inv_init|]. simpl. pose proof (len_nonneg arr). lia.
Qed.

(** ** The edge sets *)

Lemma existsb_get_range arr v :
  existsb (fun k => get arr k =? v) (range 0 (len arr)) = true <-> In v arr.
Proof.
  rewrite existsb_exists. split.
  - intros (k & Hk & Hv). apply In_range in Hk. apply Z.eqb_eq in Hv.
    subst v. now apply get_In.
  - intros Hin. destruct (In_get _ _ Hin) as (k & Hk & Hv).
    exists k. split; [apply In_range; lia | now apply Z.eqb_eq].
Qed.

Lemma set_add_In arr v z : In z (fst (set_add arr v)) <-> In z arr \/ z = v.
Proof.
  unfold set_add.
  destruct (existsb _ _) eqn:Hex; simpl.
  - apply existsb_get_range in Hex. split; [tauto|]. intros [H| ->]; auto.
  - rewrite in_app_iff. simpl. intuition.
Qed.

Lemma set_add_NoDup arr v : NoDup arr -> NoDup (fst (set_add arr v)).
Proof.
  intros Hnd. unfold set_add.
  destruct (existsb _ _) eqn:Hex; simpl; auto.
  assert (Hnin : ~ In v arr).
  { intros Hin. apply existsb_get_range in Hin. congruence. }
  apply (Permutation_NoDup (Permutation_cons_append arr v)).
  now constructor.
Qed.

Lemma add_edges_In e r z :
  (In z (fst (add_edges e r)) <-> In z (fst e) \/ x_edge_of r z) /\
  (In z (snd (add_edges e r)) <-> In z (snd e) \/ y_edge_of r z).
Proof.
  destruct e as [e0 e1]. unfold add_edges, x_edge_of, y_edge_of. simpl.
  rewrite !set_add_In. tauto.
Qed.

Lemma add_edges_NoDup e r :
  NoDup (fst e) /\ NoDup (snd e) ->
  NoDup (fst (add_edges e r)) /\ NoDup (snd (add_edges e r)).
Proof.
  destruct e as [e0 e1]. unfold add_edges. simpl. intros [H0 H1].
  split; auto using set_add_NoDup.
Qed.

Lemma fold_add_edges_In rects e z :
  (In z (fst (fold_left add_edges rects e)) <->
   In z (fst e) \/ exists r, In r rects /\ x_edge_of r z) /\
  (In z (snd (fold_left add_edges rects e)) <->
   In z (snd e) \/ exists r, In r rects /\ y_edge_of r z).
Proof.
  revert e. induction rects as [|r t IH]; intros e; simpl.
  - split; (split; [tauto|]); intros [H|(r & [] & _)]; auto.
  - destruct (IH (add_edges e r)) as [IH0 IH1].
    destruct (add_edges_In e r z) as [A0 A1].
    rewrite IH0, IH1, A0, A1. clear.
    split; (split; [intros [[H|H]|(r' & H & H')]; eauto
                   | intros [H|(r' & [<-|H] & H')]; eauto]).
Qed.

Lemma fold_add_edges_NoDup rects e :
  NoDup (fst e) /\ NoDup (snd e) ->
  NoDup (fst (fold_left add_edges rects e)) /\
  NoDup (snd (fold_left add_edges rects e)).
Proof.
  revert e. induction rects as [|r t IH]; intros e He; simpl; auto.
  apply IH. now apply add_edges_NoDup.
Qed.

Lemma get_edges_In add rm z :
  (In z (fst (get_edges add rm)) <-> exists r, In r (add ++ rm) /\ x_edge_of r z) /\
  (In z (snd (get_edges add rm)) <-> exists r, In r (add ++ rm) /\ y_edge_of r z).
Proof.
  unfold get_edges. simpl.
  destruct (fold_add_edges_In rm (fold_left add_edges add ([], [])) z) as [H0 H1].
  destruct (fold_add_edges_In add ([], []) z) as [G0 G1].
  rewrite H0, H1, G0, G1. simpl. clear.
  split; (split;
    [ intros [[[]|(r & H & H')]|(r & H & H')]; exists r; rewrite in_app_iff; auto
    | intros (r & H & H'); apply in_app_iff in H; destruct H; eauto ]).
Qed.

Lemma get_edges_NoDup add rm :
  NoDup (fst (get_edges add rm)) /\ NoDup (snd (get_edges add rm)).
Proof.
  unfold get_edges. simpl. apply fold_add_edges_NoDup, fold_add_edges_NoDup.
  simpl. split; constructor.
Qed.

Lemma NoDup_get a i j :
  NoDup a -> 0 <= i < len a -> 0 <= j < len a -> get a i = get a j -> i = j.
Proof.
  unfold get, len. intros Hnd Hi Hj Heq.
  destruct (Z.ltb_spec i 0), (Z.ltb_spec j 0); try lia.
  rewrite NoDup_nth in Hnd.
  specialize (Hnd (Z.to_nat i) (Z.to_nat j) ltac:(lia) ltac:(lia) Heq). lia.
Qed.

Lemma quicksort_ascending a : NoDup a -> ascending (quicksort a (len a)).
Proof.
  intros Hnd i j Hij Hj. rewrite quicksort_len in Hj.
  pose proof (quicksort_ordered a i j Hij Hj) as Hle.
  assert (Hnd' : NoDup (quicksort a (len a))).
  { eapply Permutation_NoDup; [|exact Hnd]. symmetry. apply quicksort_perm. }
  assert (get (quicksort a (len a)) i <> get (quicksort a (len a)) j).
  { intros Heq. apply NoDup_get in Heq; auto; try rewrite quicksort_len; lia. }
  lia.
Qed.

Lemma ascending_le a i j :
  ascending a -> 0 <= i <= j -> j < len a -> get a i <= get a j.
Proof.
  intros Ha Hij Hj. destruct (Z.eq_dec i j) as [->|Hne]; [lia|].
  specialize (Ha i j ltac:(lia) Hj). lia.
Qed.

Lemma ascending_lt_inv a i j :
  ascending a -> 0 <= i < len a -> 0 <= j < len a -> get a i < get a j -> i < j.
Proof.
  intros Ha Hi Hj Hlt. destruct (Z.lt_ge_cases i j) as [|Hge]; auto.
  pose proof (ascending_le a j i Ha ltac:(lia) ltac:(lia)). lia.
Qed.

Lemma ascending_le_inv a i j :
  ascending a -> 0 <= i < len a -> 0 <= j < len a -> get a i <= get a j -> i <= j.
Proof.
  intros Ha Hi Hj Hle. destruct (Z.le_gt_cases i j) as [|Hgt]; auto.
  specialize (Ha j i ltac:(lia) ltac:(lia)). lia.
Qed.

Lemma ascending_inj a i j :
  ascending a -> 0 <= i < len a -> 0 <= j < len a -> get a i = get a j -> i = j.
Proof.
  intros Ha Hi Hj Heq.
  pose proof (ascending_le_inv a i j Ha Hi Hj ltac:(lia)).
  pose proof (ascending_le_inv a j i Ha Hj Hi ltac:(lia)). lia.
Qed.

Lemma edges_of_ascending add rm :
  ascending (fst (edges_of add rm)) /\ ascending (snd (edges_of add rm)).
Proof.
  destruct (get_edges_NoDup add rm).
  unfold edges_of, sort_edges; simpl. split; now apply quicksort_ascending.
Qed.

Lemma edges_of_In add rm z :
  (In z (fst (edges_of add rm)) <-> exists r, In r (add ++ rm) /\ x_edge_of r z) /\
  (In z (snd (edges_of add rm)) <-> exists r, In r (add ++ rm) /\ y_edge_of r z).
Proof.
  destruct (get_edges_In add rm z) as [H0 H1].
  rewrite <- H0, <- H1. unfold edges_of, sort_edges; simpl.
  split; split; apply Permutation_in;
    try apply quicksort_perm; symmetry; apply quicksort_perm.
Qed.

(** ** [find] on an ascending array *)

Lemma find_first arr n v i k :
  i <= k < n -> get arr k = v ->
  (forall j, i <= j < k -> get arr j <> v) ->
  find arr n v i = k.
Proof.
  intros Hk Hv Hfirst. unfold find.
  rewrite (range_app i k n) by lia.
  rewrite (range_cons k n) by lia.
  assert (Hnone : forall l, (forall j, In j l -> get arr j <> v) ->
                  forall l', List.find (fun k => get arr k =? v) (l ++ l') =
                             List.find (fun k => get arr k =? v) l').
  { induction l as [|c l IH]; intros Hl l'; simpl; auto.
    destruct (Z.eqb_spec (get arr c) v) as [Heq|Hne].
    - exfalso. apply (Hl c); simpl; auto.
    - apply IH. intros j Hj. apply Hl. simpl; auto. }
  rewrite Hnone.
  - simpl. rewrite Hv, Z.eqb_refl. reflexivity.
  - intros j Hj. apply In_range in Hj. auto.
Qed.

Lemma find_ascending a v i k :
  ascending a -> 0 <= i <= k -> k < len a -> get a k = v ->
  find a (len a) v i = k.
Proof.
  intros Ha Hik Hk Hv. apply find_first; auto; try lia.
  intros j Hj Heq. rewrite <- Hv in Heq.
  apply ascending_inj in Heq; auto; lia.
Qed.

(** ** The grid *)

Lemma grid_is_ext cols rows grid F G :
  grid_is cols rows grid F ->
  (forall k l, 0 <= k < rows -> 0 <= l < cols -> F k l = G k l) ->
  grid_is cols rows grid G.
Proof.
  intros [Hl Hg] Hext. split; auto. intros k l Hk Hl'. rewrite Hg; auto.
Qed.

Lemma cell_index_bounds cols rows k l :
  0 <= k < rows -> 0 <= l < cols -> 0 <= cols * k + l < cols * rows.
Proof. intros Hk Hl. nia. Qed.

Lemma cell_index_inj cols k l k' l' :
  0 <= l < cols -> 0 <= l' < cols -> cols * k + l = cols * k' + l' ->
  k = k' /\ l = l'.
Proof.
  intros Hl Hl' Heq.
  assert (k = k'); [|subst; lia].
  destruct (Z.lt_trichotomy k k') as [H|[H|H]]; auto; exfalso.
  - assert (cols * (k + 1) <= cols * k') by (apply Z.mul_le_mono_nonneg_l; lia).
    lia.
  - assert (cols * (k' + 1) <= cols * k) by (apply Z.mul_le_mono_nonneg_l; lia).
    lia.
Qed.

Lemma lor_twice v bit : Z.lor (Z.lor v bit) bit = Z.lor v bit.
Proof. now rewrite <- Z.lor_assoc, Z.lor_diag. Qed.

Lemma mark_cell_spec n0 rows bit grid F k l :
  grid_is (n0 - 1) rows grid F -> 0 <= k < rows -> 0 <= l < n0 - 1 ->
  grid_is (n0 - 1) rows (mark_cell n0 bit k grid l)
          (fun k' l' => if (k' =? k) && (l' =? l)
                        then Z.lor (F k' l') bit else F k' l').
Proof.
  intros [Hlen Hg] Hk Hl. unfold mark_cell.
  pose proof (cell_index_bounds (n0 - 1) rows k l Hk Hl) as Hc.
  split; [now rewrite len_set|].
  intros k' l' Hk' Hl'.
  destruct (Z.eqb_spec k' k) as [->|Hne]; [destruct (Z.eqb_spec l' l) as [->|Hne]|];
    simpl.
  - rewrite get_set_same, Hg by lia. reflexivity.
  - rewrite get_set_other, Hg; auto. intros Heq.
    apply cell_index_inj in Heq; auto; lia.
  - rewrite get_set_other, Hg; auto. intros Heq.
    apply cell_index_inj in Heq; auto; lia.
Qed.

Lemma mark_row_spec n0 rows bit k ls :
  0 <= k < rows -> (forall l, In l ls -> 0 <= l < n0 - 1) ->
  forall grid F, grid_is (n0 - 1) rows grid F ->
  grid_is (n0 - 1) rows (fold_left (mark_cell n0 bit k) ls grid)
          (fun k' l' => if (k' =? k) && existsb (Z.eqb l') ls
                        then Z.lor (F k' l') bit else F k' l').
Proof.
  intros Hk. induction ls as [|l t IH]; intros Hls grid F Hg; simpl.
  - eapply grid_is_ext; [exact Hg|]. intros k' l' _ _.
    now rewrite andb_false_r.
  - eapply grid_is_ext.
    + apply IH; [intros l' Hl'; apply Hls; simpl; auto|].
      apply mark_cell_spec; [exact Hg | exact Hk | apply Hls; simpl; auto].
    + intros k' l' _ _. simpl.
      destruct (k' =? k), (l' =? l), (existsb (Z.eqb l') t); simpl;
        auto using lor_twice.
Qed.

Lemma mark_rows_spec n0 rows bit ks ls :
  (forall k, In k ks -> 0 <= k < rows) -> (forall l, In l ls -> 0 <= l < n0 - 1) ->
  forall grid F, grid_is (n0 - 1) rows grid F ->
  grid_is (n0 - 1) rows
          (fold_left (fun g k => fold_left (mark_cell n0 bit k) ls g) ks grid)
          (fun k' l' => if existsb (Z.eqb k') ks && existsb (Z.eqb l') ls
                        then Z.lor (F k' l') bit else F k' l').
Proof.
  intros Hks Hls. induction ks as [|k t IH]; intros grid F Hg; simpl.
  - exact Hg.
  - eapply grid_is_ext.
    + apply IH; [intros k' Hk'; apply Hks; simpl; auto|].
      apply mark_row_spec; [apply Hks; simpl; auto | exact Hls | exact Hg].
    + intros k' l' _ _. simpl.
      destruct (k' =? k), (existsb (Z.eqb k') t), (existsb (Z.eqb l') ls); simpl;
        auto using lor_twice.
Qed.

Lemma existsb_range lo hi k :
  existsb (Z.eqb k) (range lo hi) = (lo <=? k) && (k <? hi).
Proof.
  apply eq_true_iff_eq. rewrite existsb_exists, andb_true_iff.
  rewrite Z.leb_le, Z.ltb_lt. split.
  - intros (j & Hj & Heq). apply In_range in Hj. apply Z.eqb_eq in Heq. lia.
  - intros Hk. exists k. rewrite In_range, Z.eqb_eq. auto with zarith.
Qed.

Lemma box_range a lo hi ia ib k :
  ascending a -> 0 <= ia < len a -> 0 <= ib < len a ->
  get a ia = lo -> get a ib = hi -> 0 <= k < len a - 1 ->
  (ia <=? k) && (k <? ib) = (lo <=? get a k) && (get a (k + 1) <=? hi).
Proof.
  intros Ha Hia Hib <- <- Hk. apply eq_true_iff_eq.
  rewrite !andb_true_iff, !Z.leb_le, Z.ltb_lt. split.
  - intros [H1 H2]. split; apply ascending_le; auto; lia.
  - intros [H1 H2]. apply ascending_le_inv in H1, H2; auto; lia.
Qed.

Lemma mark_rect_spec e bit grid F r :
  ascending (fst e) -> ascending (snd e) -> edges_hold e r ->
  grid_is (len (fst e) - 1) (len (snd e) - 1) grid F ->
  grid_is (len (fst e) - 1) (len (snd e) - 1) (mark_rect e bit grid r)
          (fun k l => if coversb e r k l then Z.lor (F k l) bit else F k l).
Proof.
  intros Hx Hy [Hex Hey] Hg. unfold mark_rect.
  destruct (Z.gtb_spec (w r) 0) as [Hw|Hw]; simpl.
  2:{ eapply grid_is_ext; [exact Hg|]. intros k l _ _. unfold coversb.
      destruct (Z.gtb_spec (w r) 0); [lia | reflexivity]. }
  destruct (Z.gtb_spec (h r) 0) as [Hh|Hh]; simpl.
  2:{ eapply grid_is_ext; [exact Hg|]. intros k l _ _. unfold coversb.
      destruct (Z.gtb_spec (h r) 0); [lia | now rewrite andb_false_r]. }
  destruct (In_get _ _ (Hex (x r) (or_introl eq_refl))) as (c0 & Hc0 & Ec0).
  destruct (In_get _ _ (Hex (x r + w r) (or_intror eq_refl))) as (c1 & Hc1 & Ec1).
  destruct (In_get _ _ (Hey (y r) (or_introl eq_refl))) as (r0 & Hr0 & Er0).
  destruct (In_get _ _ (Hey (y r + h r) (or_intror eq_refl))) as (r1 & Hr1 & Er1).
  assert (c0 < c1) by (apply (ascending_lt_inv (fst e)); auto; lia).
  assert (r0 < r1) by (apply (ascending_lt_inv (snd e)); auto; lia).
  rewrite (find_ascending (snd e) (y r) 0 r0) by (auto; lia).
  rewrite (find_ascending (snd e) (y r + h r) r0 r1) by (auto; lia).
  rewrite (find_ascending (fst e) (x r) 0 c0) by (auto; lia).
  rewrite (find_ascending (fst e) (x r + w r) c0 c1) by (auto; lia).
  eapply grid_is_ext.
  - apply mark_rows_spec; [| |exact Hg]; intros k Hk; apply In_range in Hk; lia.
  - intros k l Hk Hl. cbv beta. rewrite !existsb_range.
    rewrite (box_range (snd e) (y r) (y r + h r) r0 r1 k); auto.
    rewrite (box_range (fst e) (x r) (x r + w r) c0 c1 l); auto.
    unfold coversb.
    destruct (Z.gtb_spec (w r) 0); try lia. destruct (Z.gtb_spec (h r) 0); try lia.
    simpl.
    destruct (y r <=? get (snd e) k), (get (snd e) (k + 1) <=? y r + h r),
      (x r <=? get (fst e) l), (get (fst e) (l + 1) <=? x r + w r); reflexivity.
Qed.

Lemma fold_mark_rect_spec e bit rects :
  ascending (fst e) -> ascending (snd e) ->
  (forall r, In r rects -> edges_hold e r) ->
  forall grid F,
  grid_is (len (fst e) - 1) (len (snd e) - 1) grid F ->
  grid_is (len (fst e) - 1) (len (snd e) - 1) (fold_left (mark_rect e bit) rects grid)
          (fun k l => if existsb (fun r => coversb e r k l) rects
                      then Z.lor (F k l) bit else F k l).
Proof.
  intros Hx Hy. induction rects as [|r t IH]; intros Hin grid F Hg; simpl.
  - exact Hg.
  - eapply grid_is_ext.
    + apply IH; [intros r' Hr'; apply Hin; simpl; auto|].
      apply mark_rect_spec; [auto | auto | apply Hin; simpl; auto | exact Hg].
    + intros k l _ _. simpl.
      destruct (coversb e r k l), (existsb (fun r0 => coversb e r0 k l) t); simpl;
        auto using lor_twice.
Qed.

Lemma get_repeat_0 n i : get (repeat 0 n) i = 0.
Proof.
  unfold get. destruct (i <? 0); auto.
  generalize (Z.to_nat i) as m. induction n as [|n IH]; intros [|m]; simpl; auto.
Qed.

Lemma mk_grid_spec e add rm :
  ascending (fst e) -> ascending (snd e) ->
  (forall r, In r (add ++ rm) -> edges_hold e r) ->
  grid_is (len (fst e) - 1) (len (snd e) - 1) (mk_grid e add rm)
          (fun k l => flag (existsb (fun r => coversb e r k l) add)
                           (existsb (fun r => coversb e r k l) rm)).
Proof.
  intros Hx Hy Hin. unfold mk_grid.
  eapply grid_is_ext.
  - apply fold_mark_rect_spec; auto.
    { intros r Hr. apply Hin, in_or_app. now right. }
    apply fold_mark_rect_spec; auto.
    { intros r Hr. apply Hin, in_or_app. now left. }
    instantiate (1 := fun _ _ => 0). split.
    + unfold len. now rewrite repeat_length.
    + intros k l _ _. apply get_repeat_0.
  - intros k l _ _. cbv beta.
    destruct (existsb (fun r => coversb e r k l) add),
      (existsb (fun r => coversb e r k l) rm); reflexivity.
Qed.

Lemma edges_of_hold add rm r :
  In r (add ++ rm) -> edges_hold (edges_of add rm) r.
Proof.
  intros Hr. split; intros z Hz; apply (edges_of_In add rm z); eauto.
Qed.

(** ** The scan: rows of maximal runs *)

Lemma scan_cells_runs e grid i cols :
  forall s open, open_is e i s open ->
  rs (flush e (fold_left (scan_cell e grid i) cols s)) =
  rs s ++ map (run_rect e i)
              (runs_from (add_only e grid i) cols (len (fst e) - 1) open) /\
  (in_rect (fold_left (scan_cell e grid i) cols s) = true ->
   r_i (fold_left (scan_cell e grid i) cols s) = i).
Proof.
  induction cols as [|j t IH]; intros s open Hopen.
  - simpl. unfold flush.
    destruct open as [c0|]; simpl in Hopen.
    + destruct Hopen as (Hin & Hri & Hleft). rewrite Hin. simpl.
      unfold run_rect. simpl. rewrite Hri, Hleft. auto.
    + rewrite Hopen. rewrite app_nil_r. split; [auto | discriminate].
  - cbn [fold_left runs_from].
    assert (Hsame : (in_rect s && negb (i =? r_i s)) = false).
    { destruct open as [c0|]; simpl in Hopen.
      - destruct Hopen as (Hin & Hri & _). rewrite Hin, Hri, Z.eqb_refl. reflexivity.
      - now rewrite Hopen. }
    unfold scan_cell at 2 4 6. rewrite Hsame.
    fold (add_only e grid i j).
    destruct (add_only e grid i j).
    + destruct open as [c0|]; simpl in Hopen.
      * destruct Hopen as (Hin & Hri & Hleft). rewrite Hin. simpl.
        apply (IH s (Some c0)). simpl. auto.
      * rewrite Hopen. simpl.
        destruct (IH (Scan true i (get (fst e) j) (rs s)) (Some j)) as [H1 H2];
          [simpl; auto|].
        simpl in H1. auto.
    + destruct open as [c0|]; simpl in Hopen.
      * destruct Hopen as (Hin & Hri & Hleft). rewrite Hin.
        destruct (IH (close_rect e (get (fst e) j) s) None) as [H1 H2];
          [reflexivity|].
        split; [|exact H2]. rewrite H1. simpl.
        rewrite <- app_assoc. simpl. unfold run_rect. simpl.
        rewrite Hri, Hleft. reflexivity.
      * rewrite Hopen. apply (IH s None). exact Hopen.
Qed.

Lemma flush_flush e s : flush e (flush e s) = flush e s.
Proof. unfold flush. destruct (in_rect s) eqn:E; simpl; auto. now rewrite E. Qed.

(** A whole row, entered from the rows above. *)
Lemma scan_row_runs e grid i s :
  (in_rect s = true -> r_i s < i) ->
  let s' := fold_left (scan_cell e grid i) (range 0 (len (fst e) - 1)) s in
  rs (flush e s') = rs (flush e s) ++ row_rects e grid i /\
  (in_rect s' = true -> r_i s' < i + 1).
Proof.
  intros Hs. cbv zeta.
  destruct (Z.lt_ge_cases 0 (len (fst e) - 1)) as [Hpos|Hnone].
  - assert (Hfirst : fold_left (scan_cell e grid i) (range 0 (len (fst e) - 1)) s =
                     fold_left (scan_cell e grid i) (range 0 (len (fst e) - 1))
                               (flush e s)).
    { rewrite range_cons by lia. cbn [fold_left]. f_equal.
      unfold scan_cell, flush. destruct (in_rect s) eqn:Hin; [|now rewrite Hin].
      specialize (Hs eq_refl).
      destruct (Z.eqb_spec i (r_i s)); [lia|]. reflexivity. }
    rewrite Hfirst.
    destruct (scan_cells_runs e grid i (range 0 (len (fst e) - 1)) (flush e s) None)
      as [H1 H2].
    { unfold flush. destruct (in_rect s) eqn:Hin; simpl; auto. }
    split; [exact H1|]. intros Hin. rewrite H2 by exact Hin. lia.
  - rewrite range_nil by lia. simpl. unfold row_rects, row_runs.
    rewrite range_nil by lia. simpl. rewrite app_nil_r.
    split; [reflexivity|]. intros Hin. specialize (Hs Hin). lia.
Qed.

Lemma scan_rows_runs e grid n :
  forall lo s,
  (in_rect s = true -> r_i s < lo) ->
  let s' :=
    fold_left
      (fun s i => fold_left (scan_cell e grid i) (range 0 (len (fst e) - 1)) s)
      (range lo (lo + Z.of_nat n)) s in
  rs (flush e s') =
  rs (flush e s) ++ flat_map (row_rects e grid) (range lo (lo + Z.of_nat n)).
Proof.
  induction n as [|n IH]; intros lo s Hs; cbv zeta.
  - rewrite (range_nil lo) by lia. simpl. now rewrite app_nil_r.
  - rewrite (range_cons lo) by lia. cbn [fold_left flat_map].
    destruct (scan_row_runs e grid lo s Hs) as [H1 H2].
    replace (lo + Z.of_nat (S n)) with (lo + 1 + Z.of_nat n) by lia.
    rewrite (IH (lo + 1) _ H2). rewrite H1. now rewrite app_assoc.
Qed.

(** The scan of the code gives the rows of runs of the specification. *)
Lemma gen_subrects_rows e grid :
  gen_subrects e grid = disjoint_difference_rows e grid.
Proof.
  unfold gen_subrects, disjoint_difference_rows, scan_rows.
  fold (flush e (fold_left
    (fun s i => fold_left (scan_cell e grid i) (range 0 (len (fst e) - 1)) s)
    (range 0 (len (snd e) - 1)) (Scan false 0 0 []))).
  destruct (Z.lt_ge_cases 0 (len (snd e) - 1)) as [Hpos|Hnone].
  - replace (len (snd e) - 1) with (0 + Z.of_nat (Z.to_nat (len (snd e) - 1))) by lia.
    rewrite scan_rows_runs; [reflexivity | discriminate].
  - rewrite (range_nil 0 (len (snd e) - 1)) by lia. reflexivity.
Qed.

(** ** Maximal runs *)

Lemma open_ok_step f j open :
  0 <= j -> open_ok f j open -> f j = true ->
  open_ok f (j + 1) (Some (open_start j open)).
Proof.
  intros Hj Hopen Hf. destruct open as [c0|]; simpl in *.
  - destruct Hopen as (H1 & H2 & H3). repeat split; try lia; auto.
    intros l Hl. destruct (Z.eq_dec l j) as [->|Hne]; auto. apply H2. lia.
  - repeat split; try lia; auto. intros l Hl. now replace l with j by lia.
Qed.

Lemma open_ok_close f j : f j = false -> open_ok f (j + 1) None.
Proof. intros Hf. simpl. right. now replace (j + 1 - 1) with j by lia. Qed.

Lemma runs_from_sound f ncols n :
  forall j open, 0 <= j -> j + Z.of_nat n = ncols -> open_ok f j open ->
  forall c, In c (runs_from f (range j ncols) ncols open) ->
  maximal_run f ncols (fst c) (snd c).
Proof.
  induction n as [|n IH]; intros j open Hj Hn Hopen c Hc.
  - rewrite range_nil in Hc by lia. simpl in Hc.
    destruct open as [c0|]; simpl in *; [|contradiction].
    destruct Hc as [<-|[]]. simpl. destruct Hopen as (H1 & H2 & H3).
    repeat split; try lia; auto. intros l Hl. apply H2. lia.
  - rewrite range_cons in Hc by lia. cbn [runs_from] in Hc.
    destruct (f j) eqn:Hf.
    + apply (IH (j + 1) (Some (open_start j open))); auto; try lia.
      now apply open_ok_step.
    + assert (Hrest : forall c, In c (runs_from f (range (j + 1) ncols) ncols None) ->
                      maximal_run f ncols (fst c) (snd c)).
      { apply IH; try lia. now apply open_ok_close. }
      destruct open as [c0|]; [|now apply Hrest].
      destruct Hc as [<-|Hc]; [|now apply Hrest].
      simpl in *. destruct Hopen as (H1 & H2 & H3).
      repeat split; try lia; auto.
Qed.

Lemma runs_from_sorted f ncols n :
  forall j open, 0 <= j -> j + Z.of_nat n = ncols -> open_start j open <= j ->
  StronglySorted run_before (runs_from f (range j ncols) ncols open) /\
  forall c, In c (runs_from f (range j ncols) ncols open) ->
            open_start j open <= fst c.
Proof.
  induction n as [|n IH]; intros j open Hj Hn Hopen.
  - rewrite range_nil by lia. simpl.
    destruct open as [c0|]; simpl in *.
    + split; [repeat constructor|]. intros c [<-|[]]. simpl. lia.
    + split; [constructor | contradiction].
  - rewrite range_cons by lia. cbn [runs_from].
    destruct (f j) eqn:Hf.
    + destruct (IH (j + 1) (Some (open_start j open)) ltac:(lia) ltac:(lia))
        as [H1 H2]; [simpl; lia|].
      split; [exact H1|]. intros c Hc. apply H2 in Hc. simpl in Hc. exact Hc.
    + destruct (IH (j + 1) None ltac:(lia) ltac:(lia)) as [H1 H2]; [simpl; lia|].
      simpl in H2.
      destruct open as [c0|]; simpl in *.
      * split.
        -- constructor; auto. apply Forall_forall. intros c Hc.
           apply H2 in Hc. unfold run_before. simpl. lia.
        -- intros c [<-|Hc]; [simpl; lia|]. apply H2 in Hc. lia.
      * split; [exact H1|]. intros c Hc. apply H2 in Hc. lia.
Qed.

Lemma runs_from_cover f ncols n :
  forall j open, 0 <= j -> j + Z.of_nat n = ncols -> open_ok f j open ->
  forall l, f l = true -> open_start j open <= l < ncols ->
  exists c, In c (runs_from f (range j ncols) ncols open) /\ fst c <= l < snd c.
Proof.
  induction n as [|n IH]; intros j open Hj Hn Hopen l Hl Hrange.
  - rewrite range_nil by lia. simpl.
    destruct open as [c0|]; simpl in *; [|lia].
    exists (c0, ncols). simpl. split; [auto | lia].
  - rewrite range_cons by lia. cbn [runs_from].
    destruct (f j) eqn:Hf.
    + apply (IH (j + 1) (Some (open_start j open))); auto; try lia.
      now apply open_ok_step.
    + assert (l <> j) by congruence.
      destruct open as [c0|]; simpl in *.
      * destruct (Z.lt_ge_cases l j) as [Hlt|Hge].
        -- exists (c0, j). simpl. split; [auto | lia].
        -- destruct (IH (j + 1) None ltac:(lia) ltac:(lia) (open_ok_close f j Hf)
                        l Hl) as (c & Hc & Hin); [simpl; lia|].
           exists c. simpl. auto.
      * apply (IH (j + 1) None); auto; try lia.
        -- now apply open_ok_close.
        -- simpl. lia.
Qed.

Lemma row_runs_sound f ncols c :
  In c (row_runs f ncols) -> maximal_run f ncols (fst c) (snd c).
Proof.
  unfold row_runs. intros Hc.
  destruct (Z.lt_ge_cases ncols 0) as [Hneg|Hpos].
  - rewrite range_nil in Hc by lia. simpl in Hc. contradiction.
  - apply (runs_from_sound f ncols (Z.to_nat ncols) 0 None); simpl; auto; lia.
Qed.

Lemma row_runs_sorted f ncols : StronglySorted run_before (row_runs f ncols).
Proof.
  unfold row_runs.
  destruct (Z.lt_ge_cases ncols 0) as [Hneg|Hpos].
  - rewrite range_nil by lia. simpl. constructor.
  - apply (runs_from_sorted f ncols (Z.to_nat ncols) 0 None); simpl; lia.
Qed.

Lemma row_runs_cover f ncols l :
  0 <= l < ncols -> f l = true ->
  exists c, In c (row_runs f ncols) /\ fst c <= l < snd c.
Proof.
  intros Hl Hf. unfold row_runs.
  apply (runs_from_cover f ncols (Z.to_nat ncols) 0 None); simpl; auto; lia.
Qed.


(** ** Regions *)

Lemma inside_nonempty r px py : inside r px py -> nonempty_rect r = true.
Proof.
  unfold inside, nonempty_rect. intros [Hx Hy].
  destruct (Z.gtb_spec (w r) 0), (Z.gtb_spec (h r) 0); auto; lia.
Qed.

Lemma nonempty_rect_spec r : nonempty_rect r = true <-> 0 < w r /\ 0 < h r.
Proof.
  unfold nonempty_rect. rewrite andb_true_iff.
  destruct (Z.gtb_spec (w r) 0), (Z.gtb_spec (h r) 0); intuition (try lia; try discriminate).
Qed.

Lemma covered_filter_nonempty l px py :
  covered (filter nonempty_rect l) px py <-> covered l px py.
Proof.
  unfold covered. split.
  - intros (r & Hr & Hin). apply filter_In in Hr. exists r. tauto.
  - intros (r & Hr & Hin). exists r. split; [|exact Hin].
    apply filter_In. split; [exact Hr | eapply inside_nonempty; eauto].
Qed.

Lemma rect_before_disjoint r1 r2 : rect_before r1 r2 -> disjoint_rects r1 r2.
Proof.
  unfold rect_before, disjoint_rects, inside. intros H px py. lia.
Qed.

(** The cell of an ascending array that holds [v]. *)
Lemma locate a v n :
  forall ia, ascending a -> 0 <= ia -> ia + Z.of_nat n < len a ->
  get a ia <= v < get a (ia + Z.of_nat n) ->
  exists l, ia <= l < ia + Z.of_nat n /\ get a l <= v < get a (l + 1).
Proof.
  induction n as [|n IH]; intros ia Ha Hia Hib Hv.
  - replace (ia + Z.of_nat 0) with ia in Hv by lia. lia.
  - destruct (Z.lt_ge_cases v (get a (ia + 1))) as [Hlt|Hge].
    + exists ia. split; lia.
    + destruct (IH (ia + 1) Ha ltac:(lia) ltac:(lia)) as (l & Hl & Hvl).
      { replace (ia + 1 + Z.of_nat n) with (ia + Z.of_nat (S n)) by lia. lia. }
      exists l. split; [lia | exact Hvl].
Qed.

(** An edge of the array does not cut the cell that holds [v]. *)
Lemma edge_cell a lo v l :
  ascending a -> In lo a -> 0 <= l < len a - 1 ->
  get a l <= v < get a (l + 1) ->
  (lo <= v -> lo <= get a l) /\ (v < lo -> get a (l + 1) <= lo).
Proof.
  intros Ha Hin Hl Hv. destruct (In_get _ _ Hin) as (i & Hi & <-).
  split; intros Hlo.
  - apply ascending_le; auto; try lia.
    assert (i < l + 1) by (apply (ascending_lt_inv a); auto; lia). lia.
  - apply ascending_le; auto; try lia.
    assert (l < i) by (apply (ascending_lt_inv a); auto; lia). lia.
Qed.

Lemma coversb_inside e r k l px py :
  coversb e r k l = true ->
  get (fst e) l <= px < get (fst e) (l + 1) ->
  get (snd e) k <= py < get (snd e) (k + 1) ->
  inside r px py.
Proof.
  unfold coversb, inside. rewrite !andb_true_iff, !Z.leb_le. lia.
Qed.

Lemma inside_coversb e r k l px py :
  ascending (fst e) -> ascending (snd e) -> edges_hold e r ->
  0 <= l < len (fst e) - 1 -> 0 <= k < len (snd e) - 1 ->
  get (fst e) l <= px < get (fst e) (l + 1) ->
  get (snd e) k <= py < get (snd e) (k + 1) ->
  inside r px py -> coversb e r k l = true.
Proof.
  intros Hx Hy [Hex Hey] Hl Hk Hpx Hpy [Hix Hiy].
  destruct (edge_cell _ (x r) px l Hx (Hex _ (or_introl eq_refl)) Hl Hpx) as [A1 _].
  destruct (edge_cell _ (x r + w r) px l Hx (Hex _ (or_intror eq_refl)) Hl Hpx)
    as [_ A2].
  destruct (edge_cell _ (y r) py k Hy (Hey _ (or_introl eq_refl)) Hk Hpy) as [B1 _].
  destruct (edge_cell _ (y r + h r) py k Hy (Hey _ (or_intror eq_refl)) Hk Hpy)
    as [_ B2].
  unfold coversb. rewrite !andb_true_iff, !Z.leb_le, !Z.gtb_lt. lia.
Qed.

(** The cell of the grid that holds a point of a rectangle. *)
Lemma inside_cell e r px py :
  ascending (fst e) -> ascending (snd e) -> edges_hold e r -> inside r px py ->
  exists k l, 0 <= k < len (snd e) - 1 /\ 0 <= l < len (fst e) - 1 /\
              get (fst e) l <= px < get (fst e) (l + 1) /\
              get (snd e) k <= py < get (snd e) (k + 1).
Proof.
  intros Hx Hy [Hex Hey] [Hix Hiy].
  destruct (In_get _ _ (Hex _ (or_introl eq_refl))) as (c0 & Hc0 & Ec0).
  destruct (In_get _ _ (Hex _ (or_intror eq_refl))) as (c1 & Hc1 & Ec1).
  destruct (In_get _ _ (Hey _ (or_introl eq_refl))) as (r0 & Hr0 & Er0).
  destruct (In_get _ _ (Hey _ (or_intror eq_refl))) as (r1 & Hr1 & Er1).
  assert (c0 < c1) by (apply (ascending_lt_inv (fst e)); auto; lia).
  assert (r0 < r1) by (apply (ascending_lt_inv (snd e)); auto; lia).
  destruct (locate (fst e) px (Z.to_nat (c1 - c0)) c0 Hx) as (l & Hl & Hpx);
    try lia.
  { replace (c0 + Z.of_nat (Z.to_nat (c1 - c0))) with c1 by lia. lia. }
  destruct (locate (snd e) py (Z.to_nat (r1 - r0)) r0 Hy) as (k & Hk & Hpy);
    try lia.
  { replace (r0 + Z.of_nat (Z.to_nat (r1 - r0))) with r1 by lia. lia. }
  exists k, l. repeat split; try lia.
Qed.

Lemma flag_add_only a b : (flag a b =? 2) = a && negb b.
Proof. destruct a, b; reflexivity. Qed.

(** The cells that are [ADD] only, in terms of the rectangles. *)
Lemma add_only_spec add rm k l :
  let e := edges_of add rm in
  0 <= k < len (snd e) - 1 -> 0 <= l < len (fst e) - 1 ->
  add_only e (mk_grid e add rm) k l =
  existsb (fun r => coversb e r k l) add &&
  negb (existsb (fun r => coversb e r k l) rm).
Proof.
  intros e Hk Hl. unfold add_only.
  destruct (edges_of_ascending add rm) as [Hx Hy].
  destruct (mk_grid_spec e add rm Hx Hy (edges_of_hold add rm)) as [_ Hg].
  rewrite Hg by assumption. apply flag_add_only.
Qed.

(** ** [mk_disjoint]: the rows of runs, the region, the order *)

Lemma mk_disjoint_rows add rm :
  mk_disjoint add rm =
  disjoint_difference_rows (edges_of add rm) (mk_grid (edges_of add rm) add rm).
Proof. unfold mk_disjoint. apply gen_subrects_rows. Qed.

Lemma In_mk_disjoint add rm r :
  let e := edges_of add rm in
  In r (mk_disjoint add rm) <->
  exists i c, 0 <= i < len (snd e) - 1 /\
              In c (row_runs (add_only e (mk_grid e add rm) i) (len (fst e) - 1)) /\
              r = run_rect e i c.
Proof.
  intros e. rewrite mk_disjoint_rows. fold e.
  unfold disjoint_difference_rows, row_rects. rewrite in_flat_map. split.
  - intros (i & Hi & Hr). apply In_range in Hi. apply in_map_iff in Hr.
    destruct Hr as (c & <- & Hc). exists i, c. auto.
  - intros (i & c & Hi & Hc & ->). exists i. split; [apply In_range; lia|].
    apply in_map_iff. exists c. auto.
Qed.

(** The shape of an emitted rectangle: a maximal run of one grid row. *)
Lemma mk_disjoint_run add rm r :
  let e := edges_of add rm in
  In r (mk_disjoint add rm) ->
  exists i c0 c1,
    0 <= i < len (snd e) - 1 /\
    maximal_run (add_only e (mk_grid e add rm) i) (len (fst e) - 1) c0 c1 /\
    r = run_rect e i (c0, c1).
Proof.
  intros e Hr. apply In_mk_disjoint in Hr. destruct Hr as (i & [c0 c1] & Hi & Hc & ->).
  exists i, c0, c1. split; [exact Hi|]. split; [|reflexivity].
  apply (row_runs_sound _ _ (c0, c1) Hc).
Qed.

Lemma mk_disjoint_nonempty add rm r :
  In r (mk_disjoint add rm) -> nonempty_rect r = true.
Proof.
  intros Hr. destruct (mk_disjoint_run add rm r Hr)
    as (i & c0 & c1 & Hi & (H0 & H1 & H2 & _) & ->).
  destruct (edges_of_ascending add rm) as [Hx Hy].
  apply nonempty_rect_spec. unfold run_rect. cbn [w h fst snd].
  assert (get (fst (edges_of add rm)) c0 < get (fst (edges_of add rm)) c1)
    by (apply Hx; lia).
  assert (get (snd (edges_of add rm)) i < get (snd (edges_of add rm)) (i + 1))
    by (apply Hy; lia).
  lia.
Qed.

#[local] Arguments edges_of : simpl never.
#[local] Arguments mk_grid : simpl never.

(** The region of the result is the region of [add] less that of [rm]. *)
Lemma mk_disjoint_region add rm px py :
  covered (mk_disjoint add rm) px py <-> covered add px py /\ ~ covered rm px py.
Proof.
  destruct (edges_of_ascending add rm) as [Hx Hy].
  pose proof (edges_of_hold add rm) as Hold.
  split.
  - intros (r & Hr & Hin).
    destruct (mk_disjoint_run add rm r Hr)
      as (i & c0 & c1 & Hi & (H0 & H1 & H2 & Hall & _) & ->).
    destruct Hin as [Hpx Hpy]. unfold run_rect in Hpx, Hpy.
    cbn [x y w h fst snd] in Hpx, Hpy.
    destruct (locate _ px (Z.to_nat (c1 - c0)) c0 Hx) as (l & Hl & Hcell);
      try lia.
    { replace (c0 + Z.of_nat (Z.to_nat (c1 - c0))) with c1 by lia. lia. }
    assert (Hl' : c0 <= l < c1) by lia.
    specialize (Hall l Hl').
    rewrite add_only_spec in Hall by lia.
    apply andb_true_iff in Hall. destruct Hall as [Ha Hb].
    apply negb_true_iff in Hb.
    split.
    + apply existsb_exists in Ha. destruct Ha as (r & Hr' & Hc).
      exists r. split; [exact Hr'|].
      apply (coversb_inside _ r i l px py Hc); lia.
    + intros (r & Hr' & Hin).
      assert (Hc : coversb (edges_of add rm) r i l = true).
      { apply (inside_coversb _ r i l px py); auto; try lia.
        apply Hold, in_or_app. now right. }
      assert (existsb (fun r => coversb (edges_of add rm) r i l) rm = true)
        by (apply existsb_exists; eauto).
      congruence.
  - intros [(r & Hr & Hin) Hnot].
    destruct (inside_cell _ r px py Hx Hy) as (k & l & Hk & Hl & Hpx & Hpy); auto.
    { apply Hold, in_or_app. now left. }
    assert (Hc : add_only (edges_of add rm) (mk_grid (edges_of add rm) add rm) k l
                 = true).
    { rewrite add_only_spec by lia.
      apply andb_true_iff. split.
      - apply existsb_exists. exists r. split; [exact Hr|].
        apply (inside_coversb _ r k l px py); auto.
        apply Hold, in_or_app. now left.
      - apply negb_true_iff. apply not_true_is_false. intros Hex.
        apply existsb_exists in Hex. destruct Hex as (r' & Hr' & Hc').
        apply Hnot. exists r'. split; [exact Hr'|].
        apply (coversb_inside _ r' k l px py Hc'); auto. }
    destruct (row_runs_cover _ _ l Hl Hc) as ([c0 c1] & Hrun & Hcl).
    pose proof (row_runs_sound _ _ _ Hrun) as (H0 & H1 & H2 & _).
    cbn [fst snd] in *.
    exists (run_rect (edges_of add rm) k (c0, c1)). split.
    + apply In_mk_disjoint. exists k, (c0, c1). auto.
    + unfold inside, run_rect. cbn [x y w h fst snd].
      pose proof (ascending_le _ c0 l Hx ltac:(lia) ltac:(lia)).
      pose proof (ascending_le _ (l + 1) c1 Hx ltac:(lia) ltac:(lia)).
      lia.
Qed.

Lemma StronglySorted_app {A} (R : A -> A -> Prop) l1 l2 :
  StronglySorted R l1 -> StronglySorted R l2 ->
  (forall a b, In a l1 -> In b l2 -> R a b) ->
  StronglySorted R (l1 ++ l2).
Proof.
  induction 1 as [|a l1 H1 IH Hall]; intros H2 Hcross; simpl; auto.
  constructor.
  - apply IH; auto. intros c d Hc Hd. apply Hcross; simpl; auto.
  - apply Forall_app. split; [exact Hall|].
    apply Forall_forall. intros b Hb. apply Hcross; simpl; auto.
Qed.

Lemma StronglySorted_map {A B} (R : A -> A -> Prop) (Q : B -> B -> Prop)
      (f : A -> B) l :
  (forall a b, In a l -> In b l -> R a b -> Q (f a) (f b)) ->
  StronglySorted R l -> StronglySorted Q (map f l).
Proof.
  intros Hf Hs. induction Hs as [|a l Hs IH Hall]; simpl; constructor.
  - apply IH. intros c d Hc Hd. apply Hf; simpl; auto.
  - apply Forall_forall. intros b Hb. apply in_map_iff in Hb.
    destruct Hb as (c & <- & Hc). rewrite Forall_forall in Hall.
    apply Hf; simpl; auto.
Qed.

Lemma flat_map_rows_sorted {B} (R : B -> B -> Prop) (f : Z -> list B) hi n :
  forall lo, lo + Z.of_nat n = hi ->
  (forall i, lo <= i < hi -> StronglySorted R (f i)) ->
  (forall i j a b, lo <= i < j -> j < hi -> In a (f i) -> In b (f j) -> R a b) ->
  StronglySorted R (flat_map f (range lo hi)).
Proof.
  induction n as [|n IH]; intros lo Hn Hrow Hcross.
  - rewrite range_nil by lia. constructor.
  - rewrite range_cons by lia. simpl. apply StronglySorted_app.
    + apply Hrow. lia.
    + apply IH; [lia | intros i Hi; apply Hrow; lia |].
      intros i j a b Hij Hj. apply Hcross; lia.
    + intros a b Ha Hb. apply in_flat_map in Hb. destruct Hb as (j & Hj & Hb).
      apply In_range in Hj. apply (Hcross lo j); auto; lia.
Qed.

(** The result lists its rectangles row by row, and from left to right
    with gaps inside a row. *)
Lemma mk_disjoint_sorted add rm : StronglySorted rect_before (mk_disjoint add rm).
Proof.
  destruct (edges_of_ascending add rm) as [Hx Hy].
  rewrite mk_disjoint_rows.
  unfold disjoint_difference_rows.
  destruct (Z.lt_ge_cases (len (snd (edges_of add rm)) - 1) 0) as [Hneg|Hpos].
  { rewrite range_nil by lia. constructor. }
  apply (flat_map_rows_sorted _ _ _ (Z.to_nat (len (snd (edges_of add rm)) - 1)));
    [lia | |].
  - intros i Hi. unfold row_rects.
    eapply StronglySorted_map; [|apply row_runs_sorted].
    intros [a0 a1] [b0 b1] Ha Hb Hab. unfold run_before in Hab.
    apply row_runs_sound in Ha, Hb.
    destruct Ha as (A0 & A1 & A2 & _), Hb as (B0 & B1 & B2 & _).
    cbn [fst snd] in *.
    right. unfold run_rect. cbn [x y w h fst snd]. repeat split; auto.
    assert (get (fst (edges_of add rm)) a1 < get (fst (edges_of add rm)) b0)
      by (apply Hx; lia).
    lia.
  - intros i j a b Hij Hj Ha Hb. unfold row_rects in Ha, Hb.
    apply in_map_iff in Ha, Hb.
    destruct Ha as (ca & <- & _), Hb as (cb & <- & _).
    left. unfold run_rect. cbn [x y w h fst snd].
    pose proof (ascending_le _ (i + 1) j Hy ltac:(lia) ltac:(lia)). lia.
Qed.

Lemma StronglySorted_pairs {A} (R Q : A -> A -> Prop) l :
  (forall a b, R a b -> Q a b) -> StronglySorted R l -> ForallOrdPairs Q l.
Proof.
  intros HRQ Hs. induction Hs as [|a l Hs IH Hall]; constructor; auto.
  eapply Forall_impl; [|exact Hall]. auto.
Qed.

Lemma mk_disjoint_pairwise_disjoint add rm :
  ForallOrdPairs disjoint_rects (mk_disjoint add rm).
Proof.
  apply (StronglySorted_pairs rect_before); [|apply mk_disjoint_sorted].
  apply rect_before_disjoint.
Qed.

(** ** The shape of the result *)






(** Two stacked rectangles of one width stay two rectangles. *)
Example mk_disjoint_no_vertical_merge :
  mk_disjoint [PyRect_New4 0 0 10 5; PyRect_New4 0 5 10 5] [] =
  [PyRect_New4 0 0 10 5; PyRect_New4 0 5 10 5].
Proof. vm_compute. reflexivity. Qed.

(** ** The arithmetic of [int] *)

Lemma wrap_exact z : int_ok z -> wrap z = z.
Proof.
  unfold int_ok, INT_MIN, INT_MAX, wrap.
  change (2 ^ 31) with 2147483648. change (2 ^ 32) with 4294967296.
  intros H. rewrite Z.mod_small by lia. lia.
Qed.

Lemma window_int lo z : INT_MIN <= lo <= 0 -> in_window lo z -> int_ok z.
Proof. unfold in_window, int_ok, INT_MIN, INT_MAX. lia. Qed.

Lemma window_diff lo a b :
  in_window lo a -> in_window lo b -> wrap (a - b) = a - b.
Proof.
  intros Ha Hb. apply wrap_exact.
  unfold in_window, int_ok, INT_MIN, INT_MAX in *. lia.
Qed.

Lemma fold_left_exact {A B} (f g : A -> B -> A) (l : list B) :
  (forall a b, In b l -> g a b = f a b) ->
  forall a, fold_left g l a = fold_left f l a.
Proof.
  induction l as [|b l IH]; intros Hfg a; simpl; auto.
  rewrite Hfg by (simpl; auto). apply IH. intros a' b' Hb'. apply Hfg. simpl. auto.
Qed.

Lemma fold_left_invariant {A B} (f g : A -> B -> A) (P : A -> Prop) (l : list B) :
  (forall a b, In b l -> P a -> g a b = f a b /\ P (f a b)) ->
  forall a, P a -> fold_left g l a = fold_left f l a /\ P (fold_left f l a).
Proof.
  induction l as [|b l IH]; intros Hfg a Ha; simpl; auto.
  destruct (Hfg a b (or_introl eq_refl) Ha) as [Heq Hp]. rewrite Heq.
  apply IH; auto. intros a' b' Hb'. apply Hfg. simpl. auto.
Qed.

Lemma add_edges_int_exact e r :
  int_ok (x r + w r) -> int_ok (y r + h r) -> add_edges_int e r = add_edges e r.
Proof.
  intros Hx Hy. unfold add_edges_int, add_edges. destruct e as [e0 e1].
  now rewrite !wrap_exact.
Qed.

Lemma mark_rect_int_exact e bit grid r :
  int_ok (x r + w r) -> int_ok (y r + h r) ->
  mark_rect_int e bit grid r = mark_rect e bit grid r.
Proof.
  intros Hx Hy. unfold mark_rect_int, mark_rect. now rewrite !wrap_exact.
Qed.

Lemma get_edges_int_exact add rm :
  (forall r, In r (add ++ rm) -> int_ok (x r + w r) /\ int_ok (y r + h r)) ->
  get_edges_int add rm = get_edges add rm.
Proof.
  intros Hfit. unfold get_edges_int, get_edges. cbn [fold_left].
  rewrite (fold_left_exact add_edges add_edges_int add).
  - apply fold_left_exact. intros e r Hr. apply add_edges_int_exact; apply Hfit;
      apply in_or_app; auto.
  - intros e r Hr. apply add_edges_int_exact; apply Hfit; apply in_or_app; auto.
Qed.

Lemma mk_grid_int_exact e add rm :
  (forall r, In r (add ++ rm) -> int_ok (x r + w r) /\ int_ok (y r + h r)) ->
  mk_grid_int e add rm = mk_grid e add rm.
Proof.
  intros Hfit. unfold mk_grid_int, mk_grid. cbv zeta.
  rewrite (fold_left_exact (mark_rect e 2) (mark_rect_int e 2) add).
  - apply fold_left_exact. intros g r Hr. apply mark_rect_int_exact; apply Hfit;
      apply in_or_app; auto.
  - intros g r Hr. apply mark_rect_int_exact; apply Hfit; apply in_or_app; auto.
Qed.

Section ScanInt.

Variables (e : edge_arrays) (grid : list Z).

(** No difference of two x edges, or of two y edges, leaves the range. *)
Hypothesis Ex : forall a b, In a (fst e) -> In b (fst e) -> wrap (a - b) = a - b.
Hypothesis Ey : forall a b, In a (snd e) -> In b (snd e) -> wrap (a - b) = a - b.

Lemma close_rect_int_exact right s :
  In right (fst e) -> in_rect s = true -> scan_ok e s ->
  close_rect_int e right s = close_rect e right s.
Proof.
  intros Hright Hin Hok. destruct (Hok Hin) as (Hleft & Hi0 & Hi1).
  unfold close_rect_int, close_rect. cbv zeta.
  rewrite Ex by assumption.
  rewrite Ey by (apply get_In; lia). reflexivity.
Qed.

Lemma scan_ok_closed right s : scan_ok e (close_rect e right s).
Proof. unfold scan_ok, close_rect. simpl. discriminate. Qed.

Lemma scan_cell_int_exact i s j :
  0 <= i -> i + 1 < len (snd e) -> 0 <= j < len (fst e) - 1 -> scan_ok e s ->
  scan_cell_int e grid i s j = scan_cell e grid i s j /\
  scan_ok e (scan_cell e grid i s j).
Proof.
  intros Hi0 Hi1 Hj Hok. unfold scan_cell_int, scan_cell. cbv zeta.
  assert (Hlast : In (get (fst e) (len (fst e) - 1)) (fst e)) by (apply get_In; lia).
  assert (Hcur : In (get (fst e) j) (fst e)) by (apply get_In; lia).
  assert (Hnew : forall l, scan_ok e (Scan true i (get (fst e) j) l)).
  { intros l _. simpl. auto. }
  destruct (in_rect s) eqn:Hin; cbn [andb].
  - destruct (negb (i =? r_i s)) eqn:Hrow.
    + rewrite close_rect_int_exact by auto.
      cbn [close_rect in_rect negb rs].
      destruct (get grid ((len (fst e) - 1) * i + j) =? 2); split; auto.
      * apply scan_ok_closed.
    + rewrite Hin. cbn [negb].
      destruct (get grid ((len (fst e) - 1) * i + j) =? 2); [split; auto|].
      rewrite close_rect_int_exact by auto. split; [reflexivity|].
      apply scan_ok_closed.
  - rewrite Hin. cbn [negb].
    destruct (get grid ((len (fst e) - 1) * i + j) =? 2); split; auto.
Qed.

Lemma gen_subrects_int_exact : gen_subrects_int e grid = gen_subrects e grid.
Proof.
  unfold gen_subrects_int, gen_subrects, scan_rows_int, scan_rows. cbv zeta.
  assert (Hstart : scan_ok e (Scan false 0 0 [])) by (intros H; discriminate).
  destruct (fold_left_invariant
              (fun s i => fold_left (scan_cell e grid i) (range 0 (len (fst e) - 1)) s)
              (fun s i => fold_left (scan_cell_int e grid i)
                                    (range 0 (len (fst e) - 1)) s)
              (scan_ok e) (range 0 (len (snd e) - 1))) with (a := Scan false 0 0 [])
    as [Heq Hok]; [|exact Hstart|].
  - intros s i Hi Hs. apply In_range in Hi.
    apply (fold_left_invariant (scan_cell e grid i) (scan_cell_int e grid i)
                               (scan_ok e)); [|exact Hs].
    intros s' j Hj Hs'. apply In_range in Hj.
    apply scan_cell_int_exact; auto; lia.
  - rewrite Heq.
    destruct (in_rect (fold_left _ _ _)) eqn:Hin; [|reflexivity].
    rewrite close_rect_int_exact; auto.
    destruct (Hok Hin) as (Hleft & _). apply get_In.
    destruct (In_get _ _ Hleft) as (k & Hk & _). lia.
Qed.

End ScanInt.

Lemma no_overflow_sums l r :
  no_overflow l -> In r l -> int_ok (x r + w r) /\ int_ok (y r + h r).
Proof.
  intros (lx & ly & Hlx & Hly & Hall) Hr.
  rewrite Forall_forall in Hall. destruct (Hall r Hr) as (_ & Hx & _ & Hy).
  split; [apply (window_int lx) | apply (window_int ly)]; assumption.
Qed.

Lemma edges_of_in_window lx ly add rm :
  Forall (rect_in lx ly) (add ++ rm) ->
  (forall a, In a (fst (edges_of add rm)) -> in_window lx a) /\
  (forall a, In a (snd (edges_of add rm)) -> in_window ly a).
Proof.
  intros Hall. rewrite Forall_forall in Hall. split; intros a Ha.
  - apply (edges_of_In add rm a) in Ha. destruct Ha as (r & Hr & [->| ->]);
      destruct (Hall r Hr) as (H1 & H2 & _); assumption.
  - apply (edges_of_In add rm a) in Ha. destruct Ha as (r & Hr & [->| ->]);
      destruct (Hall r Hr) as (_ & _ & H1 & H2); assumption.
Qed.

(** Under [no_overflow] the arithmetic of [int] is exact: the compiled
    [mk_disjoint] returns what the exact one returns. *)
Lemma mk_disjoint_int_exact add rm :
  no_overflow (add ++ rm) -> mk_disjoint_int add rm = mk_disjoint add rm.
Proof.
  intros Hfit. unfold mk_disjoint_int, mk_disjoint. cbv zeta.
  rewrite get_edges_int_exact by (intros r Hr; eapply no_overflow_sums; eauto).
  rewrite mk_grid_int_exact by (intros r Hr; eapply no_overflow_sums; eauto).
  fold (edges_of add rm).
  destruct Hfit as (lx & ly & Hlx & Hly & Hall).
  destruct (edges_of_in_window lx ly add rm Hall) as [Hx Hy].
  apply gen_subrects_int_exact; intros a b Ha Hb.
  - apply (window_diff lx); auto.
  - apply (window_diff ly); auto.
Qed.

(** The edges of the result are edges of the input: the result fits the
    windows of the input. *)
Lemma mk_disjoint_rect_in lx ly add rm :
  Forall (rect_in lx ly) (add ++ rm) -> Forall (rect_in lx ly) (mk_disjoint add rm).
Proof.
  intros Hall. destruct (edges_of_in_window lx ly add rm Hall) as [Hx Hy].
  apply Forall_forall. intros r Hr.
  destruct (mk_disjoint_run add rm r Hr)
    as (i & c0 & c1 & Hi & (H0 & H1 & H2 & _) & ->).
  unfold rect_in, run_rect. cbn [x y w h fst snd].
  replace (get (fst (edges_of add rm)) c0 +
           (get (fst (edges_of add rm)) c1 - get (fst (edges_of add rm)) c0))
    with (get (fst (edges_of add rm)) c1) by lia.
  replace (get (snd (edges_of add rm)) i +
           (get (snd (edges_of add rm)) (i + 1) - get (snd (edges_of add rm)) i))
    with (get (snd (edges_of add rm)) (i + 1)) by lia.
  split; [|split; [|split]].
  - apply Hx, get_In. lia.
  - apply Hx, get_In. lia.
  - apply Hy, get_In. lia.
  - apply Hy, get_In. lia.
Qed.

Lemma mk_disjoint_no_overflow add rm :
  no_overflow (add ++ rm) -> no_overflow (mk_disjoint add rm).
Proof.
  intros (lx & ly & Hlx & Hly & Hall). exists lx, ly.
  split; [exact Hlx|]. split; [exact Hly|]. now apply mk_disjoint_rect_in.
Qed.

(** A rectangle whose right edge [x + w] does not fit an [int]: the sum
    wraps around, [find] does not find it to the right of [x], no cell is
    marked and the result is empty. *)
Lemma add_only_overflows : ~ add_only_holds_of_every_list.
Proof.
  intros H. destruct (H [PyRect_New4 2147483640 0 10 10]) as (_ & _ & Hc).
  assert (Hin : covered (filter nonempty_rect [PyRect_New4 2147483640 0 10 10])
                        2147483640 0).
  { exists (PyRect_New4 2147483640 0 10 10). split; [simpl; auto|].
    unfold inside. simpl. lia. }
  apply Hc in Hin.
  assert (E : mk_disjoint_int [PyRect_New4 2147483640 0 10 10] [] = [])
    by (vm_compute; reflexivity).
  rewrite E in Hin. destruct Hin as (r & [] & _).
Qed.

(** C1, as the code has it.  With an empty [rm], and an [add] on which no
    sum and no difference of coordinates overflows, the rectangles of the
    result are pairwise disjoint, none of them is empty, and their union
    is the union of the members of [add] that are not empty. *)
Theorem mk_disjoint_add_only (add : list GAME_Rect)
        (Hfit : no_overflow add) :
  ForallOrdPairs disjoint_rects (mk_disjoint_int add []) /\
  Forall (fun r => 0 < w r /\ 0 < h r) (mk_disjoint_int add []) /\
  forall px py,
    covered (mk_disjoint_int add []) px py <->
    covered (filter nonempty_rect add) px py.
Proof.
  rewrite mk_disjoint_int_exact by (rewrite app_nil_r; exact Hfit).
  split; [|split].
  - apply mk_disjoint_pairwise_disjoint.
  - apply Forall_forall. intros r Hr. apply nonempty_rect_spec.
    eapply mk_disjoint_nonempty; eauto.
  - intros px py. rewrite mk_disjoint_region, covered_filter_nonempty.
    split; [tauto|]. intros H. split; [exact H|].
    intros (r & [] & _).
Qed.

(** ** Empty rectangles and the edge sets *)

(** An empty rectangle does give edge coordinates: the edge loop has no
    test on [w] and [h]. *)
Lemma empty_rect_gives_edges :
  get_edges [PyRect_New4 5 7 0 0] [] <>
  get_edges (filter nonempty_rect [PyRect_New4 5 7 0 0]) (filter nonempty_rect []).
Proof. vm_compute. discriminate. Qed.

Lemma mark_rect_empty e bit grid r :
  nonempty_rect r = false -> mark_rect e bit grid r = grid.
Proof.
  unfold nonempty_rect, mark_rect. intros ->. reflexivity.
Qed.

(** C3, as the code has it.  Every rectangle of [add] and of [rm], empty
    or not, gives its coordinates [x], [x + w] to the x edges and [y],
    [y + h] to the y edges; an empty rectangle is passed over only when
    the grid is marked, where it marks no cell. *)
Theorem every_rect_gives_edges (add rm : list GAME_Rect) (r : GAME_Rect)
        (Hr : In r (add ++ rm)) :
  (In (x r) (fst (get_edges add rm)) /\ In (x r + w r) (fst (get_edges add rm)) /\
   In (y r) (snd (get_edges add rm)) /\ In (y r + h r) (snd (get_edges add rm))) /\
  (nonempty_rect r = false ->
   forall bit grid,
     mark_rect (sort_edges (get_edges add rm)) bit grid r = grid).
Proof.
  split.
  - repeat split.
    + apply (get_edges_In add rm (x r)). exists r. split; [exact Hr | now left].
    + apply (get_edges_In add rm (x r + w r)). exists r. split; [exact Hr | now right].
    + apply (get_edges_In add rm (y r)). exists r. split; [exact Hr | now left].
    + apply (get_edges_In add rm (y r + h r)). exists r. split; [exact Hr | now right].
  - intros Hempty bit grid. now apply mark_rect_empty.
Qed.

Lemma every_rect_gives_edges_witness :
  (In 5 (fst (get_edges [PyRect_New4 0 0 4 4; PyRect_New4 5 7 0 3] [])) /\
   In (5 + 0) (fst (get_edges [PyRect_New4 0 0 4 4; PyRect_New4 5 7 0 3] [])) /\
   In 7 (snd (get_edges [PyRect_New4 0 0 4 4; PyRect_New4 5 7 0 3] [])) /\
   In (7 + 3) (snd (get_edges [PyRect_New4 0 0 4 4; PyRect_New4 5 7 0 3] []))) /\
  (nonempty_rect (PyRect_New4 5 7 0 3) = false ->
   forall bit grid,
     mark_rect (sort_edges (get_edges [PyRect_New4 0 0 4 4; PyRect_New4 5 7 0 3] []))
               bit grid (PyRect_New4 5 7 0 3) = grid).
Proof.
  apply (every_rect_gives_edges [PyRect_New4 0 0 4 4; PyRect_New4 5 7 0 3] []
                                (PyRect_New4 5 7 0 3)).
  simpl. auto.
Defined.

(** ** [Rect.clip] *)

Lemma clip_axis_inside a aw b bw :
  0 < aw -> b <= a -> a + aw <= b + bw -> clip_axis a aw b bw = Some (a, aw).
Proof.
  intros Haw Hlo Hhi. unfold clip_axis.
  rewrite Z.geb_leb, Z.gtb_ltb.
  destruct (Z.leb_spec b a); try lia. destruct (Z.ltb_spec a (b + bw)); try lia.
  simpl. destruct (Z.ltb_spec b (a + aw)); try lia.
  destruct (Z.leb_spec (a + aw) (b + bw)); try lia. simpl.
  f_equal. f_equal. lia.
Qed.

Lemma clip_inside A B : nonempty_rect A = true -> holds B A -> clip A B = A.
Proof.
  intros Hne (H1 & H2 & H3 & H4). apply nonempty_rect_spec in Hne.
  unfold clip. rewrite !clip_axis_inside by lia. now destruct A.
Qed.


(** ** The passes of [fastdraw] *)

Section Passes.

(** The methods of the graphics of the frame. *)
Variable m : Methods.

(** *** The collection pass *)

Lemma upd_same hp g s : upd hp g s g = s.
Proof. unfold upd. now rewrite Nat.eqb_refl. Qed.

Lemma upd_other hp g s g' : g' <> g -> upd hp g s g' = hp g'.
Proof. unfold upd. intros Hne. now destruct (Nat.eqb_spec g' g). Qed.

Lemma collect_graphic_done g wd s :
  _pre_draw m g (heap wd g) = Some s ->
  collect_graphic m g wd =
  Done tt (mkWorld (upd (upd (heap wd) g s) g (set_was_visible (visible s) s))
                   (dirty wd ++ dirty_of s)
                   (calls wd ++ [CallPreDraw g])).
Proof.
  intros Hpre. unfold collect_graphic, bind, call_pre_draw, getattrs, setattrs,
    append_dirty, ret, dirty_of. simpl. rewrite Hpre. simpl.
  rewrite !upd_same.
  destruct (was_visible s) eqn:Ew, (visible s) eqn:Ev; simpl;
    rewrite ?upd_same, ?Ev, ?app_nil_r; try rewrite <- app_assoc; reflexivity.
Qed.

Lemma collect_graphic_raised g wd :
  _pre_draw m g (heap wd g) = None ->
  collect_graphic m g wd = Raised (log (CallPreDraw g) wd).
Proof.
  intros Hpre. unfold collect_graphic, bind, call_pre_draw. simpl.
  now rewrite Hpre.
Qed.


(** *** Loops over the graphics *)

Lemma for_each_app {A} (l1 l2 : list A) body wd :
  for_each (l1 ++ l2) body wd =
  match for_each l1 body wd with
  | Done _ wd1 => for_each l2 body wd1
  | Raised wd1 => Raised wd1
  end.
Proof.
  revert wd. induction l1 as [|a l1 IH]; intros wd; simpl; auto.
  unfold bind. destruct (body a wd) as [[] wd1|wd1]; auto.
Qed.

Lemma for_each_nested {A B} (l : list A) (f : A -> list B) (body : A -> B -> M unit) wd :
  for_each l (fun a => for_each (f a) (body a)) wd =
  for_each (flat_map (fun a => map (pair a) (f a)) l)
           (fun p => body (fst p) (snd p)) wd.
Proof.
  revert wd. induction l as [|a l IH]; intros wd; simpl; auto.
  rewrite for_each_app. unfold bind at 1.
  assert (Hin : forall bs wd0,
             for_each bs (body a) wd0 =
             for_each (map (pair a) bs) (fun p => body (fst p) (snd p)) wd0).
  { induction bs as [|b bs IHb]; intros wd0; simpl; auto.
    unfold bind. destruct (body a b wd0) as [[] wd1|wd1]; auto. }
  rewrite <- Hin. destruct (for_each (f a) (body a) wd) as [[] wd1|wd1]; auto.
Qed.

(** A loop that raised: the iterations before went through, and the
    failing iteration left the world it raised in. *)
Lemma for_each_raised {A} (l : list A) body wd wd' :
  for_each l body wd = Raised wd' ->
  exists done a todo wd1,
    l = done ++ a :: todo /\
    for_each done body wd = Done tt wd1 /\
    body a wd1 = Raised wd'.
Proof.
  revert wd. induction l as [|a l IH]; intros wd Hr; simpl in Hr; [discriminate|].
  unfold bind in Hr. destruct (body a wd) as [[] wd1|wd1] eqn:Hb.
  - destruct (IH wd1 Hr) as (done & b & todo & wd2 & -> & Hdone & Hfail).
    exists (a :: done), b, todo, wd2. split; [reflexivity|]. split; [|exact Hfail].
    simpl. unfold bind. now rewrite Hb.
  - inversion Hr; subst. exists [], a, l, wd. auto.
Qed.

Lemma collect_flat graphics wd :
  collect m graphics wd = for_each (concat graphics) (collect_graphic m) wd.
Proof.
  unfold collect. revert wd. induction graphics as [|gs t IH]; intros wd; simpl; auto.
  rewrite for_each_app. unfold bind.
  destruct (for_each gs (collect_graphic m) wd) as [[] wd1|wd1]; auto.
Qed.

Lemma collect_ids_done ids :
  forall wd wd',
  for_each ids (collect_graphic m) wd = Done tt wd' ->
  calls wd' = calls wd ++ map CallPreDraw ids /\
  (forall g, In g ids -> was_visible (heap wd' g) = visible (heap wd' g)) /\
  (forall g, ~ In g ids -> heap wd' g = heap wd g) /\
  (exists added, dirty wd' = dirty wd ++ added) /\
  (pre_draw_keeps_dirty m -> forall g, _dirty (heap wd' g) = _dirty (heap wd g)).
Proof.
  induction ids as [|g ids IH]; intros wd wd' Hdone; simpl in Hdone.
  - inversion Hdone; subst. rewrite app_nil_r. repeat split; auto.
    + intros g [].
    + exists []. now rewrite app_nil_r.
  - unfold bind in Hdone.
    destruct (_pre_draw m g (heap wd g)) as [s|] eqn:Hpre.
    2:{ rewrite (collect_graphic_raised _ _ Hpre) in Hdone. discriminate. }
    rewrite (collect_graphic_done _ _ _ Hpre) in Hdone.
    destruct (IH _ _ Hdone) as (Hcalls & Hvis & Hframe & (added & Hdirty) & Hkeep).
    simpl in Hcalls, Hframe, Hdirty, Hkeep.
    split; [|split; [|split; [|split]]].
    + rewrite Hcalls, <- app_assoc. reflexivity.
    + intros g' [->|Hin].
      * destruct (in_dec Nat.eq_dec g' ids) as [Hin|Hnin]; [now apply Hvis|].
        rewrite (Hframe g' Hnin), upd_same. reflexivity.
      * now apply Hvis.
    + intros g' Hnin. rewrite Hframe by (intros Hin; apply Hnin; simpl; auto).
      rewrite !upd_other; auto; intros ->; apply Hnin; simpl; auto.
    + exists (dirty_of s ++ added). rewrite Hdirty, <- app_assoc. reflexivity.
    + intros Hm g'. rewrite (Hkeep Hm g').
      destruct (Nat.eq_dec g' g) as [->|Hne].
      * rewrite upd_same. simpl. now apply (Hm g).
      * now rewrite !upd_other.
Qed.

(** A graphic that the loop meets once is left as [_pre_draw] returned
    it, but for [was_visible]. *)
Lemma collect_ids_once ids :
  forall wd wd',
  for_each ids (collect_graphic m) wd = Done tt wd' -> NoDup ids ->
  forall g, In g ids ->
  exists s, _pre_draw m g (heap wd g) = Some s /\
            heap wd' g = set_was_visible (visible s) s.
Proof.
  induction ids as [|g ids IH]; intros wd wd' Hdone Hnd g' Hg'; [contradiction|].
  simpl in Hdone. unfold bind in Hdone.
  destruct (_pre_draw m g (heap wd g)) as [s|] eqn:Hpre.
  2:{ rewrite (collect_graphic_raised _ _ Hpre) in Hdone. discriminate. }
  rewrite (collect_graphic_done _ _ _ Hpre) in Hdone.
  inversion Hnd as [|? ? Hnin Hnd']; subst.
  destruct Hg' as [<-|Hin].
  - exists s. split; [exact Hpre|].
    destruct (collect_ids_done _ _ _ Hdone) as (_ & _ & Hframe & _).
    rewrite (Hframe g Hnin). simpl. apply upd_same.
  - destruct (IH _ _ Hdone Hnd' g' Hin) as (s' & Hpre' & Hheap).
    exists s'. split; [|exact Hheap].
    simpl in Hpre'. rewrite !upd_other in Hpre'; auto; intros ->; contradiction.
Qed.

Lemma fastdraw_unfold graphics wd :
  fastdraw m graphics wd =
  match collect m graphics wd with
  | Raised wd1 => Raised wd1
  | Done _ wd1 =>
      if len (dirty wd1) =? 0 then Done Py_False wd1
      else
        match occlude m graphics [] wd1 with
        | Raised wd2 => Raised wd2
        | Done dirty_by_layer wd2 =>
            match draw_layers m graphics dirty_by_layer wd2 with
            | Raised wd3 => Raised wd3
            | Done _ wd3 =>
                Done (PyList (mk_disjoint (concat dirty_by_layer) [])) wd3
            end
        end
  end.
Proof.
  unfold fastdraw, bind, get_dirty, ret.
  destruct (collect m graphics wd) as [[] wd1|wd1]; auto.
  destruct (len (dirty wd1) =? 0); auto.
Qed.

(** C7.  [dirty] is empty when the call starts and no graphic adds a
    rectangle in the collection pass: [fastdraw] returns [Py_False], and
    the only calls it makes are the [_pre_draw] ones, so no [_draw]. *)
Theorem fastdraw_nothing_dirty (graphics : list (list gid))
        (wd wd' : World)
        (Hcollect : collect m graphics wd = Done tt wd')
        (Hinit : dirty wd = [])
        (Hnone : dirty wd' = dirty wd) :
  fastdraw m graphics wd = Done Py_False wd' /\
  exists made,
    calls wd' = calls wd ++ made /\
    forall g rects, ~ In (CallDraw g rects) made.
Proof.
  split.
  - rewrite fastdraw_unfold, Hcollect, Hnone, Hinit. reflexivity.
  - rewrite collect_flat in Hcollect.
    destruct (collect_ids_done _ _ _ Hcollect) as (Hcalls & _).
    exists (map CallPreDraw (concat graphics)). split; [exact Hcalls|].
    intros g rects Hin. apply in_map_iff in Hin. destruct Hin as (g' & Heq & _).
    discriminate.
Qed.

(** *** The occlusion pass *)

Lemma asks_only_refl wd : asks_only wd wd.
Proof.
  repeat split. exists []. rewrite app_nil_r. split; [reflexivity | constructor].
Qed.

Lemma asks_only_trans wd1 wd2 wd3 :
  asks_only wd1 wd2 -> asks_only wd2 wd3 -> asks_only wd1 wd3.
Proof.
  intros (H1 & D1 & l1 & E1 & F1) (H2 & D2 & l2 & E2 & F2).
  split; [congruence|]. split; [congruence|].
  exists (l1 ++ l2). split; [rewrite E2, E1, app_assoc; reflexivity|].
  apply Forall_app. auto.
Qed.

Lemma occlusion_post_trans {A} wd1 wd2 (res : Result A) :
  asks_only wd1 wd2 -> occlusion_post m wd2 res -> occlusion_post m wd1 res.
Proof.
  intros H12 Hres. destruct res as [a wd3|wd3]; simpl in *.
  - eapply asks_only_trans; eauto.
  - destruct Hres as [H23 (g & r & pre & Hc & Hnone)].
    split; [eapply asks_only_trans; eauto|].
    destruct H12 as (_ & _ & l1 & E1 & _).
    exists g, r, (l1 ++ pre). split; [|exact Hnone].
    rewrite Hc, E1, <- !app_assoc. reflexivity.
Qed.

Lemma call_opaque_in_post g r wd :
  occlusion_post m wd (call_opaque_in m g r wd) /\
  (forall b wd', call_opaque_in m g r wd = Done b wd' ->
                 _opaque_in m g (heap wd g) r = Some b).
Proof.
  unfold call_opaque_in. simpl.
  assert (Hlog : asks_only wd (log (CallOpaqueIn g r) wd)).
  { repeat split. exists [CallOpaqueIn g r]. split; [reflexivity|].
    constructor; [eauto | constructor]. }
  destruct (_opaque_in m g (heap wd g) r) as [b|] eqn:Hop; simpl.
  - split; [exact Hlog|]. intros b' wd' Heq. now inversion Heq.
  - split; [|discriminate]. split; [exact Hlog|].
    exists g, r, []. simpl. auto.
Qed.

Lemma opaque_chain_post gs :
  forall r wd, occlusion_post m wd (opaque_chain m gs r wd).
Proof.
  induction gs as [|g gs IH]; intros r wd; simpl.
  - apply asks_only_refl.
  - unfold bind, getattrs.
    destruct (call_opaque_in_post g (clip r (_postrot_rect (heap wd g))) wd)
      as [Hpost _].
    destruct (call_opaque_in m g (clip r (_postrot_rect (heap wd g))) wd)
      as [tmp wd1|wd1]; [|exact Hpost].
    destruct ((w (clip r (_postrot_rect (heap wd g))) >? 0) &&
              (h (clip r (_postrot_rect (heap wd g))) >? 0) && tmp).
    + eapply occlusion_post_trans; [exact Hpost | apply IH].
    + exact Hpost.
Qed.

Lemma layer_opaque_post gs rects :
  forall wd, occlusion_post m wd (layer_opaque m gs rects wd).
Proof.
  induction rects as [|r rects IH]; intros wd; simpl.
  - apply asks_only_refl.
  - unfold bind. pose proof (opaque_chain_post gs r wd) as Hc.
    destruct (opaque_chain m gs r wd) as [c wd1|wd1]; [|exact Hc].
    pose proof (IH wd1) as Hl.
    destruct (layer_opaque m gs rects wd1) as [l wd2|wd2].
    + simpl in *. eapply asks_only_trans; eauto.
    + eapply occlusion_post_trans; [exact Hc | exact Hl].
Qed.

Lemma occlude_post graphics :
  forall acc wd, occlusion_post m wd (occlude m graphics acc wd).
Proof.
  induction graphics as [|gs graphics IH]; intros acc wd; simpl.
  - apply asks_only_refl.
  - unfold bind, get_dirty. pose proof (layer_opaque_post gs (dirty wd) wd) as Hl.
    destruct (layer_opaque m gs (dirty wd) wd) as [l wd1|wd1]; [|exact Hl].
    pose proof (IH (acc ++ l) wd1) as Hb.
    destruct (occlude m graphics (acc ++ l) wd1) as [below wd2|wd2].
    + simpl in *. eapply asks_only_trans; eauto.
    + eapply occlusion_post_trans; [exact Hl | exact Hb].
Qed.

(** One step of the loop over the layers. *)
Lemma occlude_cons gs graphics acc wd dbl wd' :
  occlude m (gs :: graphics) acc wd = Done dbl wd' ->
  exists l wd1 below,
    layer_opaque m gs (dirty wd) wd = Done l wd1 /\
    occlude m graphics (acc ++ l) wd1 = Done below wd' /\
    dbl = mk_disjoint (dirty wd) acc :: below.
Proof.
  simpl. unfold bind, get_dirty. intros Hd.
  destruct (layer_opaque m gs (dirty wd) wd) as [l wd1|wd1]; [|discriminate].
  destruct (occlude m graphics (acc ++ l) wd1) as [below wd2|wd2] eqn:Hb;
    [|discriminate].
  inversion Hd; subst. exists l, wd1, below. auto.
Qed.

Lemma occlude_length graphics :
  forall acc wd dbl wd',
  occlude m graphics acc wd = Done dbl wd' -> length dbl = length graphics.
Proof.
  induction graphics as [|gs graphics IH]; intros acc wd dbl wd' Hd.
  - inversion Hd. reflexivity.
  - apply occlude_cons in Hd. destruct Hd as (l & wd1 & below & _ & Hb & ->).
    simpl. f_equal. eapply IH; eauto.
Qed.

(** The layer [gs], after the layers [before]: the world and the opaque
    list the loop has when it reaches it. *)
Lemma occlude_at gs after before :
  forall acc wd dbl wd',
  occlude m (before ++ gs :: after) acc wd = Done dbl wd' ->
  exists acc_i wd_i l wd_l above below,
    asks_only wd wd_i /\
    (forall px py, covered acc px py -> covered acc_i px py) /\
    layer_opaque m gs (dirty wd_i) wd_i = Done l wd_l /\
    occlude m after (acc_i ++ l) wd_l = Done below wd' /\
    dbl = above ++ mk_disjoint (dirty wd_i) acc_i :: below /\
    length above = length before.
Proof.
  induction before as [|gs0 before IH]; intros acc wd dbl wd' Hd; simpl in Hd.
  - apply occlude_cons in Hd. destruct Hd as (l & wd1 & below & Hl & Hb & ->).
    exists acc, wd, l, wd1, [], below.
    split; [apply asks_only_refl|]. repeat split; auto.
  - apply occlude_cons in Hd. destruct Hd as (l0 & wd1 & below0 & Hl0 & Hb0 & ->).
    destruct (IH _ _ _ _ Hb0)
      as (acc_i & wd_i & l & wd_l & above & below & Hask & Hacc & Hl & Hb & -> & Hlen).
    exists acc_i, wd_i, l, wd_l, (mk_disjoint (dirty wd) acc :: above), below.
    split; [|split; [|split; [|split; [|split]]]]; auto.
    + pose proof (layer_opaque_post gs0 (dirty wd) wd) as Hp.
      rewrite Hl0 in Hp. simpl in Hp. eapply asks_only_trans; eauto.
    + intros px py (r & Hr & Hin). apply Hacc. exists r.
      split; [apply in_or_app; now left | exact Hin].
    + simpl. now rewrite Hlen.
Qed.

Lemma mk_disjoint_nil add rm :
  (forall px py, covered add px py -> covered rm px py) -> mk_disjoint add rm = [].
Proof.
  intros Hsub. destruct (mk_disjoint add rm) as [|r t] eqn:Hm; auto. exfalso.
  assert (Hr : In r (mk_disjoint add rm)) by (rewrite Hm; simpl; auto).
  pose proof (mk_disjoint_nonempty _ _ _ Hr) as Hne.
  apply nonempty_rect_spec in Hne.
  assert (Hc : covered (mk_disjoint add rm) (x r) (y r)).
  { exists r. split; [exact Hr|]. unfold inside. lia. }
  apply mk_disjoint_region in Hc. destruct Hc as [Ha Hn]. auto.
Qed.

(** What the opaque list holds is in no later [dirty_by_layer]. *)
Lemma occlude_excludes graphics :
  forall acc wd dbl wd',
  occlude m graphics acc wd = Done dbl wd' ->
  forall rects px py, In rects dbl -> covered acc px py -> ~ covered rects px py.
Proof.
  induction graphics as [|gs graphics IH]; intros acc wd dbl wd' Hd rects px py Hin Hacc.
  - inversion Hd; subst. contradiction.
  - apply occlude_cons in Hd. destruct Hd as (l & wd1 & below & Hl & Hb & ->).
    destruct Hin as [<-|Hin].
    + intros Hc. apply mk_disjoint_region in Hc. tauto.
    + apply (IH _ _ _ _ Hb rects px py Hin).
      destruct Hacc as (r & Hr & Hi). exists r.
      split; [apply in_or_app; now left | exact Hi].
Qed.

Lemma occlude_all_nil graphics :
  forall acc wd dbl wd',
  occlude m graphics acc wd = Done dbl wd' ->
  (forall px py, covered (dirty wd) px py -> covered acc px py) ->
  Forall (fun rects => rects = []) dbl.
Proof.
  induction graphics as [|gs graphics IH]; intros acc wd dbl wd' Hd Hsub.
  - inversion Hd; subst. constructor.
  - apply occlude_cons in Hd. destruct Hd as (l & wd1 & below & Hl & Hb & ->).
    constructor; [now apply mk_disjoint_nil|].
    apply (IH _ _ _ _ Hb).
    pose proof (layer_opaque_post gs (dirty wd) wd) as Hp.
    rewrite Hl in Hp. destruct Hp as (_ & Hdirty & _). rewrite Hdirty.
    intros px py Hc. destruct (Hsub px py Hc) as (r & Hr & Hi).
    exists r. split; [apply in_or_app; now left | exact Hi].
Qed.

Lemma layer_opaque_empty_layer rects wd :
  layer_opaque m [] rects wd = Done rects wd.
Proof.
  induction rects as [|r rects IH]; simpl; auto.
  unfold bind, ret. now rewrite IH.
Qed.

(** The loop over the layers, cut in two: the list [dirty_opaque] that
    the loop over [before] leaves is the one the loop over [rest] starts
    with. *)
Lemma occlude_app before rest :
  forall acc wd dbl wd',
  occlude m (before ++ rest) acc wd = Done dbl wd' ->
  exists above acc_i wd_i below,
    occlude m before acc wd = Done above wd_i /\
    opaque_after m before acc wd = Done acc_i wd_i /\
    occlude m rest acc_i wd_i = Done below wd' /\
    dirty wd_i = dirty wd /\
    dbl = above ++ below.
Proof.
  induction before as [|gs0 before IH]; intros acc wd dbl wd' Hd.
  - exists [], acc, wd, dbl. simpl in Hd |- *.
    split; [reflexivity|]. split; [reflexivity|]. split; [exact Hd|].
    split; reflexivity.
  - simpl app in Hd. apply occlude_cons in Hd.
    destruct Hd as (l0 & wd1 & below0 & Hl0 & Hb0 & ->).
    destruct (IH _ _ _ _ Hb0) as (above & acc_i & wd_i & below & Ha & Ho & Hb & Hd & ->).
    pose proof (layer_opaque_post gs0 (dirty wd) wd) as Hp.
    rewrite Hl0 in Hp. simpl in Hp. destruct Hp as (_ & Hd1 & _).
    exists (mk_disjoint (dirty wd) acc :: above), acc_i, wd_i, below.
    split; [|split; [|split; [|split]]]; auto.
    + simpl. unfold bind, get_dirty. rewrite Hl0, Ha. reflexivity.
    + simpl. unfold bind, get_dirty. rewrite Hl0. exact Ho.
    + congruence.
Qed.

(** C9.  When the loop reaches a layer without graphics, with the list
    [dirty_opaque] that the layers before it have left, the entry of the
    layer is [mk_disjoint dirty dirty_opaque], no call is made, every
    dirty rect is appended unchanged to [dirty_opaque], the loop goes on
    over the later layers with that list, and [dirty_by_layer] is empty
    for every one of them. *)
Theorem occlude_empty_layer (before after : list (list gid))
        (wd wd' : World) (dirty_by_layer : list (list GAME_Rect))
        (Hrun : occlude m (before ++ [] :: after) [] wd = Done dirty_by_layer wd') :
  exists above dirty_opaque wd_i below,
    occlude m before [] wd = Done above wd_i /\
    opaque_after m before [] wd = Done dirty_opaque wd_i /\
    layer_opaque m [] (dirty wd) wd_i = Done (dirty wd) wd_i /\
    opaque_after m (before ++ [[]]) [] wd = Done (dirty_opaque ++ dirty wd) wd_i /\
    occlude m after (dirty_opaque ++ dirty wd) wd_i = Done below wd' /\
    dirty_by_layer = above ++ mk_disjoint (dirty wd) dirty_opaque :: below /\
    Forall (fun rects => rects = []) below.
Proof.
  destruct (occlude_app _ _ _ _ _ _ Hrun)
    as (above & acc_i & wd_i & rest & Ha & Ho & Hrest & Hd & ->).
  destruct (occlude_cons _ _ _ _ _ _ Hrest) as (l & wd_l & below & Hl & Hb & ->).
  rewrite layer_opaque_empty_layer in Hl. inversion Hl; subst l wd_l. clear Hl.
  rewrite Hd in Hb.
  exists above, acc_i, wd_i, below.
  split; [exact Ha|]. split; [exact Ho|].
  split; [apply layer_opaque_empty_layer|].
  split; [|split; [exact Hb|split; [now rewrite Hd|]]].
  - clear - Ho Hd. revert Ho Hd. generalize (@nil GAME_Rect) as acc.
    revert wd. induction before as [|gs0 before IH]; intros wd acc Ho Hd.
    + simpl in Ho. inversion Ho; subst. simpl. unfold bind, get_dirty.
      rewrite layer_opaque_empty_layer. reflexivity.
    + simpl in Ho |- *. unfold bind, get_dirty in Ho |- *.
      pose proof (layer_opaque_post gs0 (dirty wd) wd) as Hp.
      destruct (layer_opaque m gs0 (dirty wd) wd) as [l0 wd1|wd1]; [|discriminate].
      simpl in Hp. destruct Hp as (_ & Hd1 & _).
      rewrite <- Hd1. apply IH; [exact Ho | congruence].
  - apply (occlude_all_nil _ _ _ _ _ Hb).
    intros px py (r & Hr & Hi). rewrite Hd in Hr. exists r.
    split; [apply in_or_app; now right | exact Hi].
Qed.

(** *** The draw pass *)

Lemma draws_only_refl wd : draws_only wd wd.
Proof.
  split; auto. exists []. rewrite app_nil_r. split; [reflexivity | constructor].
Qed.

Lemma draws_only_heap wd hp : draws_only wd (mkWorld hp (dirty wd) (calls wd)).
Proof.
  split; auto. exists []. simpl. rewrite app_nil_r. split; [reflexivity | constructor].
Qed.

Lemma draws_only_trans wd1 wd2 wd3 :
  draws_only wd1 wd2 -> draws_only wd2 wd3 -> draws_only wd1 wd3.
Proof.
  intros (D1 & l1 & E1 & F1) (D2 & l2 & E2 & F2).
  split; [congruence|].
  exists (l1 ++ l2). split; [rewrite E2, E1, app_assoc; reflexivity|].
  apply Forall_app. auto.
Qed.

Lemma draw_graphic_done rects g wd wd' :
  draw_graphic m rects g wd = Done tt wd' ->
  _dirty (heap wd' g) = [] /\
  (forall g', g' <> g -> heap wd' g' = heap wd g') /\
  draws_only wd wd'.
Proof.
  unfold draw_graphic, bind, getattrs, setattrs, call_draw, ret. simpl.
  set (draw_in := filter nonempty_rect
                         (map (fun r => clip (_postrot_rect (heap wd g)) r) rects)).
  destruct (visible (heap wd g)); [destruct (0 <? len draw_in)|].
  - destruct (_draw m g (heap wd g) draw_in) as [s|]; [|discriminate].
    simpl. intros Hd. inversion Hd; subst; simpl.
    split; [now rewrite upd_same|]. split.
    + intros g' Hne. now rewrite !upd_other.
    + split; auto. exists [CallDraw g draw_in]. split; auto.
      constructor; [eauto | constructor].
  - intros Hd. inversion Hd; subst; simpl.
    split; [now rewrite upd_same|]. split.
    + intros g' Hne. now rewrite upd_other.
    + apply draws_only_heap.
  - intros Hd. inversion Hd; subst; simpl.
    split; [now rewrite upd_same|]. split.
    + intros g' Hne. now rewrite upd_other.
    + apply draws_only_heap.
Qed.

Lemma draw_graphic_raised rects g wd wd' :
  draw_graphic m rects g wd = Raised wd' ->
  exists draw_in,
    calls wd' = calls wd ++ [CallDraw g draw_in] /\
    _draw m g (heap wd' g) draw_in = None /\
    heap wd' = heap wd /\ dirty wd' = dirty wd.
Proof.
  unfold draw_graphic, bind, getattrs, setattrs, call_draw, ret. simpl.
  set (draw_in := filter nonempty_rect
                         (map (fun r => clip (_postrot_rect (heap wd g)) r) rects)).
  destruct (visible (heap wd g)); [destruct (0 <? len draw_in)|]; try discriminate.
  destruct (_draw m g (heap wd g) draw_in) as [s|] eqn:Hdraw; [discriminate|].
  intros Hr. inversion Hr; subst; simpl. exists draw_in. auto.
Qed.

Lemma draw_layers_flat graphics dirty_by_layer wd :
  draw_layers m graphics dirty_by_layer wd =
  for_each (draw_items graphics dirty_by_layer)
           (fun p => draw_graphic m (snd (fst p)) (snd p)) wd.
Proof.
  unfold draw_layers, draw_items.
  apply (for_each_nested _ (@fst (list gid) (list GAME_Rect))
                         (fun l : list gid * list GAME_Rect =>
                            draw_graphic m (snd l))).
Qed.

Lemma map_fst_combine {A B} (l : list A) (l' : list B) :
  length l = length l' -> map fst (combine l l') = l.
Proof.
  revert l'. induction l as [|a l IH]; intros [|b l'] Hlen; simpl in *;
    try discriminate; auto.
  f_equal. apply IH. lia.
Qed.

Lemma draw_items_gids graphics dirty_by_layer :
  length dirty_by_layer = length graphics ->
  map snd (draw_items graphics dirty_by_layer) = concat (rev graphics).
Proof.
  intros Hlen. unfold draw_items.
  rewrite <- (map_fst_combine graphics dirty_by_layer) at 2 by lia.
  rewrite <- map_rev.
  induction (rev (combine graphics dirty_by_layer)) as [|a l IH]; simpl; auto.
  rewrite map_app, IH, map_map. simpl. now rewrite map_id.
Qed.

Lemma draw_items_done (items : list ((list gid * list GAME_Rect) * gid)) :
  forall wd wd',
  for_each items (fun p => draw_graphic m (snd (fst p)) (snd p)) wd = Done tt wd' ->
  (forall g, In g (map snd items) -> _dirty (heap wd' g) = []) /\
  (forall g, ~ In g (map snd items) -> heap wd' g = heap wd g) /\
  draws_only wd wd'.
Proof.
  induction items as [|[a g] items IH]; intros wd wd' Hd; simpl in Hd.
  - inversion Hd; subst. split; [intros g []|]. split; auto. apply draws_only_refl.
  - unfold bind in Hd.
    destruct (draw_graphic m (snd a) g wd) as [[] wd1|wd1] eqn:Hg; [|discriminate].
    simpl in Hg.
    destruct (draw_graphic_done _ _ _ _ Hg) as (Hnil & Hframe & Hdraws).
    destruct (IH _ _ Hd) as (Hnil' & Hframe' & Hdraws').
    split; [|split].
    + intros g' [Heq|Hin]; [subst g'|now apply Hnil'].
      destruct (in_dec Nat.eq_dec g (map snd items)) as [Hin|Hnin];
        [now apply Hnil'|].
      simpl. now rewrite (Hframe' g Hnin).
    + intros g' Hnin. simpl in Hnin.
      rewrite Hframe' by tauto. apply Hframe. intros ->. tauto.
    + eapply draws_only_trans; eauto.
Qed.

Lemma in_concat_rev {A} (ls : list (list A)) a :
  In a (concat (rev ls)) <-> In a (concat ls).
Proof.
  rewrite !in_concat. split; intros (l & Hl & Ha); exists l;
    (split; [|exact Ha]); [now apply in_rev | now apply in_rev in Hl].
Qed.

(** C10.  When the collection pass has gone through, [_pre_draw] has been
    called on every graphic and every [was_visible] holds the value of
    [visible] (a graphic that occurs once is as [_pre_draw] returned it,
    but for [was_visible]), also when [fastdraw] then returns [Py_False];
    in that case the world is left as the collection pass made it, and
    the pass does not write [_dirty].  The [_dirty] lists are emptied by
    the draw pass, for every graphic. *)
Theorem fastdraw_dirty_state (graphics : list (list gid))
        (wd wd1 : World)
        (Hcollect : collect m graphics wd = Done tt wd1) :
  (calls wd1 = calls wd ++ map CallPreDraw (concat graphics) /\
   (forall g, In g (concat graphics) ->
              was_visible (heap wd1 g) = visible (heap wd1 g)) /\
   (NoDup (concat graphics) ->
    forall g, In g (concat graphics) ->
              exists s, _pre_draw m g (heap wd g) = Some s /\
                        heap wd1 g = set_was_visible (visible s) s)) /\
  (dirty wd1 = [] ->
   fastdraw m graphics wd = Done Py_False wd1 /\
   (pre_draw_keeps_dirty m ->
    forall g, _dirty (heap wd1 g) = _dirty (heap wd g))) /\
  (forall rtn wd',
      fastdraw m graphics wd = Done (PyList rtn) wd' ->
      forall g, In g (concat graphics) -> _dirty (heap wd' g) = []).
Proof.
  pose proof Hcollect as Hc. rewrite collect_flat in Hc.
  destruct (collect_ids_done _ _ _ Hc) as (Hcalls & Hvis & _ & _ & Hkeep).
  split; [split; [exact Hcalls | split; [exact Hvis|]]|].
  { intros Hnd. exact (collect_ids_once _ _ _ Hc Hnd). }
  split.
  - intros Hnone. split; [|exact Hkeep].
    rewrite fastdraw_unfold, Hcollect, Hnone. reflexivity.
  - intros rtn wd' Hfd g Hg.
    rewrite fastdraw_unfold, Hcollect in Hfd.
    destruct (len (dirty wd1) =? 0); [discriminate|].
    destruct (occlude m graphics [] wd1) as [dbl wd2|wd2] eqn:Hocc; [|discriminate].
    destruct (draw_layers m graphics dbl wd2) as [[] wd3|wd3] eqn:Hdraw;
      [|discriminate].
    inversion Hfd; subst. rewrite draw_layers_flat in Hdraw.
    destruct (draw_items_done _ _ _ Hdraw) as (Hnil & _).
    apply Hnil. rewrite draw_items_gids by (eapply occlude_length; eauto).
    now apply in_concat_rev.
Qed.

(** *** A callback that raises *)

(** The first graphic keeps its refreshed [was_visible] when [_pre_draw]
    of the second raises. *)
Lemma raised_keeps_refreshed_cache : ~ raised_restores_dirty_state.
Proof.
  intros Hspec.
  pose proof (Hspec ex_second_raises [[0%nat; 1%nat]]
                     (mkWorld (fun _ => ex_shown) [] [])) as H.
  destruct (fastdraw ex_second_raises [[0%nat; 1%nat]]
                     (mkWorld (fun _ => ex_shown) [] [])) as [a wd1|wd1] eqn:E;
    vm_compute in E; [discriminate|].
  destruct (H wd1 eq_refl 0%nat) as [_ Hwas].
  inversion E; subst wd1. vm_compute in Hwas. discriminate.
Qed.

(** C6, as the code has it.  When a callback raises, [fastdraw] stops at
    once: the call that raised is the last call made.  Nothing is rolled
    back.  If [_pre_draw] raised, the graphics collected before have
    their [was_visible] refreshed and the others are as before the call;
    if [_opaque_in] raised, the world is the one the collection pass
    left, with every [was_visible] refreshed; if [_draw] raised, the
    graphics handled before by the draw pass have an empty [_dirty]. *)
Theorem fastdraw_raised_no_rollback (graphics : list (list gid))
        (wd wd' : World)
        (Hraised : fastdraw m graphics wd = Raised wd') :
  exists pre c,
    calls wd' = calls wd ++ pre ++ [c] /\
    call_raises m wd' c /\
    match c with
    | CallPreDraw g =>
        exists done todo,
          concat graphics = done ++ g :: todo /\
          (forall g', In g' done ->
                      was_visible (heap wd' g') = visible (heap wd' g')) /\
          (forall g', ~ In g' done -> heap wd' g' = heap wd g')
    | CallOpaqueIn g r =>
        exists wd1,
          collect m graphics wd = Done tt wd1 /\
          heap wd' = heap wd1 /\ dirty wd' = dirty wd1 /\
          (forall g', In g' (concat graphics) ->
                      was_visible (heap wd' g') = visible (heap wd' g'))
    | CallDraw g rects =>
        exists done todo,
          concat (rev graphics) = done ++ g :: todo /\
          (forall g', In g' done -> _dirty (heap wd' g') = [])
    end.
Proof.
  rewrite fastdraw_unfold in Hraised.
  destruct (collect m graphics wd) as [[] wd1|wd1] eqn:Hcollect.
  - pose proof Hcollect as Hc. rewrite collect_flat in Hc.
    destruct (collect_ids_done _ _ _ Hc) as (Hcalls & Hvis & _).
    destruct (len (dirty wd1) =? 0); [discriminate|].
    pose proof (occlude_post graphics [] wd1) as Hpost.
    destruct (occlude m graphics [] wd1) as [dbl wd2|wd2] eqn:Hocc.
    + (* the draw pass raised *)
      destruct Hpost as (_ & _ & asked & Hasked & _).
      destruct (draw_layers m graphics dbl wd2) as [[] wd3|wd3] eqn:Hdraw;
        [discriminate|].
      inversion Hraised; subst wd3. rewrite draw_layers_flat in Hdraw.
      destruct (for_each_raised _ _ _ _ Hdraw)
        as (done & [a g] & todo & wd3 & Hitems & Hdone & Hfail).
      simpl in Hfail.
      destruct (draw_graphic_raised _ _ _ _ Hfail)
        as (draw_in & Hc' & Hnone & Hheap & _).
      destruct (draw_items_done _ _ _ Hdone) as (Hnil & _ & _ & drawn & Hdrawn & _).
      exists (map CallPreDraw (concat graphics) ++ asked ++ drawn), (CallDraw g draw_in).
      split; [|split].
      * rewrite Hc', Hdrawn, Hasked, Hcalls, <- !app_assoc. reflexivity.
      * exact Hnone.
      * exists (map snd done), (map snd todo). split.
        -- rewrite <- (draw_items_gids graphics dbl) by (eapply occlude_length; eauto).
           rewrite Hitems, map_app. reflexivity.
        -- intros g' Hg'. rewrite Hheap. now apply Hnil.
    + (* the occlusion pass raised *)
      inversion Hraised; subst wd2.
      destruct Hpost as [(Hheap & Hdirty & _) (g & r & pre & Hc' & Hnone)].
      exists (map CallPreDraw (concat graphics) ++ pre), (CallOpaqueIn g r).
      split; [|split].
      * rewrite Hc', Hcalls, <- !app_assoc. reflexivity.
      * exact Hnone.
      * exists wd1. repeat split; auto. intros g' Hg'. rewrite Hheap. now apply Hvis.
  - (* the collection pass raised *)
    inversion Hraised; subst wd1. rewrite collect_flat in Hcollect.
    destruct (for_each_raised _ _ _ _ Hcollect)
      as (done & g & todo & wd1 & Hids & Hdone & Hfail).
    destruct (collect_ids_done _ _ _ Hdone) as (Hcalls & Hvis & Hframe & _).
    destruct (_pre_draw m g (heap wd1 g)) as [s|] eqn:Hpre.
    { rewrite (collect_graphic_done _ _ _ Hpre) in Hfail. discriminate. }
    rewrite (collect_graphic_raised _ _ Hpre) in Hfail.
    inversion Hfail; subst wd'. simpl.
    exists (map CallPreDraw done), (CallPreDraw g). split; [|split].
    + rewrite Hcalls, <- app_assoc. reflexivity.
    + exact Hpre.
    + exists done, todo. auto.
Qed.

(** *** Opaque graphics *)

Lemma opaque_chain_all_opaque gs r :
  nonempty_rect r = true ->
  forall wd,
  (forall g, In g gs ->
             holds (_postrot_rect (heap wd g)) r /\
             _opaque_in m g (heap wd g) r = Some true) ->
  exists wd', opaque_chain m gs r wd = Done (r, true) wd'.
Proof.
  intros Hne. induction gs as [|g gs IH]; intros wd Hall; simpl.
  - eexists. reflexivity.
  - destruct (Hall g (or_introl eq_refl)) as [Hholds Hop].
    unfold bind, getattrs, call_opaque_in. simpl.
    rewrite (clip_inside _ _ Hne Hholds), Hop.
    fold (nonempty_rect r). rewrite Hne. simpl.
    apply IH. intros g' Hg'. simpl. apply Hall. now right.
Qed.

Lemma layer_opaque_keeps gs r :
  nonempty_rect r = true ->
  forall rects wd l wd',
  layer_opaque m gs rects wd = Done l wd' ->
  In r rects ->
  (forall g, In g gs ->
             holds (_postrot_rect (heap wd g)) r /\
             _opaque_in m g (heap wd g) r = Some true) ->
  In r l.
Proof.
  intros Hne. induction rects as [|r0 rects IH]; intros wd l wd' Hl Hin Hall;
    [contradiction|].
  simpl in Hl. unfold bind in Hl.
  pose proof (opaque_chain_post gs r0 wd) as Hpost.
  destruct (opaque_chain m gs r0 wd) as [c wd1|wd1] eqn:Hc; [|discriminate].
  destruct (layer_opaque m gs rects wd1) as [l1 wd2|wd2] eqn:Hl1; [|discriminate].
  inversion Hl; subst. destruct Hpost as (Hheap & _).
  destruct Hin as [->|Hin].
  - destruct (opaque_chain_all_opaque gs r Hne wd Hall) as (wd0 & Hc0).
    rewrite Hc0 in Hc. inversion Hc; subst. simpl. auto.
  - assert (In r l1).
    { apply (IH _ _ _ Hl1 Hin). intros g Hg. rewrite Hheap. now apply Hall. }
    destruct (snd c); simpl; auto.
Qed.

(** The layer of graphics [0] and [1]: graphic [0] is opaque over the
    dirty rect, graphic [1] does not meet it, and the rect stays dirty
    for the layer after. *)
Lemma one_opaque_graphic_does_not_hide : ~ one_opaque_graphic_hides.
Proof.
  intros Hspec.
  pose proof (Hspec ex_all_opaque [] [0%nat; 1%nat] [[2%nat]]
                     (mkWorld ex_heap [PyRect_New4 0 0 10 10] [])) as H.
  destruct (occlude ex_all_opaque ([] ++ [0%nat; 1%nat] :: [[2%nat]]) []
                    (mkWorld ex_heap [PyRect_New4 0 0 10 10] []))
    as [dbl wd1|wd1] eqn:E; vm_compute in E; [|discriminate].
  inversion E; subst dbl wd1. clear E.
  apply (H _ _ (PyRect_New4 0 0 10 10) 0%nat ltac:(discriminate)
           ltac:(simpl; auto) eq_refl ltac:(simpl; auto)
           ltac:(vm_compute; intuition discriminate) eq_refl
           1%nat [PyRect_New4 0 0 10 10] ltac:(simpl; lia) eq_refl 0 0).
  - vm_compute. intuition discriminate.
  - exists (PyRect_New4 0 0 10 10). split; [simpl; auto|].
    vm_compute. intuition discriminate.
Qed.

(** C2, as the code has it.  In a frame in which no sum and no difference
    of coordinates overflows, a dirty rect that every graphic of a layer
    holds whole and reports opaque is outside [dirty_by_layer] for every
    later layer. *)
Theorem all_opaque_graphics_hide (before : list (list gid))
        (gs : list gid) (after : list (list gid)) (wd wd' : World)
        (dirty_by_layer : list (list GAME_Rect)) (r : GAME_Rect)
        (Hfit : frame_fits (before ++ gs :: after) wd)
        (Hr : In r (dirty wd))
        (Hrun : occlude m (before ++ gs :: after) [] wd = Done dirty_by_layer wd')
        (Hall : forall g, In g gs ->
                          holds (_postrot_rect (heap wd g)) r /\
                          _opaque_in m g (heap wd g) r = Some true) :
  forall j rects,
    (length before < j)%nat -> nth_error dirty_by_layer j = Some rects ->
    forall px py, inside r px py -> ~ covered rects px py.
Proof.
  intros j rects Hj Hnth px py Hin.
  destruct (occlude_at _ _ _ _ _ _ _ Hrun)
    as (acc_i & wd_i & l & wd_l & above & below & Hask & _ & Hl & Hb & -> & Hlen).
  destruct Hask as (Hheap & Hdirty & _).
  assert (Hrl : In r l).
  { apply (layer_opaque_keeps gs r (inside_nonempty _ _ _ Hin) _ _ _ _ Hl).
    - now rewrite Hdirty.
    - intros g Hg. rewrite Hheap. now apply Hall. }
  rewrite nth_error_app2 in Hnth by lia. rewrite Hlen in Hnth.
  destruct (j - length before)%nat as [|k] eqn:Hk; [lia|]. simpl in Hnth.
  apply (occlude_excludes _ _ _ _ _ Hb rects px py).
  - eapply nth_error_In; eauto.
  - exists r. split; [apply in_or_app; now right | exact Hin].
Qed.

End Passes.

(** ** Idempotence *)

Lemma sorted_cases {A} (R : A -> A -> Prop) l a b :
  StronglySorted R l -> In a l -> In b l -> a = b \/ R a b \/ R b a.
Proof.
  induction 1 as [|c l Hs IH Hall]; intros Ha Hb; [contradiction|].
  rewrite Forall_forall in Hall.
  destruct Ha as [->|Ha], Hb as [->|Hb]; auto.
Qed.

(** Two lists sorted by an order without cycles, with the same members,
    are the same list. *)
Lemma sorted_unique {A} (R : A -> A -> Prop) (P : A -> Prop) l1 :
  (forall a b, P a -> P b -> R a b -> R b a -> False) ->
  forall l2,
  StronglySorted R l1 -> StronglySorted R l2 ->
  Forall P l1 -> Forall P l2 ->
  (forall a, In a l1 <-> In a l2) -> l1 = l2.
Proof.
  intros Hasym. induction l1 as [|a l1 IH]; intros l2 H1 H2 P1 P2 Hsame.
  - destruct l2 as [|b l2]; auto. exfalso. apply (Hsame b). simpl. auto.
  - destruct l2 as [|b l2]; [exfalso; apply (Hsame a); simpl; auto|].
    inversion H1 as [|? ? H1' F1]; subst. inversion H2 as [|? ? H2' F2]; subst.
    inversion P1 as [|? ? Pa P1']; subst. inversion P2 as [|? ? Pb P2']; subst.
    rewrite Forall_forall in F1, F2, P1', P2'.
    assert (a = b).
    { destruct (proj1 (Hsame a) (or_introl eq_refl)) as [Heq|Hin]; auto.
      destruct (proj2 (Hsame b) (or_introl eq_refl)) as [Heq|Hin']; auto.
      exfalso. apply (Hasym a b); auto. }
    subst b. f_equal. apply IH; auto; try (apply Forall_forall; auto).
    intros c. split; intros Hc.
    + destruct (proj1 (Hsame c) (or_intror Hc)) as [<-|Hin]; auto.
      exfalso. apply (Hasym a a); auto.
    + destruct (proj2 (Hsame c) (or_intror Hc)) as [<-|Hin]; auto.
      exfalso. apply (Hasym a a); auto.
Qed.

Lemma rect_before_asym a b :
  nonempty a -> nonempty b -> rect_before a b -> rect_before b a -> False.
Proof. unfold nonempty, rect_before. lia. Qed.

Lemma rect_eq a b : x a = x b -> y a = y b -> w a = w b -> h a = h b -> a = b.
Proof. destruct a, b; simpl; intros; subst; reflexivity. Qed.

(** A member of one sorted list is a member of another sorted list of
    the same region, when the rows of the two lists agree. *)
Lemma sorted_region_member O1 O2 r1 :
  StronglySorted rect_before O1 -> StronglySorted rect_before O2 ->
  Forall nonempty O1 -> Forall nonempty O2 ->
  (forall px py, covered O1 px py <-> covered O2 px py) ->
  (forall a b, In a O1 -> In b O2 -> rows_apart a b) ->
  In r1 O1 -> In r1 O2.
Proof.
  intros S1 S2 N1 N2 Hreg Hrows Hr1.
  rewrite Forall_forall in N1, N2.
  pose proof (N1 _ Hr1) as [Hw1 Hh1].
  (* the rectangle of [O2] at the top left corner of [r1] *)
  destruct (proj1 (Hreg (x r1) (y r1))) as (r2 & Hr2 & Hin2).
  { exists r1. split; [exact Hr1|]. unfold inside. lia. }
  pose proof (N2 _ Hr2) as [Hw2 Hh2].
  assert (Hrow : y r1 = y r2 /\ h r1 = h r2).
  { destruct (Hrows _ _ Hr1 Hr2) as [H|H]; auto.
    unfold inside in Hin2. lia. }
  destruct Hrow as [Hy Hh].
  assert (Hx : x r2 = x r1).
  { destruct (Z.eq_dec (x r2) (x r1)) as [|Hne]; auto. exfalso.
    destruct (proj2 (Hreg (x r1 - 1) (y r1))) as (r & Hr & Hin).
    { exists r2. split; [exact Hr2|]. unfold inside in *. lia. }
    pose proof (N1 _ Hr) as [Hw Hh'].
    destruct (sorted_cases _ _ _ _ S1 Hr Hr1) as [->|[H|H]];
      unfold rect_before, inside in *; lia. }
  assert (Hw : x r2 + w r2 = x r1 + w r1).
  { destruct (Z.lt_trichotomy (x r2 + w r2) (x r1 + w r1)) as [Hlt|[Heq|Hgt]];
      auto; exfalso.
    - destruct (proj1 (Hreg (x r2 + w r2) (y r1))) as (r & Hr & Hin).
      { exists r1. split; [exact Hr1|]. unfold inside. lia. }
      pose proof (N2 _ Hr) as [Hw Hh'].
      destruct (sorted_cases _ _ _ _ S2 Hr Hr2) as [->|[H|H]];
        unfold rect_before, inside in *; lia.
    - destruct (proj2 (Hreg (x r1 + w r1) (y r1))) as (r & Hr & Hin).
      { exists r2. split; [exact Hr2|]. unfold inside. lia. }
      pose proof (N1 _ Hr) as [Hw Hh'].
      destruct (sorted_cases _ _ _ _ S1 Hr Hr1) as [->|[H|H]];
        unfold rect_before, inside in *; lia. }
  replace r1 with r2; [exact Hr2|]. apply rect_eq; lia.
Qed.

Lemma rows_apart_sym a b : rows_apart a b -> rows_apart b a.
Proof. unfold rows_apart. lia. Qed.

Lemma sorted_region_unique O1 O2 :
  StronglySorted rect_before O1 -> StronglySorted rect_before O2 ->
  Forall nonempty O1 -> Forall nonempty O2 ->
  (forall px py, covered O1 px py <-> covered O2 px py) ->
  (forall a b, In a O1 -> In b O2 -> rows_apart a b) ->
  O1 = O2.
Proof.
  intros S1 S2 N1 N2 Hreg Hrows.
  apply (sorted_unique rect_before nonempty); auto.
  { intros a b. apply rect_before_asym. }
  intros r. split.
  - now apply sorted_region_member.
  - apply sorted_region_member; auto.
    + intros px py. symmetry. apply Hreg.
    + intros a b Ha Hb. apply rows_apart_sym. auto.
Qed.

Lemma mk_disjoint_all_nonempty add rm : Forall nonempty (mk_disjoint add rm).
Proof.
  apply Forall_forall. intros r Hr. apply nonempty_rect_spec.
  eapply mk_disjoint_nonempty; eauto.
Qed.

(** In a sorted list, the row of a member is a cell of the sorted y
    edges of the list: no edge lies strictly inside it. *)
Lemma sorted_row_no_edge O r z :
  StronglySorted rect_before O -> Forall nonempty O -> In r O ->
  (exists r2, In r2 O /\ y_edge_of r2 z) ->
  ~ (y r < z < y r + h r).
Proof.
  intros S N Hr (r2 & Hr2 & Hz) Hbetween.
  rewrite Forall_forall in N.
  pose proof (N _ Hr) as [Hw Hh]. pose proof (N _ Hr2) as [Hw2 Hh2].
  destruct (sorted_cases _ _ _ _ S Hr Hr2) as [<-|[H|H]];
    unfold rect_before, y_edge_of in *; lia.
Qed.

(** The rows of [mk_disjoint O []] agree with the rows of a sorted [O]. *)
Lemma mk_disjoint_rows_apart O r r' :
  StronglySorted rect_before O -> Forall nonempty O ->
  In r O -> In r' (mk_disjoint O []) -> rows_apart r r'.
Proof.
  intros S N Hr Hr'.
  destruct (edges_of_ascending O []) as [_ Hy].
  destruct (mk_disjoint_run O [] r' Hr') as (i & c0 & c1 & Hi & _ & ->).
  pose proof (proj1 (Forall_forall _ _) N _ Hr) as [Hw Hh].
  assert (Hedge : forall z, y_edge_of r z -> In z (snd (edges_of O []))).
  { intros z Hz. apply (edges_of_In O [] z). exists r.
    split; [apply in_or_app; now left | exact Hz]. }
  destruct (In_get _ _ (Hedge (y r) (or_introl eq_refl))) as (a & Ha & Ea).
  destruct (In_get _ _ (Hedge (y r + h r) (or_intror eq_refl))) as (b & Hb & Eb).
  assert (Hab : a < b) by (apply (ascending_lt_inv _ a b Hy); auto; lia).
  assert (Hb1 : b = a + 1).
  { destruct (Z.eq_dec b (a + 1)) as [|Hne]; auto. exfalso.
    apply (sorted_row_no_edge O r (get (snd (edges_of O [])) (a + 1)) S N Hr).
    - assert (Hin : In (get (snd (edges_of O [])) (a + 1)) (snd (edges_of O [])))
        by (apply get_In; lia).
      apply (edges_of_In O []) in Hin. destruct Hin as (r2 & Hr2 & Hz).
      rewrite app_nil_r in Hr2. eauto.
    - pose proof (Hy a (a + 1) ltac:(lia) ltac:(lia)).
      pose proof (Hy (a + 1) b ltac:(lia) ltac:(lia)). lia. }
  subst b. unfold rows_apart, run_rect. cbn [x y w h fst snd].
  destruct (Z.lt_trichotomy i a) as [Hlt|[->|Hgt]].
  - right. right.
    pose proof (ascending_le _ (i + 1) a Hy ltac:(lia) ltac:(lia)). lia.
  - left. lia.
  - right. left.
    pose proof (ascending_le _ (a + 1) i Hy ltac:(lia) ltac:(lia)). lia.
Qed.

(** Two rectangles side by side whose joint width does not fit an [int]:
    the width of the one rectangle of the result wraps around to a
    negative number, and the second call returns the empty list. *)
Lemma idempotence_overflows : ~ idempotent_on_every_list.
Proof.
  intros H.
  specialize (H [PyRect_New4 (-2000000000) 0 2000000000 1;
                 PyRect_New4 0 0 2000000000 1] []).
  vm_compute in H. discriminate.
Qed.

(** C5, as the code has it.  When no sum and no difference of coordinates
    of [add] and [rm] overflows, [mk_disjoint] with an empty [rm],
    applied to a result of [mk_disjoint], gives that result back: the
    same rectangles in the same order. *)
Theorem mk_disjoint_idempotent (add rm : list GAME_Rect)
        (Hfit : no_overflow (add ++ rm)) :
  mk_disjoint_int (mk_disjoint_int add rm) [] = mk_disjoint_int add rm.
Proof.
  rewrite (mk_disjoint_int_exact add rm Hfit).
  rewrite mk_disjoint_int_exact
    by (rewrite app_nil_r; apply mk_disjoint_no_overflow; exact Hfit).
  apply sorted_region_unique.
  - apply mk_disjoint_sorted.
  - apply mk_disjoint_sorted.
  - apply mk_disjoint_all_nonempty.
  - apply mk_disjoint_all_nonempty.
  - intros px py. rewrite mk_disjoint_region. split; [tauto|].
    intros H. split; [exact H|]. intros (r & [] & _).
  - intros a b Ha Hb. apply rows_apart_sym.
    exact (mk_disjoint_rows_apart (mk_disjoint add rm) b a
             (mk_disjoint_sorted add rm) (mk_disjoint_all_nonempty add rm) Hb Ha).
Qed.

(** ** The pivot stack of [quicksort] stays inside its arrays *)

(** What an iteration does to the stack: a pop, or the split of the top
    segment with the smaller part on top. *)
Lemma qs_step_shape orig arr b e rest arr' stack' :
  qs_inv orig arr ((b, e) :: rest) ->
  qs_step (arr, (b, e) :: rest) = Some (arr', stack') ->
  (e - 1 <= b /\ stack' = rest) \/
  (b < e - 1 /\
   exists small large,
     stack' = small :: large :: rest /\
     0 <= snd small - fst small <= snd large - fst large /\
     (snd small - fst small) + (snd large - fst large) = e - b - 1).
Proof.
  intros Hinv Hstep. unfold qs_step in Hstep.
  destruct (Z.ltb_spec b (e - 1)) as [Hbe|Hbe].
  2:{ left. inversion Hstep. auto. }
  right. split; [exact Hbe|].
  destruct (partition (Z.to_nat (e - 1 - b)) arr (get arr b) b (e - 1))
    as [arr1 L1] eqn:Hp.
  pose proof (qi_segs _ _ _ Hinv) as Hs. inversion Hs as [|? ? [H1 H2] ?]; subst.
  simpl in H1, H2.
  assert (Hpart : part_inv arr b e (get arr b) arr1 L1 L1 L1).
  { refine (partition_spec arr b e (get arr b) _ arr b (e - 1) _ _ _ _ Hp);
      [|lia].
    pose proof (qi_len _ _ _ Hinv) as Hlen.
    constructor; auto; try lia.
    - intros z. apply occ_set_same. lia.
    - intros k Hk. exists k. auto. }
  pose proof (pi_bounds _ _ _ _ _ _ _ _ Hpart) as Hb.
  simpl in Hstep.
  destruct (Z.gtb_spec (e - (L1 + 1)) (L1 - b)); inversion Hstep; subst.
  - exists (b, L1), (L1 + 1, e). simpl. repeat split; lia.
  - exists (L1 + 1, e), (b, L1). simpl. repeat split; lia.
Qed.

Lemma qs_step_levels orig n arr stack arr' stack' :
  qs_inv orig arr stack -> levels_ok n stack -> n < 2 ^ MAX_QSORT_LEVELS ->
  len stack <= MAX_QSORT_LEVELS ->
  qs_step (arr, stack) = Some (arr', stack') ->
  levels_ok n stack' /\ len stack' <= MAX_QSORT_LEVELS.
Proof.
  intros Hinv Hlev Hn Hlen Hstep.
  destruct stack as [|[b e] rest]; [discriminate|].
  destruct Hlev as [Htop Hrest]. simpl in Htop.
  destruct (qs_step_shape _ _ _ _ _ _ _ Hinv Hstep)
    as [[Hbe ->]|(Hbe & small & large & -> & Hsz & Hsum)].
  - split; [exact Hrest|]. unfold len in *. simpl in Hlen. lia.
  - pose proof (len_nonneg rest) as Hk.
    assert (Hpow : 0 < 2 ^ len rest) by (apply Z.pow_pos_nonneg; lia).
    assert (Hlarge : (snd large - fst large) * 2 ^ len rest <= n) by nia.
    assert (Hsmall : (snd small - fst small) * 2 ^ len (large :: rest) <= n).
    { replace (len (large :: rest)) with (len rest + 1)
        by (unfold len; simpl; lia).
      rewrite Z.pow_add_r by lia. nia. }
    split; [simpl; auto|].
    assert (Hlt : 2 ^ (len rest + 1) < 2 ^ MAX_QSORT_LEVELS).
    { rewrite Z.pow_add_r by lia. nia. }
    apply Z.pow_lt_mono_r_iff in Hlt; [|lia|unfold MAX_QSORT_LEVELS; lia].
    unfold len in *. simpl. lia.
Qed.

(** On an array of fewer than [2 ^ MAX_QSORT_LEVELS] entries, which every
    array indexed by an [int] is, [quicksort] never has more than
    [MAX_QSORT_LEVELS] slots of [beg] and [end] in use. *)
Lemma quicksort_levels arr k st :
  len arr < 2 ^ MAX_QSORT_LEVELS ->
  qs_run k (arr, [(0, len arr)]) = Some st ->
  len (snd st) <= MAX_QSORT_LEVELS.
Proof.
  intros Hn Hrun.
  assert (Hgen : forall k a stack,
             qs_inv arr a stack -> levels_ok (len arr) stack ->
             len stack <= MAX_QSORT_LEVELS ->
             qs_run k (a, stack) = Some st ->
             len (snd st) <= MAX_QSORT_LEVELS).
  { clear k Hrun. induction k as [|k IH]; intros a stack Hinv Hlev Hlen Hrun.
    - inversion Hrun; subst. exact Hlen.
    - cbn [qs_run] in Hrun.
      destruct (qs_step (a, stack)) as [[a' stack']|] eqn:Hstep; [|discriminate].
      destruct (qs_step_inv _ _ _ _ Hinv Hstep) as [Hinv' _].
      destruct (qs_step_levels _ _ _ _ _ _ Hinv Hlev Hn Hlen Hstep) as [Hlev' Hlen'].
      apply (IH a' stack'); auto. }
  apply (Hgen k arr [(0, len arr)]); auto.
  - apply qs_inv_init.
  - cbn [levels_ok fst snd]. split; auto.
    change (len (@nil (Z * Z))) with 0. rewrite Z.pow_0_r. lia.
  - change (len [(0, len arr)]) with 1. unfold MAX_QSORT_LEVELS. lia.
Qed.

(** ** The theorems at concrete frames *)

(** A list of rectangles near the origin fits the windows at [0]. *)
Lemma no_overflow_origin l :
  Forall (fun r => 0 <= x r <= 1000000 /\ 0 <= x r + w r <= 1000000 /\
                   0 <= y r <= 1000000 /\ 0 <= y r + h r <= 1000000) l ->
  no_overflow l.
Proof.
  intros Hall. exists 0, 0. unfold INT_MIN, INT_MAX.
  change (2 ^ 31) with 2147483648.
  split; [lia|]. split; [lia|].
  eapply Forall_impl; [|exact Hall]. intros r Hr. cbv beta in Hr.
  unfold rect_in, in_window, INT_MAX. change (2 ^ 31) with 2147483648. lia.
Qed.

Lemma rect_int_origin r :
  0 <= x r <= 1000000 /\ 0 <= x r + w r <= 1000000 /\
  0 <= y r <= 1000000 /\ 0 <= y r + h r <= 1000000 ->
  rect_int r.
Proof.
  unfold rect_int, int_ok, INT_MIN, INT_MAX. change (2 ^ 31) with 2147483648. lia.
Qed.

Lemma frame_fits_ex_dirty graphics : frame_fits graphics ex_dirty.
Proof.
  split.
  - apply no_overflow_origin. repeat constructor; simpl; lia.
  - intros g _. apply rect_int_origin. unfold ex_dirty, ex_heap. simpl.
    destruct (Nat.eqb g 1); simpl; lia.
Qed.

Lemma mk_disjoint_add_only_witness :
  no_overflow [PyRect_New4 0 0 3 4; PyRect_New4 2 3 4 5; PyRect_New4 9 9 0 2] /\
  forall px py,
    covered (mk_disjoint_int [PyRect_New4 0 0 3 4; PyRect_New4 2 3 4 5;
                              PyRect_New4 9 9 0 2] []) px py <->
    covered (filter nonempty_rect [PyRect_New4 0 0 3 4; PyRect_New4 2 3 4 5;
                                   PyRect_New4 9 9 0 2]) px py.
Proof.
  assert (Hfit : no_overflow [PyRect_New4 0 0 3 4; PyRect_New4 2 3 4 5;
                              PyRect_New4 9 9 0 2]).
  { apply no_overflow_origin. repeat constructor; simpl; lia. }
  split; [exact Hfit|].
  exact (proj2 (proj2 (mk_disjoint_add_only
                         [PyRect_New4 0 0 3 4; PyRect_New4 2 3 4 5;
                          PyRect_New4 9 9 0 2] Hfit))).
Defined.

Lemma mk_disjoint_idempotent_witness :
  no_overflow ([PyRect_New4 0 0 3 4; PyRect_New4 2 3 4 5] ++ [PyRect_New4 1 1 1 1]) /\
  mk_disjoint_int (mk_disjoint_int [PyRect_New4 0 0 3 4; PyRect_New4 2 3 4 5]
                                   [PyRect_New4 1 1 1 1]) [] =
  mk_disjoint_int [PyRect_New4 0 0 3 4; PyRect_New4 2 3 4 5] [PyRect_New4 1 1 1 1].
Proof.
  assert (Hfit : no_overflow ([PyRect_New4 0 0 3 4; PyRect_New4 2 3 4 5] ++
                              [PyRect_New4 1 1 1 1])).
  { apply no_overflow_origin. repeat constructor; simpl; lia. }
  split; [exact Hfit|].
  exact (mk_disjoint_idempotent [PyRect_New4 0 0 3 4; PyRect_New4 2 3 4 5]
                                [PyRect_New4 1 1 1 1] Hfit).
Defined.


Lemma fastdraw_nothing_dirty_witness :
  (collect ex_all_opaque [[0%nat]] ex_clean =
   Done tt (world_of (collect ex_all_opaque [[0%nat]] ex_clean)) /\
   dirty ex_clean = [] /\
   dirty (world_of (collect ex_all_opaque [[0%nat]] ex_clean)) = dirty ex_clean) /\
  (fastdraw ex_all_opaque [[0%nat]] ex_clean =
   Done Py_False (world_of (collect ex_all_opaque [[0%nat]] ex_clean)) /\
   exists made,
     calls (world_of (collect ex_all_opaque [[0%nat]] ex_clean)) =
     calls ex_clean ++ made /\
     forall g rects, ~ In (CallDraw g rects) made).
Proof.
  split; [repeat split|].
  apply (fastdraw_nothing_dirty ex_all_opaque [[0%nat]] ex_clean
           (world_of (collect ex_all_opaque [[0%nat]] ex_clean)));
    reflexivity.
Defined.

Lemma fastdraw_dirty_state_witness :
  (collect ex_all_opaque [[0%nat]] (mkWorld (fun _ => ex_hidden) [] []) =
   Done tt (world_of (collect ex_all_opaque [[0%nat]]
                              (mkWorld (fun _ => ex_hidden) [] []))) /\
   was_visible (heap (mkWorld (fun _ => ex_hidden) [] []) 0%nat) = true /\
   _dirty (heap (mkWorld (fun _ => ex_hidden) [] []) 0%nat) = [PyRect_New4 50 50 1 1] /\
   was_visible (heap (world_of (collect ex_all_opaque [[0%nat]]
                                        (mkWorld (fun _ => ex_hidden) [] []))) 0%nat)
   = false /\
   fastdraw ex_all_opaque [[0%nat]] (mkWorld (fun _ => ex_hidden) [] []) =
   Done (PyList [PyRect_New4 1 2 3 4])
        (world_of (fastdraw ex_all_opaque [[0%nat]]
                            (mkWorld (fun _ => ex_hidden) [] []))) /\
   _dirty (heap (world_of (fastdraw ex_all_opaque [[0%nat]]
                                    (mkWorld (fun _ => ex_hidden) [] []))) 0%nat)
   = []) /\
  (collect ex_all_opaque [[0%nat]] (mkWorld (fun _ => ex_idle) [] []) =
   Done tt (world_of (collect ex_all_opaque [[0%nat]]
                              (mkWorld (fun _ => ex_idle) [] []))) /\
   fastdraw ex_all_opaque [[0%nat]] (mkWorld (fun _ => ex_idle) [] []) =
   Done Py_False (world_of (collect ex_all_opaque [[0%nat]]
                                    (mkWorld (fun _ => ex_idle) [] []))) /\
   _dirty (heap (world_of (collect ex_all_opaque [[0%nat]]
                                   (mkWorld (fun _ => ex_idle) [] []))) 0%nat)
   = [PyRect_New4 1 1 2 2]).
Proof.
  assert (Hkeep : pre_draw_keeps_dirty ex_all_opaque).
  { intros g s s' H. simpl in H. inversion H. reflexivity. }
  destruct (fastdraw_dirty_state ex_all_opaque [[0%nat]]
              (mkWorld (fun _ => ex_hidden) [] [])
              (world_of (collect ex_all_opaque [[0%nat]]
                                 (mkWorld (fun _ => ex_hidden) [] []))) eq_refl)
    as ((_ & Hvis & _) & _ & Hlist).
  destruct (fastdraw_dirty_state ex_all_opaque [[0%nat]]
              (mkWorld (fun _ => ex_idle) [] [])
              (world_of (collect ex_all_opaque [[0%nat]]
                                 (mkWorld (fun _ => ex_idle) [] []))) eq_refl)
    as (_ & Hnone & _).
  destruct (Hnone eq_refl) as [Hfalse Hsame].
  assert (Hrun : fastdraw ex_all_opaque [[0%nat]] (mkWorld (fun _ => ex_hidden) [] []) =
                 Done (PyList [PyRect_New4 1 2 3 4])
                      (world_of (fastdraw ex_all_opaque [[0%nat]]
                                          (mkWorld (fun _ => ex_hidden) [] []))))
    by (vm_compute; reflexivity).
  split; [|split; [reflexivity | split; [exact Hfalse|]]].
  - split; [reflexivity|]. split; [reflexivity|]. split; [reflexivity|].
    split; [|split; [exact Hrun|]].
    + rewrite (Hvis 0%nat) by (simpl; auto). reflexivity.
    + apply (Hlist _ _ Hrun). simpl. auto.
  - rewrite (Hsame Hkeep 0%nat). reflexivity.
Defined.

Lemma occlude_empty_layer_witness :
  occlude ex_all_opaque ([[1%nat]] ++ [] :: [[0%nat]]) [] ex_dirty =
  Done [[PyRect_New4 0 0 10 10]; [PyRect_New4 0 0 10 10]; []]
       (world_of (occlude ex_all_opaque ([[1%nat]] ++ [] :: [[0%nat]]) [] ex_dirty)) /\
  exists above dirty_opaque wd_i below,
    occlude ex_all_opaque [[1%nat]] [] ex_dirty = Done above wd_i /\
    opaque_after ex_all_opaque [[1%nat]] [] ex_dirty = Done dirty_opaque wd_i /\
    layer_opaque ex_all_opaque [] (dirty ex_dirty) wd_i = Done (dirty ex_dirty) wd_i /\
    opaque_after ex_all_opaque ([[1%nat]] ++ [[]]) [] ex_dirty =
    Done (dirty_opaque ++ dirty ex_dirty) wd_i /\
    occlude ex_all_opaque [[0%nat]] (dirty_opaque ++ dirty ex_dirty) wd_i =
    Done below (world_of (occlude ex_all_opaque ([[1%nat]] ++ [] :: [[0%nat]]) []
                                  ex_dirty)) /\
    [[PyRect_New4 0 0 10 10]; [PyRect_New4 0 0 10 10]; []] =
    above ++ mk_disjoint (dirty ex_dirty) dirty_opaque :: below /\
    Forall (fun rects => rects = []) below.
Proof.
  split; [vm_compute; reflexivity|].
  apply (occlude_empty_layer ex_all_opaque [[1%nat]] [[0%nat]] ex_dirty
           (world_of (occlude ex_all_opaque ([[1%nat]] ++ [] :: [[0%nat]]) [] ex_dirty))
           [[PyRect_New4 0 0 10 10]; [PyRect_New4 0 0 10 10]; []]).
  vm_compute. reflexivity.
Defined.

Lemma all_opaque_graphics_hide_witness :
  (frame_fits ([] ++ [0%nat] :: [[2%nat]]) ex_dirty /\
   In (PyRect_New4 0 0 10 10) (dirty ex_dirty) /\
   occlude ex_all_opaque ([] ++ [0%nat] :: [[2%nat]]) [] ex_dirty =
   Done (value_of [] (occlude ex_all_opaque ([] ++ [0%nat] :: [[2%nat]]) [] ex_dirty))
        (world_of (occlude ex_all_opaque ([] ++ [0%nat] :: [[2%nat]]) [] ex_dirty)) /\
   (forall g, In g [0%nat] ->
              holds (_postrot_rect (heap ex_dirty g)) (PyRect_New4 0 0 10 10) /\
              _opaque_in ex_all_opaque g (heap ex_dirty g) (PyRect_New4 0 0 10 10)
              = Some true)) /\
  forall j rects,
    (length (@nil (list gid)) < j)%nat ->
    nth_error (value_of [] (occlude ex_all_opaque ([] ++ [0%nat] :: [[2%nat]]) []
                                    ex_dirty)) j = Some rects ->
    forall px py, inside (PyRect_New4 0 0 10 10) px py -> ~ covered rects px py.
Proof.
  assert (Hall : forall g, In g [0%nat] ->
            holds (_postrot_rect (heap ex_dirty g)) (PyRect_New4 0 0 10 10) /\
            _opaque_in ex_all_opaque g (heap ex_dirty g) (PyRect_New4 0 0 10 10)
            = Some true).
  { intros g [<-|[]]. split; [|reflexivity]. vm_compute. intuition discriminate. }
  split; [split; [apply frame_fits_ex_dirty|];
          split; [simpl; auto | split; [vm_compute; reflexivity | exact Hall]]|].
  apply (all_opaque_graphics_hide ex_all_opaque [] [0%nat] [[2%nat]] ex_dirty
           (world_of (occlude ex_all_opaque ([] ++ [0%nat] :: [[2%nat]]) [] ex_dirty))
           (value_of [] (occlude ex_all_opaque ([] ++ [0%nat] :: [[2%nat]]) []
                                 ex_dirty))
           (PyRect_New4 0 0 10 10)).
  - apply frame_fits_ex_dirty.
  - simpl. auto.
  - vm_compute. reflexivity.
  - exact Hall.
Defined.

Lemma fastdraw_raised_no_rollback_witness :
  fastdraw ex_second_raises [[0%nat; 1%nat]] (mkWorld (fun _ => ex_shown) [] []) =
  Raised (world_of (fastdraw ex_second_raises [[0%nat; 1%nat]]
                             (mkWorld (fun _ => ex_shown) [] []))) /\
  exists pre c,
    calls (world_of (fastdraw ex_second_raises [[0%nat; 1%nat]]
                              (mkWorld (fun _ => ex_shown) [] []))) =
    calls (mkWorld (fun _ => ex_shown) [] []) ++ pre ++ [c] /\
    call_raises ex_second_raises
                (world_of (fastdraw ex_second_raises [[0%nat; 1%nat]]
                                    (mkWorld (fun _ => ex_shown) [] []))) c.
Proof.
  split; [vm_compute; reflexivity|].
  destruct (fastdraw_raised_no_rollback ex_second_raises [[0%nat; 1%nat]]
              (mkWorld (fun _ => ex_shown) [] [])
              (world_of (fastdraw ex_second_raises [[0%nat; 1%nat]]
                                  (mkWorld (fun _ => ex_shown) [] [])))
              ltac:(vm_compute; reflexivity))
    as (pre & c & Hcalls & Hraises & _).
  exists pre, c. split; assumption.
Defined.


(** * Further properties of the helper routines *)

(** ** [quicksort] *)

Lemma get_cons_0 c t : get (c :: t) 0 = c.
Proof. reflexivity. Qed.

Lemma get_cons_succ c t i : 0 <= i -> get (c :: t) (i + 1) = get t i.
Proof.
  intros Hi. unfold get.
  destruct (Z.ltb_spec (i + 1) 0), (Z.ltb_spec i 0); try lia.
  replace (Z.to_nat (i + 1)) with (S (Z.to_nat i)) by lia. reflexivity.
Qed.

Lemma len_cons {A} (c : A) t : len (c :: t) = len t + 1.
Proof. unfold len. simpl length. lia. Qed.

(** An array whose entries are in order, index by index, is a sorted
    list. *)
Lemma ordered_sorted (R : Z -> Z -> Prop) a :
  (forall i j, 0 <= i < j -> j < len a -> R (get a i) (get a j)) ->
  StronglySorted R a.
Proof.
  induction a as [|c t IH]; intros Hord; constructor.
  - apply IH. intros i j Hij Hj.
    rewrite <- (get_cons_succ c t i), <- (get_cons_succ c t j) by lia.
    apply Hord; [lia | rewrite len_cons; lia].
  - apply Forall_forall. intros z Hz.
    destruct (In_get _ _ Hz) as (i & Hi & <-).
    rewrite <- (get_cons_0 c t), <- (get_cons_succ c t i) by lia.
    apply Hord; [lia | rewrite len_cons; lia].
Qed.

(** X1.  [quicksort] on a whole array returns the same entries, each as
    often as before, in ascending order. *)
Theorem quicksort_sorts (arr : list Z) :
  Permutation (quicksort arr (len arr)) arr /\
  StronglySorted Z.le (quicksort arr (len arr)).
Proof.
  split; [apply quicksort_perm|].
  apply ordered_sorted. intros i j Hij Hj. rewrite quicksort_len in Hj.
  now apply quicksort_ordered.
Qed.

(** X3.  The outer loop of [quicksort] is left, with [i < 0], after at
    most [2 * elements + 1] iterations. *)
Theorem quicksort_iterations (arr : list Z) :
  exists k,
    Z.of_nat k <= 2 * len arr + 1 /\
    qs_run k (arr, [(0, len arr)]) = Some (quicksort arr (len arr), []).
Proof.
  destruct (qs_loop_exits arr (Z.to_nat (2 * len arr + 1)) arr [(0, len arr)])
    as (k & Hk & Hrun).
  - apply qs_inv_init.
  - cbn [qs_measure fst snd]. pose proof (len_nonneg arr). lia.
  - exists k. split; [|exact Hrun]. pose proof (len_nonneg arr). lia.
Qed.

(** The stack is no deeper than the logarithm of the array allows. *)
Lemma qs_step_depth orig n arr stack arr' stack' :
  qs_inv orig arr stack -> levels_ok n stack ->
  len stack <= 1 \/ 2 ^ (len stack - 1) <= n ->
  qs_step (arr, stack) = Some (arr', stack') ->
  levels_ok n stack' /\ (len stack' <= 1 \/ 2 ^ (len stack' - 1) <= n).
Proof.
  intros Hinv Hlev Hdepth Hstep.
  destruct stack as [|[b e] rest]; [discriminate|].
  destruct Hlev as [Htop Hrest]. cbn [fst snd] in Htop.
  pose proof (len_nonneg rest) as Hk.
  rewrite len_cons in Hdepth.
  destruct (qs_step_shape _ _ _ _ _ _ _ Hinv Hstep)
    as [[Hbe ->]|(Hbe & small & large & -> & Hsz & Hsum)].
  - split; [exact Hrest|].
    destruct Hdepth as [Hd|Hd]; [left; lia|].
    replace (len rest + 1 - 1) with (len rest) in Hd by lia.
    destruct (Z.le_gt_cases (len rest) 1) as [|Hgt]; [now left|right].
    assert (2 ^ (len rest - 1) <= 2 ^ len rest)
      by (apply Z.pow_le_mono_r; lia).
    lia.
  - assert (Hpow : 0 < 2 ^ len rest) by (apply Z.pow_pos_nonneg; lia).
    assert (Hlarge : (snd large - fst large) * 2 ^ len rest <= n) by nia.
    assert (Hsmall : (snd small - fst small) * 2 ^ len (large :: rest) <= n).
    { rewrite len_cons, Z.pow_add_r by lia. nia. }
    split; [cbn [levels_ok]; auto|]. right.
    rewrite !len_cons.
    replace (len rest + 1 + 1 - 1) with (len rest + 1) by lia.
    rewrite Z.pow_add_r by lia. nia.
Qed.

(** X4.  While [quicksort] runs, the slots of [beg] and [end] in use are
    at most [log2 elements + 1]: the smaller part of a split is always
    the one taken next.  So the [MAX_QSORT_LEVELS] slots are enough for
    every array of fewer than [2 ^ MAX_QSORT_LEVELS] entries. *)
Theorem quicksort_stack_depth (arr : list Z) (k : nat) (st : qs_state)
        (Hrun : qs_run k (arr, [(0, len arr)]) = Some st) :
  len (snd st) <= Z.log2 (len arr) + 1 /\
  (len arr < 2 ^ MAX_QSORT_LEVELS -> len (snd st) <= MAX_QSORT_LEVELS).
Proof.
  assert (Hgen : forall k a stack,
             qs_inv arr a stack -> levels_ok (len arr) stack ->
             len stack <= 1 \/ 2 ^ (len stack - 1) <= len arr ->
             qs_run k (a, stack) = Some st ->
             len (snd st) <= 1 \/ 2 ^ (len (snd st) - 1) <= len arr).
  { clear k Hrun. induction k as [|k IH]; intros a stack Hinv Hlev Hd Hrun.
    - inversion Hrun; subst. exact Hd.
    - rewrite qs_run_S in Hrun.
      destruct (qs_step (a, stack)) as [[a' stack']|] eqn:Hstep; [|discriminate].
      destruct (qs_step_inv _ _ _ _ Hinv Hstep) as [Hinv' _].
      destruct (qs_step_depth _ _ _ _ _ _ Hinv Hlev Hd Hstep) as [Hlev' Hd'].
      apply (IH a' stack'); auto. }
  assert (Hd : len (snd st) <= 1 \/ 2 ^ (len (snd st) - 1) <= len arr).
  { apply (Hgen k arr [(0, len arr)]); auto.
    - apply qs_inv_init.
    - cbn [levels_ok fst snd]. split; auto.
      change (len (@nil (Z * Z))) with 0. rewrite Z.pow_0_r. lia.
    - left. change (len [(0, len arr)]) with 1. lia. }
  pose proof (Z.log2_nonneg (len arr)) as Hlog.
  assert (Hbound : len (snd st) <= Z.log2 (len arr) + 1).
  { destruct Hd as [Hd|Hd]; [lia|].
    destruct (Z.le_gt_cases (len (snd st)) 1) as [|Hgt]; [lia|].
    assert (Z.log2 (2 ^ (len (snd st) - 1)) <= Z.log2 (len arr))
      by (apply Z.log2_le_mono; exact Hd).
    rewrite Z.log2_pow2 in H by lia. lia. }
  split; [exact Hbound|]. intros Hn.
  destruct (Z.le_gt_cases (len arr) 0) as [Hz|Hpos].
  - assert (Z.log2 (len arr) = 0) by (apply Z.log2_nonpos; lia).
    unfold MAX_QSORT_LEVELS. lia.
  - assert (Z.log2 (len arr) < MAX_QSORT_LEVELS)
      by (apply Z.log2_lt_pow2; auto).
    lia.
Qed.

Lemma quicksort_stack_depth_witness :
  qs_run 3 ([5; 3; 9; 1], [(0, len [5; 3; 9; 1])]) =
  Some ([1; 3; 5; 9], [(0, 0); (1, 2)]) /\
  len (snd ([1; 3; 5; 9], [(0, 0); (1, 2)])) <= Z.log2 (len [5; 3; 9; 1]) + 1.
Proof.
  split; [vm_compute; reflexivity|].
  assert (Hrun : qs_run 3 ([5; 3; 9; 1], [(0, len [5; 3; 9; 1])]) =
                 Some ([1; 3; 5; 9], [(0, 0); (1, 2)]))
    by (vm_compute; reflexivity).
  exact (proj1 (quicksort_stack_depth [5; 3; 9; 1] 3
                  ([1; 3; 5; 9], [(0, 0); (1, 2)]) Hrun)).
Defined.

(** ** [find] and [set_add] *)

Lemma find_range_spec arr x count :
  forall i,
  match List.find (fun k => get arr k =? x) (range i (i + Z.of_nat count)) with
  | Some k =>
      i <= k < i + Z.of_nat count /\ get arr k = x /\
      forall j, i <= j < k -> get arr j <> x
  | None => forall j, i <= j < i + Z.of_nat count -> get arr j <> x
  end.
Proof.
  induction count as [|count IH]; intros i.
  - rewrite range_nil by lia. simpl. intros j Hj. lia.
  - rewrite range_cons by lia. cbn [List.find].
    destruct (Z.eqb_spec (get arr i) x) as [Heq|Hne].
    + split; [lia|]. split; [exact Heq|]. intros j Hj. lia.
    + specialize (IH (i + 1)).
      replace (i + 1 + Z.of_nat count) with (i + Z.of_nat (S count)) in IH by lia.
      destruct (List.find _ _) as [k|].
      * destruct IH as (Hk & Hget & Hfirst). split; [lia|]. split; [exact Hget|].
        intros j Hj. destruct (Z.eq_dec j i) as [->|Hji]; auto. apply Hfirst. lia.
      * intros j Hj. destruct (Z.eq_dec j i) as [->|Hji]; auto. apply IH. lia.
Qed.

Lemma find_present arr n x i k :
  i <= k < n -> get arr k = x ->
  i <= find arr n x i <= k /\ get arr (find arr n x i) = x.
Proof.
  intros Hk Hget. unfold find.
  pose proof (find_range_spec arr x (Z.to_nat (n - i)) i) as H.
  replace (i + Z.of_nat (Z.to_nat (n - i))) with n in H by lia.
  destruct (List.find _ _) as [f|].
  - destruct H as (Hf & Hgetf & Hfirst). split; [|exact Hgetf].
    destruct (Z.le_gt_cases f k) as [Hle|Hgt]; [lia|].
    exfalso. apply (Hfirst k); [lia | exact Hget].
  - exfalso. apply (H k); [lia | exact Hget].
Qed.

(** X5.  [find] returns the first index from [i] on, below [n], whose
    entry is [x], and [-1] when no entry from [i] on is [x] (so also when
    [n <= i]). *)
Theorem find_first_match (arr : list Z) (n x i : Z) :
  (find arr n x i = -1 /\ forall j, i <= j < n -> get arr j <> x) \/
  (i <= find arr n x i < n /\
   get arr (find arr n x i) = x /\
   forall j, i <= j < find arr n x i -> get arr j <> x).
Proof.
  unfold find.
  destruct (Z.le_gt_cases n i) as [Hle|Hgt].
  - rewrite range_nil by lia. simpl. left. split; [reflexivity|]. intros j Hj. lia.
  - pose proof (find_range_spec arr x (Z.to_nat (n - i)) i) as H.
    replace (i + Z.of_nat (Z.to_nat (n - i))) with n in H by lia.
    destruct (List.find _ _) as [k|]; [right | left]; auto.
Qed.

(** X6.  [set_add] leaves the array alone and returns [0] when [x] is
    among the entries, and else appends [x] and returns [1]: the value
    returned is the number of entries added, and an array without
    repeated entries stays so. *)
Theorem set_add_spec (arr : list Z) (x : Z) :
  (In x arr -> set_add arr x = (arr, 0)) /\
  (~ In x arr -> set_add arr x = (arr ++ [x], 1)) /\
  len (fst (set_add arr x)) = len arr + snd (set_add arr x) /\
  (NoDup arr -> NoDup (fst (set_add arr x))).
Proof.
  split; [|split; [|split]].
  - intros Hin. apply existsb_get_range in Hin. unfold set_add. now rewrite Hin.
  - intros Hnin. unfold set_add.
    destruct (existsb _ _) eqn:Hex; auto.
    apply existsb_get_range in Hex. contradiction.
  - unfold set_add. destruct (existsb _ _); simpl; [lia|].
    rewrite len_app. reflexivity.
  - apply set_add_NoDup.
Qed.

Lemma set_add_absent arr x : ~ In x arr -> set_add arr x = (arr ++ [x], 1).
Proof.
  intros Hnin. unfold set_add.
  destruct (existsb _ _) eqn:Hex; auto.
  apply existsb_get_range in Hex. contradiction.
Qed.

(** X7.  After [set_add], [find] from index [0] gives an index of the
    array that holds [x]; when [set_add] returned [1] it is the last
    index, the former number of entries. *)
Theorem set_add_then_find (arr : list Z) (x : Z) :
  0 <= find (fst (set_add arr x)) (len (fst (set_add arr x))) x 0
    < len (fst (set_add arr x)) /\
  get (fst (set_add arr x))
      (find (fst (set_add arr x)) (len (fst (set_add arr x))) x 0) = x /\
  (snd (set_add arr x) = 1 ->
   find (fst (set_add arr x)) (len (fst (set_add arr x))) x 0 = len arr).
Proof.
  assert (Hin : In x (fst (set_add arr x))) by (apply set_add_In; now right).
  destruct (In_get _ _ Hin) as (k & Hk & Hget).
  destruct (find_present (fst (set_add arr x)) (len (fst (set_add arr x))) x 0 k
                         Hk Hget) as (Hf & Hgetf).
  split; [lia|]. split; [exact Hgetf|].
  intros Hret.
  destruct (in_dec Z.eq_dec x arr) as [Hold|Hnew].
  - apply existsb_get_range in Hold. unfold set_add in Hret.
    rewrite Hold in Hret. discriminate.
  - rewrite (set_add_absent _ _ Hnew). cbn [fst].
    pose proof (len_nonneg arr).
    apply find_first.
    + rewrite len_app. change (len [x]) with 1. lia.
    + apply get_app_r.
    + intros j Hj Heq. rewrite get_app_l in Heq by lia.
      apply Hnew. rewrite <- Heq. apply get_In. lia.
Qed.

(** ** The edge arrays of [mk_disjoint] *)

Lemma set_add_len arr x : len arr <= len (fst (set_add arr x)) <= len arr + 1.
Proof.
  unfold set_add. destruct (existsb _ _); simpl; [lia|].
  rewrite len_app. change (len [x]) with 1. lia.
Qed.

Lemma add_edges_len e r :
  len (fst (add_edges e r)) <= len (fst e) + 2 /\
  len (snd (add_edges e r)) <= len (snd e) + 2.
Proof.
  destruct e as [e0 e1]. unfold add_edges. cbn [fst snd].
  pose proof (set_add_len e0 (x r)).
  pose proof (set_add_len (fst (set_add e0 (x r))) (x r + w r)).
  pose proof (set_add_len e1 (y r)).
  pose proof (set_add_len (fst (set_add e1 (y r))) (y r + h r)).
  lia.
Qed.

Lemma fold_add_edges_len rects :
  forall e,
  len (fst (fold_left add_edges rects e)) <= len (fst e) + 2 * len rects /\
  len (snd (fold_left add_edges rects e)) <= len (snd e) + 2 * len rects.
Proof.
  induction rects as [|r t IH]; intros e; cbn [fold_left].
  - change (len (@nil GAME_Rect)) with 0. lia.
  - destruct (IH (add_edges e r)) as [H0 H1].
    destruct (add_edges_len e r) as [A0 A1].
    rewrite len_cons. lia.
Qed.

(** X8.  The edge loop never fills an edge array beyond the
    [2 * (n_rects[0] + n_rects[1])] entries allocated for it; the array
    has no repeated entry, and every entry is a left or right (top or
    bottom) coordinate of one of the rectangles. *)
Theorem get_edges_fit (add rm : list GAME_Rect) :
  (len (fst (get_edges add rm)) <= 2 * (len add + len rm) /\
   len (snd (get_edges add rm)) <= 2 * (len add + len rm)) /\
  (NoDup (fst (get_edges add rm)) /\ NoDup (snd (get_edges add rm))) /\
  (forall z, In z (fst (get_edges add rm)) ->
             exists r, In r (add ++ rm) /\ (z = x r \/ z = x r + w r)) /\
  (forall z, In z (snd (get_edges add rm)) ->
             exists r, In r (add ++ rm) /\ (z = y r \/ z = y r + h r)).
Proof.
  split; [|split; [apply get_edges_NoDup|split]].
  - unfold get_edges. cbn [fold_left].
    destruct (fold_add_edges_len rm (fold_left add_edges add ([], []))) as [H0 H1].
    destruct (fold_add_edges_len add ([], [])) as [G0 G1].
    cbn [fst snd] in G0, G1. change (len (@nil Z)) with 0 in G0, G1. lia.
  - intros z Hz. apply (get_edges_In add rm z) in Hz. exact Hz.
  - intros z Hz. apply (get_edges_In add rm z) in Hz. exact Hz.
Qed.

(** The four calls of [find] in the marking loop, in exact arithmetic. *)
Lemma mark_rect_finds (add rm : list GAME_Rect) (r : GAME_Rect)
      (Hr : In r (add ++ rm))
      (Hne : nonempty_rect r = true) :
  let e := sort_edges (get_edges add rm) in
  let row0 := find (snd e) (len (snd e)) (y r) 0 in
  let row1 := find (snd e) (len (snd e)) (y r + h r) row0 in
  let col0 := find (fst e) (len (fst e)) (x r) 0 in
  let col1 := find (fst e) (len (fst e)) (x r + w r) col0 in
  (0 <= row0 < row1 /\ row1 < len (snd e)) /\
  (0 <= col0 < col1 /\ col1 < len (fst e)) /\
  (get (snd e) row0 = y r /\ get (snd e) row1 = y r + h r /\
   get (fst e) col0 = x r /\ get (fst e) col1 = x r + w r) /\
  forall k l, row0 <= k < row1 -> col0 <= l < col1 ->
              0 <= (len (fst e) - 1) * k + l < len (mk_grid e add rm).
Proof.
  intros e. fold (edges_of add rm) in e.
  destruct (edges_of_ascending add rm) as [Hx Hy]. fold e in Hx, Hy.
  destruct (edges_of_hold add rm r Hr) as [Hex Hey]. fold e in Hex, Hey.
  apply nonempty_rect_spec in Hne. destruct Hne as [Hw Hh].
  destruct (In_get _ _ (Hex (x r) (or_introl eq_refl))) as (c0 & Hc0 & Ec0).
  destruct (In_get _ _ (Hex (x r + w r) (or_intror eq_refl))) as (c1 & Hc1 & Ec1).
  destruct (In_get _ _ (Hey (y r) (or_introl eq_refl))) as (r0 & Hr0 & Er0).
  destruct (In_get _ _ (Hey (y r + h r) (or_intror eq_refl))) as (r1 & Hr1 & Er1).
  assert (c0 < c1) by (apply (ascending_lt_inv (fst e)); auto; lia).
  assert (r0 < r1) by (apply (ascending_lt_inv (snd e)); auto; lia).
  cbv zeta.
  rewrite (find_ascending (snd e) (y r) 0 r0) by (auto; lia).
  rewrite (find_ascending (snd e) (y r + h r) r0 r1) by (auto; lia).
  rewrite (find_ascending (fst e) (x r) 0 c0) by (auto; lia).
  rewrite (find_ascending (fst e) (x r + w r) c0 c1) by (auto; lia).
  split; [lia|]. split; [lia|]. split; [auto|].
  intros k l Hk Hl.
  destruct (mk_grid_spec e add rm Hx Hy (edges_of_hold add rm)) as [Hlen _].
  rewrite Hlen.
  pose proof (cell_index_bounds (len (fst e) - 1) (len (snd e) - 1) k l
                                ltac:(lia) ltac:(lia)).
  lia.
Qed.

(** X9.  When no sum and no difference of coordinates of [add] and [rm]
    overflows: for a rectangle of [add] or [rm] that is not empty, the
    four calls of [find] in the marking loop succeed, with [row0 < row1]
    and [col0 < col1] inside the edge arrays, and every cell the loop
    marks lies inside the grid. *)
Theorem mark_rect_in_grid (add rm : list GAME_Rect) (r : GAME_Rect)
        (Hfit : no_overflow (add ++ rm))
        (Hr : In r (add ++ rm))
        (Hne : nonempty_rect r = true) :
  let e := sort_edges (get_edges_int add rm) in
  let row0 := find (snd e) (len (snd e)) (y r) 0 in
  let row1 := find (snd e) (len (snd e)) (wrap (y r + h r)) row0 in
  let col0 := find (fst e) (len (fst e)) (x r) 0 in
  let col1 := find (fst e) (len (fst e)) (wrap (x r + w r)) col0 in
  (0 <= row0 < row1 /\ row1 < len (snd e)) /\
  (0 <= col0 < col1 /\ col1 < len (fst e)) /\
  (get (snd e) row0 = y r /\ get (snd e) row1 = y r + h r /\
   get (fst e) col0 = x r /\ get (fst e) col1 = x r + w r) /\
  forall k l, row0 <= k < row1 -> col0 <= l < col1 ->
              0 <= (len (fst e) - 1) * k + l < len (mk_grid_int e add rm).
Proof.
  cbv zeta.
  rewrite get_edges_int_exact by (intros r' Hr'; eapply no_overflow_sums; eauto).
  rewrite mk_grid_int_exact by (intros r' Hr'; eapply no_overflow_sums; eauto).
  destruct (no_overflow_sums _ _ Hfit Hr) as [Hx Hy].
  rewrite !wrap_exact by assumption.
  exact (mark_rect_finds add rm r Hr Hne).
Qed.

Lemma mark_rect_in_grid_witness :
  (no_overflow ([PyRect_New4 0 0 3 4; PyRect_New4 2 3 4 5] ++ []) /\
   In (PyRect_New4 2 3 4 5) ([PyRect_New4 0 0 3 4; PyRect_New4 2 3 4 5] ++ []) /\
   nonempty_rect (PyRect_New4 2 3 4 5) = true) /\
  0 <= find (snd (sort_edges (get_edges_int [PyRect_New4 0 0 3 4; PyRect_New4 2 3 4 5]
                                            [])))
            (len (snd (sort_edges (get_edges_int
                                     [PyRect_New4 0 0 3 4; PyRect_New4 2 3 4 5] []))))
            (y (PyRect_New4 2 3 4 5)) 0.
Proof.
  assert (Hfit : no_overflow ([PyRect_New4 0 0 3 4; PyRect_New4 2 3 4 5] ++ [])).
  { apply no_overflow_origin. repeat constructor; simpl; lia. }
  split; [split; [exact Hfit | split; [simpl; auto | reflexivity]]|].
  destruct (mark_rect_in_grid [PyRect_New4 0 0 3 4; PyRect_New4 2 3 4 5] []
                              (PyRect_New4 2 3 4 5) Hfit)
    as ((Hrow & _) & _); [simpl; auto | reflexivity |].
  apply Hrow.
Defined.

(** ** [mk_disjoint] *)

(** X10.  When no sum and no difference of coordinates of [add] and [rm]
    overflows, the result of [mk_disjoint] covers exactly the points of
    [add] that no rectangle of [rm] holds; its rectangles are pairwise
    disjoint and none is empty. *)
Theorem mk_disjoint_difference (add rm : list GAME_Rect)
        (Hfit : no_overflow (add ++ rm)) :
  ForallOrdPairs disjoint_rects (mk_disjoint_int add rm) /\
  Forall (fun r => 0 < w r /\ 0 < h r) (mk_disjoint_int add rm) /\
  forall px py,
    covered (mk_disjoint_int add rm) px py <->
    covered add px py /\ ~ covered rm px py.
Proof.
  rewrite (mk_disjoint_int_exact add rm Hfit).
  split; [apply mk_disjoint_pairwise_disjoint|].
  split; [apply mk_disjoint_all_nonempty|].
  intros px py. apply mk_disjoint_region.
Qed.

Lemma covered_dec l px py : covered l px py \/ ~ covered l px py.
Proof.
  induction l as [|r t IH].
  - right. intros (r & [] & _).
  - destruct IH as [(r' & Hr' & Hin)|Hn].
    + left. exists r'. split; [now right | exact Hin].
    + assert (Hd : inside r px py \/ ~ inside r px py) by (unfold inside; lia).
      destruct Hd as [Hi|Hni].
      * left. exists r. split; [now left | exact Hi].
      * right. intros (r' & [<-|Hr'] & Hin); [auto|]. apply Hn. exists r'. auto.
Qed.

(** X11.  When no sum and no difference of coordinates of [add] and [rm]
    overflows, [mk_disjoint] returns the empty list exactly when [rm]
    covers the whole of [add]; so also when [add] is empty or holds empty
    rectangles only. *)
Theorem mk_disjoint_empty_iff (add rm : list GAME_Rect)
        (Hfit : no_overflow (add ++ rm)) :
  mk_disjoint_int add rm = [] <->
  (forall px py, covered add px py -> covered rm px py).
Proof.
  rewrite (mk_disjoint_int_exact add rm Hfit).
  split; [|apply mk_disjoint_nil].
  intros Hnil px py Ha.
  destruct (covered_dec rm px py) as [Hc|Hn]; auto.
  exfalso.
  assert (Hc : covered (mk_disjoint add rm) px py) by (apply mk_disjoint_region; auto).
  rewrite Hnil in Hc. destruct Hc as (r & [] & _).
Qed.



Lemma ascending_unique a b :
  ascending a -> ascending b -> (forall z, In z a <-> In z b) -> a = b.
Proof.
  intros Ha Hb Hsame.
  apply (sorted_unique Z.lt (fun _ => True)); auto.
  - intros u v _ _ H1 H2. lia.
  - now apply ordered_sorted.
  - now apply ordered_sorted.
  - apply Forall_forall. auto.
  - apply Forall_forall. auto.
Qed.

Lemma edges_of_same add rm add' rm' :
  (forall r, In r add <-> In r add') -> (forall r, In r rm <-> In r rm') ->
  edges_of add rm = edges_of add' rm'.
Proof.
  intros Hadd Hrm.
  assert (Hall : forall r, In r (add ++ rm) <-> In r (add' ++ rm')).
  { intros r. rewrite !in_app_iff, Hadd, Hrm. tauto. }
  destruct (edges_of_ascending add rm) as [Hx Hy].
  destruct (edges_of_ascending add' rm') as [Hx' Hy'].
  destruct (edges_of add rm) as [e0 e1] eqn:He.
  destruct (edges_of add' rm') as [e0' e1'] eqn:He'.
  cbn [fst snd] in *.
  f_equal; apply ascending_unique; auto; intros z.
  - pose proof (proj1 (edges_of_In add rm z)) as H1.
    pose proof (proj1 (edges_of_In add' rm' z)) as H2.
    rewrite He in H1. rewrite He' in H2. cbn [fst] in H1, H2.
    rewrite H1, H2. split; intros (r & Hr & Hz); exists r; split; auto; apply Hall; auto.
  - pose proof (proj2 (edges_of_In add rm z)) as H1.
    pose proof (proj2 (edges_of_In add' rm' z)) as H2.
    rewrite He in H1. rewrite He' in H2. cbn [snd] in H1, H2.
    rewrite H1, H2. split; intros (r & Hr & Hz); exists r; split; auto; apply Hall; auto.
Qed.

Lemma covered_same l l' px py :
  (forall r, In r l <-> In r l') -> covered l px py <-> covered l' px py.
Proof.
  intros Hsame. unfold covered.
  split; intros (r & Hr & Hin); exists r; split; auto; apply Hsame; auto.
Qed.

(** X13.  The result of [mk_disjoint] does not depend on the order of
    the rectangles in [add] and in [rm], nor on how often one is listed:
    two calls whose [add] lists hold the same rectangles, and whose [rm]
    lists hold the same rectangles, return the same list. *)
Theorem mk_disjoint_order_free (add rm add' rm' : list GAME_Rect)
        (Hadd : forall r, In r add <-> In r add')
        (Hrm : forall r, In r rm <-> In r rm') :
  mk_disjoint add rm = mk_disjoint add' rm'.
Proof.
  pose proof (edges_of_same add rm add' rm' Hadd Hrm) as He.
  apply sorted_region_unique.
  - apply mk_disjoint_sorted.
  - apply mk_disjoint_sorted.
  - apply mk_disjoint_all_nonempty.
  - apply mk_disjoint_all_nonempty.
  - intros px py. rewrite !mk_disjoint_region.
    rewrite (covered_same add add' px py Hadd), (covered_same rm rm' px py Hrm).
    reflexivity.
  - intros a b Ha Hb.
    destruct (edges_of_ascending add rm) as [_ Hy].
    destruct (mk_disjoint_run add rm a Ha) as (i & c0 & c1 & Hi & _ & ->).
    destruct (mk_disjoint_run add' rm' b Hb) as (i' & c0' & c1' & Hi' & _ & ->).
    rewrite <- He in *.
    unfold rows_apart, run_rect. cbn [x y w h fst snd].
    destruct (Z.lt_trichotomy i i') as [Hlt|[->|Hgt]].
    + right; left.
      pose proof (ascending_le _ (i + 1) i' Hy ltac:(lia) ltac:(lia)). lia.
    + left. split; reflexivity.
    + right; right.
      pose proof (ascending_le _ (i' + 1) i Hy ltac:(lia) ltac:(lia)). lia.
Qed.

Lemma mk_disjoint_order_free_witness :
  mk_disjoint [PyRect_New4 0 0 3 4; PyRect_New4 2 3 4 5] [PyRect_New4 1 1 1 1] =
  mk_disjoint [PyRect_New4 2 3 4 5; PyRect_New4 0 0 3 4; PyRect_New4 2 3 4 5]
              [PyRect_New4 1 1 1 1; PyRect_New4 1 1 1 1].
Proof.
  apply mk_disjoint_order_free; intros r; simpl; tauto.
Defined.

(** X14.  Among the lists on which no sum and no difference of
    coordinates overflows, the fixed points of [mk_disjoint] with an
    empty [rm] are the lists of non-empty rectangles in the order of the
    scan: each rectangle lies in a row below the one before, or in the
    same row and to the right, with a gap in between. *)
Theorem mk_disjoint_fixed_points (O : list GAME_Rect)
        (Hfit : no_overflow O) :
  mk_disjoint_int O [] = O <->
  StronglySorted rect_before O /\ Forall (fun r => 0 < w r /\ 0 < h r) O.
Proof.
  rewrite mk_disjoint_int_exact by (rewrite app_nil_r; exact Hfit).
  split.
  - intros <-. split; [apply mk_disjoint_sorted | apply mk_disjoint_all_nonempty].
  - intros [S N]. apply sorted_region_unique; auto.
    + apply mk_disjoint_sorted.
    + apply mk_disjoint_all_nonempty.
    + intros px py. rewrite mk_disjoint_region. split; [tauto|].
      intros H. split; [exact H|]. intros (r & [] & _).
    + intros a b Ha Hb. apply rows_apart_sym.
      exact (mk_disjoint_rows_apart O b a S N Hb Ha).
Qed.

(** ** [fastdraw] *)

(** pygame's [clip] gives the intersection of the two rectangles. *)
Lemma clip_axis_region a aw b bw p :
  (a <= p < a + aw /\ b <= p < b + bw) <->
  match clip_axis a aw b bw with
  | Some (lo, lw) => lo <= p < lo + lw
  | None => False
  end.
Proof.
  unfold clip_axis. rewrite !Z.geb_leb, !Z.gtb_ltb.
  destruct (Z.leb_spec b a), (Z.ltb_spec a (b + bw)), (Z.leb_spec a b),
    (Z.ltb_spec b (a + aw)), (Z.leb_spec (a + aw) (b + bw)),
    (Z.leb_spec (b + bw) (a + aw)); simpl; lia.
Qed.

Lemma clip_region A B px py :
  inside (clip A B) px py <-> inside A px py /\ inside B px py.
Proof.
  unfold inside, clip.
  pose proof (clip_axis_region (x A) (w A) (x B) (w B) px) as Hx.
  pose proof (clip_axis_region (y A) (h A) (y B) (h B) py) as Hy.
  destruct (clip_axis (x A) (w A) (x B) (w B)) as [[cx cw]|];
    destruct (clip_axis (y A) (h A) (y B) (h B)) as [[cy ch]|];
    cbn [x y w h]; lia.
Qed.

Lemma covered_app l1 l2 px py :
  covered (l1 ++ l2) px py <-> covered l1 px py \/ covered l2 px py.
Proof.
  unfold covered. split.
  - intros (r & Hr & Hin). apply in_app_or in Hr. destruct Hr; eauto.
  - intros [(r & Hr & Hin)|(r & Hr & Hin)]; exists r; split; auto;
      apply in_or_app; auto.
Qed.

Lemma covered_concat ls px py :
  covered (concat ls) px py <-> exists l, In l ls /\ covered l px py.
Proof.
  unfold covered. split.
  - intros (r & Hr & Hin). apply in_concat in Hr. destruct Hr as (l & Hl & Hr).
    exists l. eauto.
  - intros (l & Hl & r & Hr & Hin). exists r. split; auto.
    apply in_concat. eauto.
Qed.



Section Frame.

Variable m : Methods.

(** *** The collection pass *)


Lemma collect_ids_any ids :
  forall wd,
  (forall g, ~ In g ids ->
             heap (world_of (for_each ids (collect_graphic m) wd)) g = heap wd g) /\
  (exists added,
      dirty (world_of (for_each ids (collect_graphic m) wd)) = dirty wd ++ added) /\
  (exists l,
      calls (world_of (for_each ids (collect_graphic m) wd)) = calls wd ++ l /\
      Forall (fun c => exists g, In g ids /\ c = CallPreDraw g) l).
Proof.
  induction ids as [|g ids IH]; intros wd; simpl.
  - split; [auto|]. split; exists []; rewrite app_nil_r; auto.
  - unfold bind.
    destruct (_pre_draw m g (heap wd g)) as [s|] eqn:Hpre.
    + rewrite (collect_graphic_done m _ _ _ Hpre).
      destruct (IH (mkWorld (upd (upd (heap wd) g s) g (set_was_visible (visible s) s))
                            (dirty wd ++ dirty_of s)
                            (calls wd ++ [CallPreDraw g])))
        as (Hframe & (added & Hdirty) & (l & Hcalls & Hl)).
      cbn [heap dirty calls] in Hframe, Hdirty, Hcalls.
      split; [|split].
      * intros g' Hnin. rewrite Hframe by tauto.
        rewrite !upd_other; auto; intros ->; tauto.
      * exists (dirty_of s ++ added). rewrite Hdirty, <- app_assoc. reflexivity.
      * exists (CallPreDraw g :: l). split.
        -- rewrite Hcalls, <- app_assoc. reflexivity.
        -- constructor; [eauto|].
           eapply Forall_impl; [|exact Hl]. intros c (g' & Hg' & ->). eauto.
    + rewrite (collect_graphic_raised m _ _ Hpre). simpl.
      split; [auto|]. split.
      * exists []. now rewrite app_nil_r.
      * exists [CallPreDraw g]. split; auto. constructor; [eauto | constructor].
Qed.

(** *** The occlusion pass *)

Lemma occlude_any graphics acc wd :
  asks_only wd (world_of (occlude m graphics acc wd)).
Proof.
  pose proof (occlude_post m graphics acc wd) as H.
  destruct (occlude m graphics acc wd); simpl in *; tauto.
Qed.

Lemma layer_opaque_any gs rects wd :
  asks_only wd (world_of (layer_opaque m gs rects wd)).
Proof.
  pose proof (layer_opaque_post m gs rects wd) as H.
  destruct (layer_opaque m gs rects wd); simpl in *; tauto.
Qed.

(** A clipped rectangle that is not empty lies inside the rectangle that
    was clipped: it fits the windows that this one fits. *)
Lemma clip_axis_within a aw b bw lo lw :
  clip_axis a aw b bw = Some (lo, lw) -> 0 < lw -> a <= lo /\ lo + lw <= a + aw.
Proof.
  intros Hc Hlw.
  pose proof (clip_axis_region a aw b bw lo) as H0.
  pose proof (clip_axis_region a aw b bw (lo + lw - 1)) as H1.
  rewrite Hc in H0, H1. lia.
Qed.

Lemma clip_rect_in lx ly A B :
  rect_in lx ly A -> nonempty_rect (clip A B) = true -> rect_in lx ly (clip A B).
Proof.
  intros (H1 & H2 & H3 & H4) Hne. apply nonempty_rect_spec in Hne.
  unfold clip in *.
  destruct (clip_axis (x A) (w A) (x B) (w B)) as [[cx cw]|] eqn:Ex;
    [|cbn [w h] in Hne; lia].
  destruct (clip_axis (y A) (h A) (y B) (h B)) as [[cy ch]|] eqn:Ey;
    [|cbn [w h] in Hne; lia].
  cbn [x y w h] in *.
  destruct (clip_axis_within _ _ _ _ _ _ Ex ltac:(lia)).
  destruct (clip_axis_within _ _ _ _ _ _ Ey ltac:(lia)).
  unfold rect_in, in_window in *. cbn [x y w h]. lia.
Qed.

Lemma opaque_chain_rect_in lx ly gs :
  forall r wd c wd',
  rect_in lx ly r -> opaque_chain m gs r wd = Done c wd' -> snd c = true ->
  rect_in lx ly (fst c).
Proof.
  induction gs as [|g gs IH]; intros r wd c wd' Hr Hrun Hgood.
  - simpl in Hrun. inversion Hrun; subst. exact Hr.
  - simpl in Hrun. unfold bind, getattrs in Hrun.
    destruct (call_opaque_in m g (clip r (_postrot_rect (heap wd g))) wd)
      as [tmp wd1|wd1]; [|discriminate].
    destruct ((w (clip r (_postrot_rect (heap wd g))) >? 0) &&
              (h (clip r (_postrot_rect (heap wd g))) >? 0) && tmp) eqn:Hg.
    + apply andb_prop in Hg. destruct Hg as [Hne _].
      apply (IH _ _ _ _ (clip_rect_in _ _ _ _ Hr Hne) Hrun Hgood).
    + inversion Hrun; subst. discriminate.
Qed.

Lemma layer_opaque_rect_in lx ly gs :
  forall rects wd l wd',
  Forall (rect_in lx ly) rects -> layer_opaque m gs rects wd = Done l wd' ->
  Forall (rect_in lx ly) l.
Proof.
  induction rects as [|r rects IH]; intros wd l wd' Hall Hrun.
  - simpl in Hrun. inversion Hrun; subst. constructor.
  - simpl in Hrun. unfold bind in Hrun.
    inversion Hall as [|? ? Hr Hrest]; subst.
    destruct (opaque_chain m gs r wd) as [c wd1|wd1] eqn:Hchain; [|discriminate].
    destruct (layer_opaque m gs rects wd1) as [l0 wd2|wd2] eqn:Hl; [|discriminate].
    inversion Hrun; subst l wd'. clear Hrun.
    specialize (IH _ _ _ Hrest Hl).
    destruct (snd c) eqn:Hgood; [|exact IH].
    constructor; [|exact IH]. eapply opaque_chain_rect_in; eauto.
Qed.

(** When [dirty] and the opaque list fit, no sum and no difference
    overflows in the loop over the layers: every [dirty_by_layer] is the
    list that [mk_disjoint] returns in the arithmetic of [int]. *)
Lemma occlude_entries_int lx ly graphics :
  INT_MIN <= lx <= 0 -> INT_MIN <= ly <= 0 ->
  forall acc wd dbl wd',
  Forall (rect_in lx ly) (dirty wd) -> Forall (rect_in lx ly) acc ->
  occlude m graphics acc wd = Done dbl wd' ->
  Forall (fun rects => exists acc', rects = mk_disjoint_int (dirty wd) acc' /\
                                    Forall (rect_in lx ly) rects) dbl.
Proof.
  intros Hlx Hly.
  induction graphics as [|gs graphics IH]; intros acc wd dbl wd' Hd Hacc Hrun.
  - simpl in Hrun. inversion Hrun; subst. constructor.
  - destruct (occlude_cons m _ _ _ _ _ _ Hrun) as (l & wd1 & below & Hl & Hb & ->).
    pose proof (layer_opaque_any gs (dirty wd) wd) as Hask.
    rewrite Hl in Hask. simpl in Hask. destruct Hask as (_ & Hd1 & _).
    assert (Hall : Forall (rect_in lx ly) (dirty wd ++ acc))
      by (apply Forall_app; auto).
    constructor.
    + exists acc. split.
      * symmetry. apply mk_disjoint_int_exact. exists lx, ly. auto.
      * now apply mk_disjoint_rect_in.
    + rewrite <- Hd1. apply (IH (acc ++ l) wd1 below wd').
      * now rewrite Hd1.
      * apply Forall_app. split; [exact Hacc|].
        exact (layer_opaque_rect_in lx ly gs (dirty wd) wd l wd1 Hd Hl).
      * exact Hb.
Qed.

(** Every [dirty_by_layer] is [mk_disjoint] of [dirty] and a list that
    holds the opaque list of the start; a later one lies inside an
    earlier one. *)
Lemma occlude_layers graphics :
  forall acc wd dbl wd',
  occlude m graphics acc wd = Done dbl wd' ->
  Forall (fun rects =>
            exists acc', rects = mk_disjoint (dirty wd) acc' /\
                         forall px py, covered acc px py -> covered acc' px py) dbl /\
  ForallOrdPairs (fun upper lower =>
                    forall px py, covered lower px py -> covered upper px py) dbl.
Proof.
  induction graphics as [|gs graphics IH]; intros acc wd dbl wd' Hrun.
  - simpl in Hrun. inversion Hrun; subst. split; constructor.
  - destruct (occlude_cons m _ _ _ _ _ _ Hrun) as (l & wd1 & below & Hl & Hb & ->).
    pose proof (layer_opaque_any gs (dirty wd) wd) as Hask.
    rewrite Hl in Hask. simpl in Hask. destruct Hask as (_ & Hd & _).
    destruct (IH _ _ _ _ Hb) as [Hall Hord]. rewrite Hd in Hall.
    assert (Hall' : Forall (fun rects =>
              exists acc', rects = mk_disjoint (dirty wd) acc' /\
                           forall px py, covered acc px py -> covered acc' px py) below).
    { eapply Forall_impl; [|exact Hall]. intros rects (acc' & -> & Hsub).
      exists acc'. split; auto. intros px py Hc. apply Hsub.
      apply covered_app. auto. }
    split.
    + constructor; [|exact Hall']. exists acc. auto.
    + constructor; [|exact Hord].
      eapply Forall_impl; [|exact Hall']. intros rects (acc' & -> & Hsub) px py Hc.
      apply mk_disjoint_region in Hc. apply mk_disjoint_region.
      destruct Hc as [Hin Hout]. split; auto.
Qed.

(** X17.  In a frame in which no sum and no difference of coordinates
    overflows, the dirty rects of the layers are these: those of the
    first layer cover the whole of [dirty]; those of a layer lie inside
    those of every layer before it; the rects of one layer are pairwise
    disjoint and not empty; and every entry is the list that
    [mk_disjoint] returns in the arithmetic of [int]. *)
Theorem occlude_layers_shrink (graphics : list (list gid)) (wd wd' : World)
        (dirty_by_layer : list (list GAME_Rect))
        (Hfit : frame_fits graphics wd)
        (Hrun : occlude m graphics [] wd = Done dirty_by_layer wd') :
  (forall rects, nth_error dirty_by_layer 0 = Some rects ->
                 forall px py, covered rects px py <-> covered (dirty wd) px py) /\
  ForallOrdPairs (fun upper lower =>
                    forall px py, covered lower px py -> covered upper px py)
                 dirty_by_layer /\
  Forall (fun rects => ForallOrdPairs disjoint_rects rects /\ Forall nonempty rects)
         dirty_by_layer /\
  Forall (fun rects => exists dirty_opaque,
                         rects = mk_disjoint_int (dirty wd) dirty_opaque)
         dirty_by_layer.
Proof.
  destruct (occlude_layers graphics [] wd dirty_by_layer wd' Hrun) as [Hall Hord].
  assert (Hint : Forall (fun rects => exists dirty_opaque,
                           rects = mk_disjoint_int (dirty wd) dirty_opaque)
                        dirty_by_layer).
  { destruct Hfit as [(lx & ly & Hlx & Hly & Hd) _].
    pose proof (occlude_entries_int lx ly graphics Hlx Hly [] wd dirty_by_layer wd'
                                    Hd (Forall_nil _) Hrun) as H.
    eapply Forall_impl; [|exact H]. intros rects (acc' & -> & _). eauto. }
  split; [|split; [exact Hord|split; [|exact Hint]]].
  - intros rects Hnth px py. destruct graphics as [|gs graphics].
    + simpl in Hrun. inversion Hrun; subst. discriminate.
    + destruct (occlude_cons m _ _ _ _ _ _ Hrun) as (l & wd1 & below & _ & _ & ->).
      simpl in Hnth. inversion Hnth; subst.
      rewrite mk_disjoint_region. split; [tauto|].
      intros H. split; [exact H|]. intros (r & [] & _).
  - eapply Forall_impl; [|exact Hall]. intros rects (acc' & -> & _).
    split; [apply mk_disjoint_pairwise_disjoint | apply mk_disjoint_all_nonempty].
Qed.

(** *** The draw pass *)

Lemma draw_graphic_any rects g wd :
  (forall g', g' <> g -> heap (world_of (draw_graphic m rects g wd)) g' = heap wd g') /\
  dirty (world_of (draw_graphic m rects g wd)) = dirty wd /\
  exists l,
    calls (world_of (draw_graphic m rects g wd)) = calls wd ++ l /\
    Forall (draw_call_of rects g) l.
Proof.
  unfold draw_graphic, bind, getattrs, setattrs, call_draw, ret, draw_call_of.
  simpl.
  set (draw_in := filter nonempty_rect
                         (map (fun r => clip (_postrot_rect (heap wd g)) r) rects)).
  destruct (visible (heap wd g)) eqn:Hvis; [destruct (0 <? len draw_in) eqn:Hlen|].
  - assert (Hne : draw_in <> []).
    { intros E. rewrite E in Hlen. discriminate. }
    assert (Hc : Forall (fun c =>
               exists s, visible s = true /\
                 filter nonempty_rect (map (fun r => clip (_postrot_rect s) r) rects)
                 <> [] /\
                 c = CallDraw g (filter nonempty_rect
                                        (map (fun r => clip (_postrot_rect s) r) rects)))
               [CallDraw g draw_in]).
    { constructor; [|constructor]. exists (heap wd g). auto. }
    destruct (_draw m g (heap wd g) draw_in) as [s|];
      cbn [world_of heap dirty calls].
    + split; [intros g' Hg'; now rewrite !upd_other|]. split; [reflexivity|].
      exists [CallDraw g draw_in]. split; [reflexivity | exact Hc].
    + split; [auto|]. split; [reflexivity|].
      exists [CallDraw g draw_in]. split; [reflexivity | exact Hc].
  - cbn [world_of heap dirty calls].
    split; [intros g' Hg'; now rewrite upd_other|].
    split; [reflexivity|]. exists []. rewrite app_nil_r. auto.
  - cbn [world_of heap dirty calls].
    split; [intros g' Hg'; now rewrite upd_other|].
    split; [reflexivity|]. exists []. rewrite app_nil_r. auto.
Qed.

Lemma draw_items_any (items : list ((list gid * list GAME_Rect) * gid)) :
  forall wd,
  (forall g, ~ In g (map snd items) ->
             heap (world_of (for_each items
                               (fun p => draw_graphic m (snd (fst p)) (snd p)) wd)) g
             = heap wd g) /\
  dirty (world_of (for_each items (fun p => draw_graphic m (snd (fst p)) (snd p)) wd))
  = dirty wd /\
  exists l,
    calls (world_of (for_each items (fun p => draw_graphic m (snd (fst p)) (snd p)) wd))
    = calls wd ++ l /\
    Forall (fun c => exists p, In p items /\ draw_call_of (snd (fst p)) (snd p) c) l.
Proof.
  induction items as [|[a g] items IH]; intros wd; simpl.
  - split; [auto|]. split; [auto|]. exists []. rewrite app_nil_r. auto.
  - unfold bind.
    destruct (draw_graphic_any (snd a) g wd) as (Hframe & Hdirty & (l & Hcalls & Hl)).
    assert (Hl' : Forall (fun c => exists p : (list gid * list GAME_Rect) * gid,
                            In p ((a, g) :: items) /\
                            draw_call_of (snd (fst p)) (snd p) c) l).
    { eapply Forall_impl; [|exact Hl]. intros c Hc. exists (a, g). simpl. auto. }
    destruct (draw_graphic m (snd a) g wd) as [[] wd1|wd1]; simpl in *.
    + destruct (IH wd1) as (Hframe' & Hdirty' & (l' & Hcalls' & Hl2)).
      split; [|split].
      * intros g' Hnin. rewrite Hframe' by tauto. apply Hframe. intros ->. tauto.
      * congruence.
      * exists (l ++ l'). split; [rewrite Hcalls', Hcalls, app_assoc; reflexivity|].
        apply Forall_app. split; [exact Hl'|].
        eapply Forall_impl; [|exact Hl2]. intros c (p & Hp & Hc). exists p. simpl. auto.
    + split; [|split; [exact Hdirty|]].
      * intros g' Hnin. apply Hframe. intros ->. tauto.
      * exists l. auto.
Qed.

Lemma In_draw_items graphics dirty_by_layer p :
  In p (draw_items graphics dirty_by_layer) ->
  In (snd p) (concat graphics) /\ In (snd (fst p)) dirty_by_layer.
Proof.
  unfold draw_items. intros Hp. apply in_flat_map in Hp.
  destruct Hp as ([gs rects] & Hl & Hp). apply in_map_iff in Hp.
  destruct Hp as (g & <- & Hg). simpl in *.
  apply in_rev in Hl. split.
  - apply in_concat. exists gs. split; [|exact Hg]. eapply in_combine_l; eauto.
  - eapply in_combine_r; eauto.
Qed.

Lemma disjoint_clipped R l :
  ForallOrdPairs disjoint_rects l ->
  ForallOrdPairs disjoint_rects (filter nonempty_rect (map (fun r => clip R r) l)).
Proof.
  induction 1 as [|a l Ha Hl IH]; simpl; [constructor|].
  destruct (nonempty_rect (clip R a)); [|exact IH].
  constructor; [|exact IH].
  apply Forall_forall. intros b Hb. apply filter_In in Hb. destruct Hb as [Hb _].
  apply in_map_iff in Hb. destruct Hb as (b0 & <- & Hb0).
  rewrite Forall_forall in Ha. intros px py [H1 H2].
  apply clip_region in H1, H2. apply (Ha b0 Hb0 px py). tauto.
Qed.

Lemma draw_call_within D acc gs g c :
  In g gs -> draw_call_of (mk_disjoint D acc) g c -> draws_within D gs c.
Proof.
  intros Hg (s & Hvis & Hne & ->). exists g. eexists. split; [reflexivity|].
  split; [exact Hg|]. split; [exact Hne|]. split; [|split].
  - apply Forall_forall. intros r Hr. apply filter_In in Hr.
    apply nonempty_rect_spec. tauto.
  - apply disjoint_clipped. apply mk_disjoint_pairwise_disjoint.
  - intros px py (r & Hr & Hin). apply filter_In in Hr. destruct Hr as [Hr _].
    apply in_map_iff in Hr. destruct Hr as (r0 & <- & Hr0).
    apply clip_region in Hin.
    assert (Hc : covered (mk_disjoint D acc) px py) by (exists r0; tauto).
    apply mk_disjoint_region in Hc. tauto.
Qed.

(** *** The whole frame *)

(** The three passes of a frame, however it ends. *)
Lemma fastdraw_passes graphics wd :
  (forall g, ~ In g (concat graphics) ->
             heap (world_of (fastdraw m graphics wd)) g = heap wd g) /\
  (exists added, dirty (world_of (fastdraw m graphics wd)) = dirty wd ++ added) /\
  exists pre asks draws,
    calls (world_of (fastdraw m graphics wd)) = calls wd ++ pre ++ asks ++ draws /\
    Forall (fun c => exists g, In g (concat graphics) /\ c = CallPreDraw g) pre /\
    Forall (fun c => exists g r, c = CallOpaqueIn g r) asks /\
    Forall (draws_within (dirty (world_of (fastdraw m graphics wd)))
                         (concat graphics)) draws.
Proof.
  rewrite fastdraw_unfold, collect_flat.
  destruct (collect_ids_any (concat graphics) wd)
    as (Hframe & (added & Hdirty) & (pre & Hcalls & Hpre)).
  assert (Hstop : forall wd1 : World,
             (forall g, ~ In g (concat graphics) -> heap wd1 g = heap wd g) ->
             dirty wd1 = dirty wd ++ added ->
             calls wd1 = calls wd ++ pre ->
             (forall g, ~ In g (concat graphics) -> heap wd1 g = heap wd g) /\
             (exists added, dirty wd1 = dirty wd ++ added) /\
             exists pre asks draws,
               calls wd1 = calls wd ++ pre ++ asks ++ draws /\
               Forall (fun c => exists g, In g (concat graphics) /\ c = CallPreDraw g)
                      pre /\
               Forall (fun c => exists g r, c = CallOpaqueIn g r) asks /\
               Forall (draws_within (dirty wd1) (concat graphics)) draws).
  { intros wd1 H1 H2 H3. split; [exact H1|]. split; [eauto|].
    exists pre, [], []. rewrite !app_nil_r. auto. }
  destruct (for_each (concat graphics) (collect_graphic m) wd) as [[] wd1|wd1];
    simpl in Hframe, Hdirty, Hcalls; [|simpl; auto].
  destruct (len (dirty wd1) =? 0); [simpl; auto|].
  pose proof (occlude_any graphics [] wd1) as Hask.
  pose proof (occlude_layers graphics [] wd1) as Hlayers.
  destruct (occlude m graphics [] wd1) as [dbl wd2|wd2]; simpl in Hask.
  2:{ destruct Hask as (Hh & Hd & (asks & Hc & Hasks)). simpl.
      split; [intros g Hg; rewrite Hh; auto|].
      split; [exists added; congruence|].
      exists pre, asks, []. rewrite app_nil_r, Hc, Hcalls, <- app_assoc. auto. }
  destruct Hask as (Hh & Hd & (asks & Hc & Hasks)).
  destruct (Hlayers dbl wd2 eq_refl) as [Hall _].
  rewrite draw_layers_flat.
  destruct (draw_items_any (draw_items graphics dbl) wd2)
    as (Hframe3 & Hdirty3 & (draws & Hcalls3 & Hdraws)).
  assert (Hgoal :
            (forall g, ~ In g (concat graphics) ->
                       heap (world_of (for_each (draw_items graphics dbl)
                              (fun p => draw_graphic m (snd (fst p)) (snd p)) wd2)) g
                       = heap wd g) /\
            (exists added,
                dirty (world_of (for_each (draw_items graphics dbl)
                         (fun p => draw_graphic m (snd (fst p)) (snd p)) wd2))
                = dirty wd ++ added) /\
            exists pre asks draws,
              calls (world_of (for_each (draw_items graphics dbl)
                       (fun p => draw_graphic m (snd (fst p)) (snd p)) wd2))
              = calls wd ++ pre ++ asks ++ draws /\
              Forall (fun c => exists g, In g (concat graphics) /\ c = CallPreDraw g)
                     pre /\
              Forall (fun c => exists g r, c = CallOpaqueIn g r) asks /\
              Forall (draws_within
                        (dirty (world_of (for_each (draw_items graphics dbl)
                           (fun p => draw_graphic m (snd (fst p)) (snd p)) wd2)))
                        (concat graphics)) draws).
  { split; [|split].
    - intros g Hg. rewrite Hframe3.
      + rewrite Hh. auto.
      + intros Hin. apply in_map_iff in Hin. destruct Hin as (p & <- & Hp).
        apply In_draw_items in Hp. tauto.
    - exists added. congruence.
    - exists pre, asks, draws.
      split; [rewrite Hcalls3, Hc, Hcalls, <- !app_assoc; reflexivity|].
      split; [exact Hpre|]. split; [exact Hasks|].
      eapply Forall_impl; [|exact Hdraws]. intros c (p & Hp & Hcall).
      apply In_draw_items in Hp. destruct Hp as [Hg Hrects].
      rewrite Forall_forall in Hall.
      destruct (Hall _ Hrects) as (acc' & Hacc & _). rewrite Hacc in Hcall.
      rewrite Hdirty3, Hd. eapply draw_call_within; eauto. }
  destruct (for_each (draw_items graphics dbl)
                     (fun p => draw_graphic m (snd (fst p)) (snd p)) wd2)
    as [[] wd3|wd3]; simpl in *; exact Hgoal.
Qed.

(** X16.  Whether a frame returns or raises, [fastdraw] writes to no
    graphic that is not in [graphics], only ever appends to the caller's
    [dirty] list, and the calls of the frame come after those made
    before. *)
Theorem fastdraw_frame (graphics : list (list gid)) (wd : World) :
  (forall g, ~ In g (concat graphics) ->
             heap (world_of (fastdraw m graphics wd)) g = heap wd g) /\
  (exists added, dirty (world_of (fastdraw m graphics wd)) = dirty wd ++ added) /\
  (exists made, calls (world_of (fastdraw m graphics wd)) = calls wd ++ made).
Proof.
  destruct (fastdraw_passes graphics wd)
    as (Hframe & Hdirty & (pre & asks & draws & Hcalls & _)).
  split; [exact Hframe|]. split; [exact Hdirty|]. eauto.
Qed.


Lemma Forall_concat {A} (P : A -> Prop) (ls : list (list A)) :
  Forall (Forall P) ls -> Forall P (concat ls).
Proof.
  induction 1 as [|l ls Hl _ IH]; simpl; [constructor|].
  apply Forall_app. auto.
Qed.

(** X18.  In a frame in which no sum and no difference of coordinates
    overflows once the collection pass is through: when the frame returns
    a list, [dirty] is not empty, and the list is made of pairwise
    disjoint rectangles that are not empty; with one layer at least it
    covers exactly what [dirty] covers, [dirty] being the list as the
    frame leaves it, and with no layer at all it is the empty list.  The
    list is the one [mk_disjoint] returns in the arithmetic of [int]. *)
Theorem fastdraw_returns_dirty_region (graphics : list (list gid))
        (wd wd1 wd' : World) (l : list GAME_Rect)
        (Hcollect : collect m graphics wd = Done tt wd1)
        (Hfit : frame_fits graphics wd1)
        (Hrun : fastdraw m graphics wd = Done (PyList l) wd') :
  dirty wd' <> [] /\
  (graphics <> [] ->
   forall px py, covered l px py <-> covered (dirty wd') px py) /\
  (graphics = [] -> l = []) /\
  ForallOrdPairs disjoint_rects l /\
  Forall (fun r => 0 < w r /\ 0 < h r) l /\
  exists dirty_by_layer wd2,
    occlude m graphics [] wd1 = Done dirty_by_layer wd2 /\
    l = mk_disjoint_int (concat dirty_by_layer) [].
Proof.
  rewrite fastdraw_unfold, Hcollect in Hrun.
  destruct (len (dirty wd1) =? 0) eqn:Hlen; [discriminate|].
  pose proof (occlude_any graphics [] wd1) as Hask.
  destruct (occlude m graphics [] wd1) as [dbl wd2|wd2] eqn:Hocc; [|discriminate].
  simpl in Hask. destruct Hask as (_ & Hd & _).
  pose proof (draw_items_any (draw_items graphics dbl) wd2) as (_ & Hd3 & _).
  rewrite <- draw_layers_flat in Hd3.
  destruct (draw_layers m graphics dbl wd2) as [[] wd3|wd3]; [|discriminate].
  simpl in Hd3. inversion Hrun; subst l wd'. clear Hrun.
  rewrite Hd3, Hd.
  destruct (occlude_layers graphics [] wd1 dbl wd2 Hocc) as [Hall _].
  rewrite Forall_forall in Hall.
  split; [|split; [|split; [|split; [|split]]]].
  - intros E. rewrite E in Hlen. discriminate.
  - intros Hne px py. rewrite mk_disjoint_region, covered_concat. split.
    + intros [(rects & Hrects & Hc) _].
      destruct (Hall _ Hrects) as (acc' & -> & _).
      apply mk_disjoint_region in Hc. tauto.
    + intros Hc. split; [|intros (r & [] & _)].
      destruct graphics as [|gs graphics]; [contradiction|].
      destruct (occlude_cons m _ _ _ _ _ _ Hocc) as (l0 & wd0 & below & _ & _ & ->).
      exists (mk_disjoint (dirty wd1) []). split; [simpl; auto|].
      apply mk_disjoint_region. split; [exact Hc|]. intros (r & [] & _).
  - intros ->. simpl in Hocc. inversion Hocc; subst. reflexivity.
  - apply mk_disjoint_pairwise_disjoint.
  - apply mk_disjoint_all_nonempty.
  - exists dbl, wd2. split; [reflexivity|].
    destruct Hfit as [(lx & ly & Hlx & Hly & Hfd) _].
    pose proof (occlude_entries_int lx ly graphics Hlx Hly [] wd1 dbl wd2
                                    Hfd (Forall_nil _) Hocc) as Hint.
    symmetry. apply mk_disjoint_int_exact. rewrite app_nil_r.
    exists lx, ly. split; [exact Hlx|]. split; [exact Hly|].
    apply Forall_concat. eapply Forall_impl; [|exact Hint].
    intros rects (_ & _ & H). exact H.
Qed.

Lemma draw_items_hidden (items : list ((list gid * list GAME_Rect) * gid)) :
  forall wd,
  (forall g, In g (map snd items) -> visible (heap wd g) = false) ->
  exists wd',
    for_each items (fun p => draw_graphic m (snd (fst p)) (snd p)) wd = Done tt wd' /\
    calls wd' = calls wd /\
    (forall g, In g (map snd items) -> _dirty (heap wd' g) = []) /\
    (forall g, visible (heap wd' g) = visible (heap wd g)).
Proof.
  induction items as [|[a g] items IH]; intros wd Hhid; simpl.
  - exists wd. split; [reflexivity|]. split; [reflexivity|]. split; [intros g []|auto].
  - unfold bind.
    assert (Hg : draw_graphic m (snd a) g wd =
                 Done tt (mkWorld (upd (heap wd) g (set_dirty [] (heap wd g)))
                                  (dirty wd) (calls wd))).
    { unfold draw_graphic, bind, getattrs, setattrs, ret. simpl.
      rewrite (Hhid g) by (simpl; auto). reflexivity. }
    rewrite Hg.
    assert (Hvis : forall g', visible (upd (heap wd) g (set_dirty [] (heap wd g)) g')
                              = visible (heap wd g')).
    { intros g'. unfold upd. destruct (Nat.eqb_spec g' g) as [->|]; reflexivity. }
    destruct (IH (mkWorld (upd (heap wd) g (set_dirty [] (heap wd g)))
                          (dirty wd) (calls wd)))
      as (wd' & Hrun & Hcalls & Hnil & Hsame).
    { intros g' Hg'. cbn [heap]. rewrite Hvis. apply Hhid. simpl. auto. }
    cbn [heap calls] in Hcalls, Hsame.
    exists wd'. split; [exact Hrun|]. split; [exact Hcalls|]. split.
    + intros g' [Heq|Hin]; [|now apply Hnil]. simpl in Heq. subst g'.
      destruct (in_dec Nat.eq_dec g (map snd items)) as [Hin|Hnin];
        [now apply Hnil|].
      pose proof (draw_items_any items
                    (mkWorld (upd (heap wd) g (set_dirty [] (heap wd g)))
                             (dirty wd) (calls wd))) as (Hframe & _).
      rewrite Hrun in Hframe. simpl in Hframe.
      rewrite (Hframe g Hnin). now rewrite upd_same.
    + intros g'. rewrite Hsame. apply Hvis.
Qed.

(** X20.  When no graphic is visible once the collection pass is through,
    the frame makes no call of [_draw], also when [dirty] is not empty:
    it makes the calls of [_pre_draw], at most calls of [_opaque_in]
    after them, and no other; and when it returns a list, every graphic
    has an empty [_dirty]. *)
Theorem fastdraw_all_hidden (graphics : list (list gid)) (wd wd1 : World)
        (Hcollect : collect m graphics wd = Done tt wd1)
        (Hhid : forall g, In g (concat graphics) -> visible (heap wd1 g) = false) :
  (exists asks,
      calls (world_of (fastdraw m graphics wd)) =
      calls wd ++ map CallPreDraw (concat graphics) ++ asks /\
      Forall (fun c => exists g r, c = CallOpaqueIn g r) asks) /\
  (forall l wd', fastdraw m graphics wd = Done (PyList l) wd' ->
                 forall g, In g (concat graphics) -> _dirty (heap wd' g) = []).
Proof.
  rewrite fastdraw_unfold, Hcollect.
  rewrite collect_flat in Hcollect.
  destruct (collect_ids_done m _ _ _ Hcollect) as (Hcalls & _).
  destruct (len (dirty wd1) =? 0).
  { simpl. split; [|discriminate]. exists []. rewrite app_nil_r. auto. }
  pose proof (occlude_any graphics [] wd1) as Hask.
  pose proof (occlude_length m graphics [] wd1) as Hlen.
  destruct (occlude m graphics [] wd1) as [dbl wd2|wd2]; simpl in Hask;
    destruct Hask as (Hh & _ & (asks & Hc & Hasks)).
  2:{ simpl. split; [|discriminate]. exists asks.
      rewrite Hc, Hcalls, <- app_assoc. auto. }
  specialize (Hlen dbl wd2 eq_refl).
  destruct (draw_items_hidden (draw_items graphics dbl) wd2)
    as (wd3 & Hrun & Hcalls3 & Hnil & _).
  { intros g Hg. rewrite draw_items_gids in Hg by exact Hlen.
    rewrite Hh. apply Hhid. now apply in_concat_rev. }
  rewrite draw_layers_flat, Hrun. simpl. split.
  - exists asks. rewrite Hcalls3, Hc, Hcalls, <- app_assoc. auto.
  - intros l wd' Heq. inversion Heq; subst. intros g Hg. apply Hnil.
    rewrite draw_items_gids by exact Hlen. now apply in_concat_rev.
Qed.

Lemma opaque_chain_inside gs :
  forall r wd c wd',
  opaque_chain m gs r wd = Done c wd' -> snd c = true ->
  forall px py,
    inside (fst c) px py ->
    inside r px py /\
    exists made,
      calls wd' = calls wd ++ made /\
      forall g, In g gs ->
                inside (_postrot_rect (heap wd g)) px py /\
                exists q, In (CallOpaqueIn g q) made /\
                          _opaque_in m g (heap wd g) q = Some true /\
                          inside q px py.
Proof.
  induction gs as [|g gs IH]; intros r wd c wd' Hrun Hgood px py Hin.
  - simpl in Hrun. inversion Hrun; subst. simpl in Hin. split; [exact Hin|].
    exists []. rewrite app_nil_r. split; [reflexivity|]. intros g [].
  - simpl in Hrun. unfold bind, getattrs in Hrun.
    destruct (call_opaque_in_post m g (clip r (_postrot_rect (heap wd g))) wd)
      as [_ Hans].
    unfold call_opaque_in in Hrun, Hans.
    destruct (_opaque_in m g (heap (log (CallOpaqueIn g (clip r (_postrot_rect
                (heap wd g)))) wd) g) (clip r (_postrot_rect (heap wd g))))
      as [tmp|] eqn:Hop; [|discriminate].
    specialize (Hans tmp _ eq_refl).
    destruct ((w (clip r (_postrot_rect (heap wd g))) >? 0) &&
              (h (clip r (_postrot_rect (heap wd g))) >? 0) && tmp) eqn:Hg.
    + apply andb_prop in Hg. destruct Hg as [_ ->].
      destruct (IH _ _ _ _ Hrun Hgood px py Hin)
        as [Hclip (made & Hcalls & Hrest)].
      cbn [log heap calls] in Hcalls, Hrest.
      pose proof Hclip as Hq. apply clip_region in Hclip. destruct Hclip as [Hr HR].
      split; [exact Hr|].
      exists (CallOpaqueIn g (clip r (_postrot_rect (heap wd g))) :: made).
      split; [rewrite Hcalls, <- app_assoc; reflexivity|].
      intros g' [<-|Hg'].
      * split; [exact HR|].
        exists (clip r (_postrot_rect (heap wd g))). split; [now left|]. auto.
      * destruct (Hrest g' Hg') as (Hinside & q & Hcall & Hanswer & Hqin).
        split; [exact Hinside|]. exists q. split; [now right|]. auto.
    + inversion Hrun; subst. discriminate.
Qed.

Lemma layer_opaque_inside gs :
  forall rects wd l wd',
  layer_opaque m gs rects wd = Done l wd' ->
  forall px py,
    covered l px py ->
    covered rects px py /\
    exists made,
      calls wd' = calls wd ++ made /\
      forall g, In g gs ->
                inside (_postrot_rect (heap wd g)) px py /\
                exists q, In (CallOpaqueIn g q) made /\
                          _opaque_in m g (heap wd g) q = Some true /\
                          inside q px py.
Proof.
  induction rects as [|r rects IH]; intros wd l wd' Hrun px py Hc.
  - simpl in Hrun. inversion Hrun; subst. destruct Hc as (r & [] & _).
  - simpl in Hrun. unfold bind in Hrun.
    pose proof (opaque_chain_post m gs r wd) as Hpost.
    destruct (opaque_chain m gs r wd) as [c wd1|wd1] eqn:Hchain; [|discriminate].
    simpl in Hpost. destruct Hpost as (Hheap & _ & (l1 & Hcalls1 & _)).
    pose proof (layer_opaque_post m gs rects wd1) as Hpost2.
    destruct (layer_opaque m gs rects wd1) as [l0 wd2|wd2] eqn:Hrest; [|discriminate].
    simpl in Hpost2. destruct Hpost2 as (_ & _ & (l2 & Hcalls2 & _)).
    inversion Hrun; subst l wd'. clear Hrun.
    assert (Hl0 : covered l0 px py ->
                  covered (r :: rects) px py /\
                  exists made,
                    calls wd2 = calls wd ++ made /\
                    forall g, In g gs ->
                              inside (_postrot_rect (heap wd g)) px py /\
                              exists q, In (CallOpaqueIn g q) made /\
                                        _opaque_in m g (heap wd g) q = Some true /\
                                        inside q px py).
    { intros Hc0.
      destruct (IH _ _ _ Hrest px py Hc0)
        as [(r0 & Hr0 & Hin0) (made & Hcalls & Hall)].
      split; [exists r0; simpl; auto|].
      exists (l1 ++ made). split; [rewrite Hcalls, Hcalls1, app_assoc; reflexivity|].
      intros g Hg. rewrite <- Hheap.
      destruct (Hall g Hg) as (Hinside & q & Hcall & Hrest').
      split; [exact Hinside|]. exists q. split; [|exact Hrest'].
      apply in_or_app. now right. }
    destruct (snd c) eqn:Hgood; [|now apply Hl0].
    destruct Hc as (r' & [<-|Hr'] & Hin); [|apply Hl0; exists r'; auto].
    destruct (opaque_chain_inside gs r wd c wd1 Hchain Hgood px py Hin)
      as [Hr (made & Hcalls & Hall)].
    split; [exists r; simpl; auto|].
    exists (made ++ l2). split; [rewrite Hcalls2, Hcalls, app_assoc; reflexivity|].
    intros g Hg. destruct (Hall g Hg) as (Hinside & q & Hcall & Hrest').
    split; [exact Hinside|]. exists q. split; [|exact Hrest'].
    apply in_or_app. now left.
Qed.

(** X21.  In a frame in which no sum and no difference of coordinates
    overflows, a layer takes a point out of the dirty rects of the layer
    after it only where every one of its graphics holds the point in its
    bounding rect and, in this pass, was asked [_opaque_in] for a
    rectangle that holds the point and answered [True]. *)
Theorem occlusion_needs_every_graphic (before : list (list gid))
        (gs : list gid) (after : list (list gid)) (wd wd' : World)
        (dirty_by_layer : list (list GAME_Rect))
        (Hfit : frame_fits (before ++ gs :: after) wd)
        (Hrun : occlude m (before ++ gs :: after) [] wd = Done dirty_by_layer wd')
        (rects rects' : list GAME_Rect) (px py : Z)
        (Hhere : nth_error dirty_by_layer (length before) = Some rects)
        (Hnext : nth_error dirty_by_layer (S (length before)) = Some rects')
        (Hin : covered rects px py)
        (Hout : ~ covered rects' px py) :
  exists made,
    calls wd' = calls wd ++ made /\
    forall g, In g gs ->
              inside (_postrot_rect (heap wd g)) px py /\
              exists q, In (CallOpaqueIn g q) made /\
                        _opaque_in m g (heap wd g) q = Some true /\
                        inside q px py.
Proof.
  destruct (occlude_at m _ _ _ _ _ _ _ Hrun)
    as (acc_i & wd_i & l & wd_l & above & below & Hask & _ & Hl & Hb & -> & Hlen).
  destruct Hask as (Hheap & _ & (l1 & Hcalls1 & _)).
  rewrite nth_error_app2 in Hhere, Hnext by lia.
  rewrite Hlen in Hhere, Hnext.
  replace (length before - length before)%nat with 0%nat in Hhere by lia.
  replace (S (length before) - length before)%nat with 1%nat in Hnext by lia.
  simpl in Hhere, Hnext. inversion Hhere; subst rects. clear Hhere.
  pose proof (layer_opaque_any gs (dirty wd_i) wd_i) as Hsame.
  rewrite Hl in Hsame. simpl in Hsame. destruct Hsame as (_ & Hd & _).
  pose proof (occlude_any after (acc_i ++ l) wd_l) as Hafter.
  rewrite Hb in Hafter. simpl in Hafter. destruct Hafter as (_ & _ & (l3 & Hcalls3 & _)).
  destruct after as [|gs' after].
  { simpl in Hb. inversion Hb; subst. discriminate. }
  destruct (occlude_cons m _ _ _ _ _ _ Hb) as (l' & wd1 & below' & _ & _ & ->).
  simpl in Hnext. inversion Hnext; subst rects'. clear Hnext.
  apply mk_disjoint_region in Hin. destruct Hin as [Hdirty Hacc].
  assert (Hcl : covered l px py).
  { destruct (covered_dec l px py) as [Hc|Hn]; auto. exfalso. apply Hout.
    apply mk_disjoint_region. rewrite Hd. split; [exact Hdirty|].
    intros Hc. apply covered_app in Hc. tauto. }
  destruct (layer_opaque_inside gs _ _ _ _ Hl px py Hcl) as [_ (made & Hcalls & Hall)].
  exists (l1 ++ made ++ l3).
  split; [rewrite Hcalls3, Hcalls, Hcalls1, <- !app_assoc; reflexivity|].
  intros g Hg. rewrite <- Hheap.
  destruct (Hall g Hg) as (Hinside & q & Hcall & Hrest').
  split; [exact Hinside|]. exists q. split; [|exact Hrest'].
  apply in_or_app. right. apply in_or_app. now left.
Qed.

End Frame.

(** ** The further theorems at concrete frames *)


Lemma occlude_layers_shrink_witness :
  (frame_fits [[0%nat]; [2%nat]] ex_dirty /\
   occlude ex_all_opaque [[0%nat]; [2%nat]] [] ex_dirty =
   Done [[PyRect_New4 0 0 10 10]; []]
        (world_of (occlude ex_all_opaque [[0%nat]; [2%nat]] [] ex_dirty))) /\
  forall rects,
    nth_error [[PyRect_New4 0 0 10 10]; []] 0 = Some rects ->
    forall px py, covered rects px py <-> covered (dirty ex_dirty) px py.
Proof.
  assert (Hrun : occlude ex_all_opaque [[0%nat]; [2%nat]] [] ex_dirty =
                 Done [[PyRect_New4 0 0 10 10]; []]
                      (world_of (occlude ex_all_opaque [[0%nat]; [2%nat]] [] ex_dirty)))
    by (vm_compute; reflexivity).
  split; [split; [apply frame_fits_ex_dirty | exact Hrun]|].
  exact (proj1 (occlude_layers_shrink ex_all_opaque [[0%nat]; [2%nat]] ex_dirty
                  (world_of (occlude ex_all_opaque [[0%nat]; [2%nat]] [] ex_dirty))
                  [[PyRect_New4 0 0 10 10]; []]
                  (frame_fits_ex_dirty [[0%nat]; [2%nat]]) Hrun)).
Defined.

Lemma fastdraw_returns_dirty_region_witness :
  (collect ex_all_opaque [[0%nat]] ex_dirty =
   Done tt (world_of (collect ex_all_opaque [[0%nat]] ex_dirty)) /\
   frame_fits [[0%nat]] (world_of (collect ex_all_opaque [[0%nat]] ex_dirty)) /\
   fastdraw ex_all_opaque [[0%nat]] ex_dirty =
   Done (PyList [PyRect_New4 0 0 10 10])
        (world_of (fastdraw ex_all_opaque [[0%nat]] ex_dirty))) /\
  dirty (world_of (fastdraw ex_all_opaque [[0%nat]] ex_dirty)) <> [] /\
  ([[0%nat]] <> [] ->
   forall px py,
     covered [PyRect_New4 0 0 10 10] px py <->
     covered (dirty (world_of (fastdraw ex_all_opaque [[0%nat]] ex_dirty))) px py).
Proof.
  assert (Hfit : frame_fits [[0%nat]]
                            (world_of (collect ex_all_opaque [[0%nat]] ex_dirty))).
  { split.
    - replace (dirty (world_of (collect ex_all_opaque [[0%nat]] ex_dirty)))
        with [PyRect_New4 0 0 10 10] by (vm_compute; reflexivity).
      apply no_overflow_origin. repeat constructor; simpl; lia.
    - intros g [<-|[]].
      replace (_postrot_rect (heap (world_of (collect ex_all_opaque [[0%nat]]
                                                     ex_dirty)) 0%nat))
        with (PyRect_New4 0 0 10 10) by (vm_compute; reflexivity).
      apply rect_int_origin. simpl. lia. }
  assert (Hrun : fastdraw ex_all_opaque [[0%nat]] ex_dirty =
                 Done (PyList [PyRect_New4 0 0 10 10])
                      (world_of (fastdraw ex_all_opaque [[0%nat]] ex_dirty)))
    by (vm_compute; reflexivity).
  split; [split; [reflexivity | split; [exact Hfit | exact Hrun]]|].
  destruct (fastdraw_returns_dirty_region ex_all_opaque [[0%nat]] ex_dirty
              (world_of (collect ex_all_opaque [[0%nat]] ex_dirty))
              (world_of (fastdraw ex_all_opaque [[0%nat]] ex_dirty))
              [PyRect_New4 0 0 10 10] eq_refl Hfit Hrun)
    as (Hne & Hreg & _).
  split; [exact Hne | exact Hreg].
Defined.

Lemma fastdraw_all_hidden_witness :
  (collect ex_all_opaque [[0%nat]] (mkWorld (fun _ => ex_hidden) [] []) =
   Done tt (world_of (collect ex_all_opaque [[0%nat]]
                              (mkWorld (fun _ => ex_hidden) [] []))) /\
   forall g, In g (concat [[0%nat]]) ->
             visible (heap (world_of (collect ex_all_opaque [[0%nat]]
                                              (mkWorld (fun _ => ex_hidden) [] []))) g)
             = false) /\
  exists asks,
    calls (world_of (fastdraw ex_all_opaque [[0%nat]]
                              (mkWorld (fun _ => ex_hidden) [] []))) =
    calls (mkWorld (fun _ => ex_hidden) [] []) ++
    map CallPreDraw (concat [[0%nat]]) ++ asks /\
    Forall (fun c => exists g r, c = CallOpaqueIn g r) asks.
Proof.
  assert (Hhid : forall g, In g (concat [[0%nat]]) ->
             visible (heap (world_of (collect ex_all_opaque [[0%nat]]
                                              (mkWorld (fun _ => ex_hidden) [] []))) g)
             = false).
  { intros g [<-|[]]. reflexivity. }
  split; [split; [reflexivity | exact Hhid]|].
  exact (proj1 (fastdraw_all_hidden ex_all_opaque [[0%nat]]
                  (mkWorld (fun _ => ex_hidden) [] [])
                  (world_of (collect ex_all_opaque [[0%nat]]
                                     (mkWorld (fun _ => ex_hidden) [] [])))
                  eq_refl Hhid)).
Defined.

Lemma occlusion_needs_every_graphic_witness :
  (frame_fits ([] ++ [0%nat] :: [[2%nat]]) ex_dirty /\
   occlude ex_all_opaque ([] ++ [0%nat] :: [[2%nat]]) [] ex_dirty =
   Done [[PyRect_New4 0 0 10 10]; []]
        (world_of (occlude ex_all_opaque ([] ++ [0%nat] :: [[2%nat]]) [] ex_dirty)) /\
   covered [PyRect_New4 0 0 10 10] 3 4 /\ ~ covered [] 3 4) /\
  exists made,
    calls (world_of (occlude ex_all_opaque ([] ++ [0%nat] :: [[2%nat]]) [] ex_dirty))
    = calls ex_dirty ++ made /\
    forall g, In g [0%nat] ->
              inside (_postrot_rect (heap ex_dirty g)) 3 4 /\
              exists q, In (CallOpaqueIn g q) made /\
                        _opaque_in ex_all_opaque g (heap ex_dirty g) q = Some true /\
                        inside q 3 4.
Proof.
  assert (Hin : covered [PyRect_New4 0 0 10 10] 3 4).
  { exists (PyRect_New4 0 0 10 10). split; [simpl; auto|]. unfold inside. simpl. lia. }
  assert (Hout : ~ covered [] 3 4) by (intros (r & [] & _)).
  assert (Hrun : occlude ex_all_opaque ([] ++ [0%nat] :: [[2%nat]]) [] ex_dirty =
                 Done [[PyRect_New4 0 0 10 10]; []]
                      (world_of (occlude ex_all_opaque ([] ++ [0%nat] :: [[2%nat]]) []
                                         ex_dirty)))
    by (vm_compute; reflexivity).
  split; [split; [apply frame_fits_ex_dirty|];
          split; [exact Hrun | split; [exact Hin | exact Hout]]|].
  exact (occlusion_needs_every_graphic ex_all_opaque [] [0%nat] [[2%nat]] ex_dirty
           (world_of (occlude ex_all_opaque ([] ++ [0%nat] :: [[2%nat]]) [] ex_dirty))
           [[PyRect_New4 0 0 10 10]; []]
           (frame_fits_ex_dirty _) Hrun
           [PyRect_New4 0 0 10 10] [] 3 4 eq_refl eq_refl Hin Hout).
Defined.

Lemma mk_disjoint_difference_witness :
  no_overflow ([PyRect_New4 0 0 3 4; PyRect_New4 2 3 4 5] ++ [PyRect_New4 1 1 1 1]) /\
  forall px py,
    covered (mk_disjoint_int [PyRect_New4 0 0 3 4; PyRect_New4 2 3 4 5]
                             [PyRect_New4 1 1 1 1]) px py <->
    covered [PyRect_New4 0 0 3 4; PyRect_New4 2 3 4 5] px py /\
    ~ covered [PyRect_New4 1 1 1 1] px py.
Proof.
  assert (Hfit : no_overflow ([PyRect_New4 0 0 3 4; PyRect_New4 2 3 4 5] ++
                              [PyRect_New4 1 1 1 1])).
  { apply no_overflow_origin. repeat constructor; simpl; lia. }
  split; [exact Hfit|].
  exact (proj2 (proj2 (mk_disjoint_difference
                         [PyRect_New4 0 0 3 4; PyRect_New4 2 3 4 5]
                         [PyRect_New4 1 1 1 1] Hfit))).
Defined.

Lemma mk_disjoint_empty_iff_witness :
  no_overflow ([PyRect_New4 1 1 2 2; PyRect_New4 9 9 0 5] ++ [PyRect_New4 0 0 5 5]) /\
  (mk_disjoint_int [PyRect_New4 1 1 2 2; PyRect_New4 9 9 0 5] [PyRect_New4 0 0 5 5]
   = [] <->
   forall px py,
     covered [PyRect_New4 1 1 2 2; PyRect_New4 9 9 0 5] px py ->
     covered [PyRect_New4 0 0 5 5] px py).
Proof.
  assert (Hfit : no_overflow ([PyRect_New4 1 1 2 2; PyRect_New4 9 9 0 5] ++
                              [PyRect_New4 0 0 5 5])).
  { apply no_overflow_origin. repeat constructor; simpl; lia. }
  split; [exact Hfit|].
  exact (mk_disjoint_empty_iff [PyRect_New4 1 1 2 2; PyRect_New4 9 9 0 5]
                               [PyRect_New4 0 0 5 5] Hfit).
Defined.

Lemma mk_disjoint_fixed_points_witness :
  no_overflow [PyRect_New4 0 0 10 5; PyRect_New4 0 5 4 5; PyRect_New4 6 5 4 5] /\
  (mk_disjoint_int [PyRect_New4 0 0 10 5; PyRect_New4 0 5 4 5; PyRect_New4 6 5 4 5] []
   = [PyRect_New4 0 0 10 5; PyRect_New4 0 5 4 5; PyRect_New4 6 5 4 5] <->
   StronglySorted rect_before
                  [PyRect_New4 0 0 10 5; PyRect_New4 0 5 4 5; PyRect_New4 6 5 4 5] /\
   Forall (fun r => 0 < w r /\ 0 < h r)
          [PyRect_New4 0 0 10 5; PyRect_New4 0 5 4 5; PyRect_New4 6 5 4 5]).
Proof.
  assert (Hfit : no_overflow [PyRect_New4 0 0 10 5; PyRect_New4 0 5 4 5;
                              PyRect_New4 6 5 4 5]).
  { apply no_overflow_origin. repeat constructor; simpl; lia. }
  split; [exact Hfit|].
  exact (mk_disjoint_fixed_points
           [PyRect_New4 0 0 10 5; PyRect_New4 0 5 4 5; PyRect_New4 6 5 4 5] Hfit).
Defined.

(** ** [quicksort] on the head of an array *)

Lemma set_nth_app n a t v :
  (n < length a)%nat -> set_nth n (a ++ t) v = set_nth n a v ++ t.
Proof.
  revert n. induction a as [|c a IH]; intros [|n] Hn; simpl in *; try lia; auto.
  rewrite IH by lia. reflexivity.
Qed.

Lemma set_app_l a t i v : 0 <= i < len a -> set (a ++ t) i v = set a i v ++ t.
Proof.
  unfold set, len. intros Hi. destruct (Z.ltb_spec i 0); try lia.
  apply set_nth_app. lia.
Qed.

Section Head.

(** What follows the [elements] entries that [quicksort] is given. *)
Variable t : list Z.

Lemma scan_down_app fuel arr piv L :
  forall R, 0 <= L <= R -> R < len arr ->
  scan_down fuel (arr ++ t) piv L R = scan_down fuel arr piv L R.
Proof.
  induction fuel as [|f IH]; intros R HLR HR; simpl; auto.
  rewrite get_app_l by lia.
  destruct (Z.ltb_spec L R); [|now rewrite !andb_false_r].
  destruct (get arr R >=? piv); simpl; auto. apply IH; lia.
Qed.

Lemma scan_up_app fuel arr piv R :
  forall L, 0 <= L <= R -> R < len arr ->
  scan_up fuel (arr ++ t) piv L R = scan_up fuel arr piv L R.
Proof.
  induction fuel as [|f IH]; intros L HLR HR; simpl; auto.
  rewrite get_app_l by lia.
  destruct (Z.ltb_spec L R); [|now rewrite !andb_false_r].
  destruct (get arr L <=? piv); simpl; auto. apply IH; lia.
Qed.

Lemma partition_app fuel piv :
  forall arr L R, 0 <= L <= R -> R < len arr ->
  partition fuel (arr ++ t) piv L R =
  (fst (partition fuel arr piv L R) ++ t, snd (partition fuel arr piv L R)) /\
  L <= snd (partition fuel arr piv L R) <= R /\
  len (fst (partition fuel arr piv L R)) = len arr.
Proof.
  induction fuel as [|f IH]; intros arr L R HLR HR; cbn [partition].
  - simpl. split; [reflexivity|]. split; [lia | reflexivity].
  - destruct (Z.ltb_spec L R) as [Hlt|Hge];
      [|simpl; split; [reflexivity|]; split; [lia | reflexivity]].
    rewrite scan_down_app by lia.
    destruct (scan_down_spec (Z.to_nat (R - L)) arr piv L R ltac:(lia) ltac:(lia))
      as (HR1 & _).
    set (R1 := scan_down (Z.to_nat (R - L)) arr piv L R) in *.
    destruct (Z.ltb_spec L R1) as [HL1|HL1].
    + rewrite get_app_l, set_app_l by lia.
      set (arr1 := set arr L (get arr R1)).
      assert (Hlen1 : len arr1 = len arr) by apply len_set.
      rewrite scan_up_app by lia.
      destruct (scan_up_spec (Z.to_nat (R1 - (L + 1))) arr1 piv (L + 1) R1
                             ltac:(lia) ltac:(lia)) as (HL2 & _).
      set (L2 := scan_up (Z.to_nat (R1 - (L + 1))) arr1 piv (L + 1) R1) in *.
      destruct (Z.ltb_spec L2 R1) as [HR2|HR2].
      * rewrite get_app_l, set_app_l by lia.
        destruct (IH (set arr1 R1 (get arr1 L2)) L2 (R1 - 1))
          as (Heq & Hb & Hl); [lia | rewrite len_set; lia |].
        rewrite len_set in Hl. split; [exact Heq|]. split; [lia | congruence].
      * destruct (IH arr1 L2 R1) as (Heq & Hb & Hl); [lia | lia |].
        split; [exact Heq|]. split; [lia | congruence].
    + rewrite scan_up_app by lia.
      destruct (scan_up_spec (Z.to_nat (R1 - L)) arr piv L R1 ltac:(lia) ltac:(lia))
        as (HL2 & _).
      set (L2 := scan_up (Z.to_nat (R1 - L)) arr piv L R1) in *.
      destruct (Z.ltb_spec L2 R1) as [HR2|HR2].
      * rewrite get_app_l, set_app_l by lia.
        destruct (IH (set arr R1 (get arr L2)) L2 (R1 - 1))
          as (Heq & Hb & Hl); [lia | rewrite len_set; lia |].
        rewrite len_set in Hl. split; [exact Heq|]. split; [lia | congruence].
      * destruct (IH arr L2 R1) as (Heq & Hb & Hl); [lia | lia |].
        split; [exact Heq|]. split; [lia | congruence].
Qed.

Lemma qs_step_app arr stack :
  Forall (seg_ok (len arr)) stack ->
  qs_step (arr ++ t, stack) =
  match qs_step (arr, stack) with
  | Some st' => Some (fst st' ++ t, snd st')
  | None => None
  end.
Proof.
  intros Hsegs. unfold qs_step.
  destruct stack as [|[b e] rest]; [reflexivity|].
  inversion Hsegs as [|? ? [H1 H2] _]; subst. simpl in H1, H2.
  destruct (Z.ltb_spec b (e - 1)) as [Hlt|Hge]; [|reflexivity].
  rewrite get_app_l by lia.
  destruct (partition_app (Z.to_nat (e - 1 - b)) (get arr b) arr b (e - 1))
    as (Heq & Hb & Hl); [lia | lia |].
  rewrite Heq.
  destruct (partition (Z.to_nat (e - 1 - b)) arr (get arr b) b (e - 1))
    as [arr1 L1].
  cbn [fst snd] in *.
  rewrite set_app_l by lia.
  destruct (e - (L1 + 1) >? L1 - b); reflexivity.
Qed.

Lemma qs_loop_app orig fuel :
  forall arr stack,
  qs_inv orig arr stack ->
  qs_loop fuel (arr ++ t, stack) = qs_loop fuel (arr, stack) ++ t.
Proof.
  induction fuel as [|f IH]; intros arr stack Hinv; [reflexivity|].
  rewrite !qs_loop_S, qs_step_app.
  2:{ rewrite (qi_len _ _ _ Hinv). apply (qi_segs _ _ _ Hinv). }
  pose proof (qs_step_inv orig arr stack) as Hnext.
  unfold qs_stack in *.
  destruct (qs_step (arr, stack)) as [[arr' stack']|]; [|reflexivity].
  destruct (Hnext _ Hinv eq_refl) as [Hinv' _].
  cbn [fst snd] in *. now apply IH.
Qed.

(** X2.  [quicksort] reads and writes the first [elements] entries of the
    array only: what follows them is left as it is, and the entries are
    sorted as they are when nothing follows. *)
Theorem quicksort_head_only (arr : list Z) :
  quicksort (arr ++ t) (len arr) = quicksort arr (len arr) ++ t.
Proof.
  unfold quicksort. apply (qs_loop_app arr). apply qs_inv_init.
Qed.

End Head.
